(** * EstimatePlaylistSize/MonteCarlo.cc: occupancy sampler, profile
    probability and Monte Carlo p-value, verified over a shallow embedding.

    Data is modelled the way the program has it:
    - [unsigned] is a [Z] in [0, 2^32) with the wrap-around written out
      ([wrap32]) wherever the program does unsigned arithmetic;
    - [double] is Rocq's primitive binary64 [float]; the two <cmath>
      functions the program calls ([lgamma], [log]) are parameters;
    - [std::vector<unsigned>] is a [list Z]; [operator[]] is bounds checked
      and an access past the end is undefined behaviour;
    - [std::mt19937] with [std::uniform_int_distribution<unsigned>] is an
      abstract generator state with a draw function. *)

From Stdlib Require Import ZArith Lia Floats Uint63 Zpower.
From stdpp Require Import base list sorting.

Open Scope Z_scope.

(** ** Outcomes of a call *)

(** A call returns, dies on [assert], or runs into undefined behaviour (an
    out-of-range [operator[]], or a floating-integral conversion whose
    truncated value the destination type cannot represent). *)
Inductive outcome (A : Type) : Type :=
| Returns (a : A)
| AssertionFailed
| Undefined.
Arguments Returns {A} a.
Arguments AssertionFailed {A}.
Arguments Undefined {A}.

Global Instance outcome_ret : MRet outcome := fun A a => Returns a.
Global Instance outcome_bind : MBind outcome := fun A B f m =>
  match m with
  | Returns a => f a
  | AssertionFailed => AssertionFailed
  | Undefined => Undefined
  end.

Definition returns {A} (m : outcome A) : Prop := ∃ a, m = Returns a.

(** ** unsigned *)

Definition wrap32 (z : Z) : Z := z mod 2 ^ 32.
Definition is_unsigned (z : Z) : Prop := 0 ≤ z < 2 ^ 32.

(** ** std::vector<unsigned> *)

Abbreviation vec := (list Z).

Definition vec_size (dd : vec) : Z := Z.of_nat (length dd).

(** [dd[i]] as an rvalue. *)
Definition vec_get (dd : vec) (i : Z) : outcome Z :=
  match dd !! Z.to_nat i with
  | Some x => Returns x
  | None => Undefined
  end.

(** [dd[i] = x]. *)
Definition vec_set (dd : vec) (i x : Z) : outcome vec :=
  match dd !! Z.to_nat i with
  | Some _ => Returns (<[Z.to_nat i := x]> dd)
  | None => Undefined
  end.

(** [dd.resize(n)]: truncates, or appends value-initialised entries. *)
Definition vec_resize (dd : vec) (n : Z) : vec := resize (Z.to_nat n) 0 dd.

(** ** double *)

Abbreviation double := float.

(** The conversion of an [unsigned] to [double]: exact, every 32-bit
    integer being a binary64 value. *)
Definition of_unsigned (z : Z) : double := PrimFloat.of_uint63 (Uint63.of_Z z).

(** The conversion of a [double] to [unsigned] ([conv.fpint]): the value is
    truncated toward zero, and the behaviour is undefined when the
    truncated value is not an [unsigned] (also for infinities and NaN). *)
Definition double_to_unsigned (x : double) : outcome Z :=
  match Prim2SF x with
  | S754_zero _ => Returns 0
  | S754_finite s m e =>
      let t := Z.shiftl (Zpos m) e in
      if s then (if t =? 0 then Returns 0 else Undefined)
      else if t <? 2 ^ 32 then Returns t else Undefined
  | S754_infinity _ | S754_nan => Undefined
  end.

(** The literal [1e-10] is read as the binary64 value nearest to it. *)
Definition tie_tolerance : double := 0x1.b7cdfd9d7bdbbp-34%float.

Section MonteCarlo.

(** <cmath>: [double lgamma(double)] and [double log(double)]. *)
Variable lgamma : double → double.
Variable log : double → double.

(** [std::mt19937]: its states, its constructor from a seed, and what
    [std::uniform_int_distribution<unsigned>(a, b)] draws from a state. *)
Variable mt19937 : Type.
Variable mt19937_seed : Z → mt19937.
Variable uniform_int : Z → Z → mt19937 → Z * mt19937.

Record BallDrawer : Type := mkBallDrawer {
  rgen : mt19937;
  dist_a : Z;
  dist_b : Z
}.

(** [BallDrawer(num_balls, seed) : rgen(seed), distribution(0, num_balls - 1)] *)
Definition BallDrawer_new (num_balls seed : Z) : BallDrawer :=
  mkBallDrawer (mt19937_seed seed) 0 (wrap32 (num_balls - 1)).

(** [distribution(rgen)], stored in a [const unsigned]. *)
Definition next_ball (d : BallDrawer) : Z * BallDrawer :=
  let '(r, g) := uniform_int (dist_a d) (dist_b d) (rgen d) in
  (wrap32 r, mkBallDrawer g (dist_a d) (dist_b d)).

(** The scan [for (bin = 0; bin < dd.size(); ++bin) { sum += dd[bin];
    if (ball < sum) break; }], entered with [n] entries of [dd] left to
    visit; the result is the value of [bin] after it. Once every entry has
    been visited the test [bin < dd.size()] fails, unless the [unsigned]
    counter has wrapped: the scan would then start over. *)
Fixpoint scan_bins (n : nat) (dd : vec) (ball bin sum : Z) : outcome Z :=
  match n with
  | O => if bin <? vec_size dd then Undefined else Returns bin
  | S n' =>
      x ← vec_get dd bin;
      let sum' := wrap32 (sum + x) in
      if ball <? sum' then Returns bin
      else scan_bins n' dd ball (wrap32 (bin + 1)) sum'
  end.

(** The body of the draw loop after [ball] has been drawn. *)
Definition place_ball (dd : vec) (ball : Z) : outcome vec :=
  bin ← scan_bins (length dd) dd ball 0 0;
  '(dd1, bin1) ←
    (if bin =? vec_size dd then Returns (dd, 0)
     else
       x ← vec_get dd bin;
       dd' ← vec_set dd bin (wrap32 (x - 1));
       Returns (dd', wrap32 (bin + 1)));
  let dd2 :=
    if bin1 =? vec_size dd1 then vec_resize dd1 (wrap32 (bin1 + 1)) else dd1 in
  x ← vec_get dd2 bin1;
  vec_set dd2 bin1 (wrap32 (x + 1)).

(** One iteration of [for (draw = 0; draw < num_draws; ++draw)]. *)
Definition draw_step (st : vec * BallDrawer) : outcome (vec * BallDrawer) :=
  let '(dd, d) := st in
  let '(ball, d') := next_ball d in
  dd' ← place_ball dd ball;
  Returns (dd', d').

Fixpoint draw_loop (n : nat) (st : vec * BallDrawer) : outcome (vec * BallDrawer) :=
  match n with
  | O => Returns st
  | S n' => st' ← draw_step st; draw_loop n' st'
  end.

(** [void draw_balls(std::vector<unsigned> & dd, const unsigned num_draws)]:
    the vector passed in is cleared first; the result is the vector left in
    [dd] and the drawer with its generator advanced. *)
Definition draw_balls (d : BallDrawer) (dd : vec) (num_draws : Z)
  : outcome (vec * BallDrawer) :=
  let dd0 : vec := [] in
  draw_loop (Z.to_nat num_draws) (dd0, d).

(** ** calculate_log_probability *)

Record log_prob_state : Type := mkLogProbState {
  num_unique : Z;
  num_draws : Z;
  log_denom : double
}.

(** The body of [for (unsigned i = 1; i <= dd.size(); ++i)]. The compound
    assignments to the two [unsigned] counters are done in [double] and
    converted back. *)
Definition log_prob_body (dd : vec) (i : Z) (st : log_prob_state)
  : outcome log_prob_state :=
  x ← vec_get dd (wrap32 (i - 1));
  let dd_i := of_unsigned x in
  nu ← double_to_unsigned (of_unsigned (num_unique st) + dd_i)%float;
  nd ← double_to_unsigned (of_unsigned (num_draws st) + dd_i * of_unsigned i)%float;
  Returns (mkLogProbState nu nd
    (log_denom st
     + (lgamma (1 + dd_i) + dd_i * lgamma (of_unsigned (wrap32 (1 + i)))))%float).

(** The loop, entered with [n] entries of [dd] left to visit. Once every
    entry has been visited the test [i <= dd.size()] fails, unless the
    [unsigned] counter has wrapped: the loop would then go on, for ever or
    until it reads past the end. *)
Fixpoint log_prob_loop (n : nat) (dd : vec) (i : Z) (st : log_prob_state)
  : outcome log_prob_state :=
  match n with
  | O => if i <=? vec_size dd then Undefined else Returns st
  | S n' => st' ← log_prob_body dd i st; log_prob_loop n' dd (wrap32 (i + 1)) st'
  end.

(** [double calculate_log_probability(const std::vector<unsigned> & dd,
    unsigned num_balls)] *)
Definition calculate_log_probability (dd : vec) (num_balls : Z) : outcome double :=
  st ← log_prob_loop (length dd) dd 1 (mkLogProbState 0 0 0%float);
  if num_unique st <=? num_balls then
    Returns
      (lgamma (of_unsigned (wrap32 (1 + num_draws st)))
       - log_denom st
       + lgamma (of_unsigned (wrap32 (1 + num_balls)))
       - lgamma (of_unsigned (wrap32 (wrap32 (1 + num_balls) - num_unique st)))
       - of_unsigned (num_draws st) * log (of_unsigned num_balls))%float
  else AssertionFailed.

(** ** monte_carlo *)

(** One line written to [std::cout]: the numbers printed, in order. *)
Record report_line : Type := mkReportLine {
  line_num_balls : Z;
  line_num_draws : Z;
  line_log_probability : double;
  line_dd : vec
}.

(** The loop [for (unsigned rep = 0; rep < num_repeats; ++rep)] of
    [monte_carlo]; the state is the drawer, the vector [dd] and the lines
    written so far. *)
Fixpoint monte_carlo_loop (n : nat) (num_balls num_draws : Z)
    (st : BallDrawer * vec * list report_line)
  : outcome (BallDrawer * vec * list report_line) :=
  match n with
  | O => Returns st
  | S n' =>
      let '(drawer, dd, out) := st in
      '(dd', drawer') ← draw_balls drawer dd num_draws;
      log_probability ← calculate_log_probability dd' num_balls;
      monte_carlo_loop n' num_balls num_draws
        (drawer', dd', out ++ [mkReportLine num_balls num_draws log_probability dd'])
  end.

(** [void monte_carlo(num_balls, num_draws, num_repeats, seed)]: the result
    is what it writes. *)
Definition monte_carlo (num_balls num_draws num_repeats seed : Z)
  : outcome (list report_line) :=
  let drawer := BallDrawer_new num_balls seed in
  let dd := vec_resize [] num_draws in
  '(_, _, out) ← monte_carlo_loop (Z.to_nat num_repeats) num_balls num_draws
                   (drawer, dd, []);
  Returns out.

(** ** monte_carlo_pvalue *)

(** The loop that derives [num_draws] from [ref_dd]. *)
Fixpoint ref_draws_loop (n : nat) (ref_dd : vec) (i : Z) (num_draws : Z)
  : outcome Z :=
  match n with
  | O => if i <=? vec_size ref_dd then Undefined else Returns num_draws
  | S n' =>
      x ← vec_get ref_dd (wrap32 (i - 1));
      let ref_dd_i := of_unsigned x in
      nd ← double_to_unsigned (of_unsigned num_draws + ref_dd_i * of_unsigned i)%float;
      ref_draws_loop n' ref_dd (wrap32 (i + 1)) nd
  end.

(** What one repetition adds to [score]. *)
Definition score_update (score log_probability_difference : double) : double :=
  if (abs log_probability_difference <? tie_tolerance)%float then (score + 0.5)%float
  else if (0 <? log_probability_difference)%float then (score + 1.0)%float
  else score.

(** The loop [for (unsigned rep = 0; rep < num_repeats; ++rep)] of
    [monte_carlo_pvalue]; the state is the drawer, [dd] and [score]. *)
Fixpoint pvalue_loop (n : nat) (num_balls num_draws : Z)
    (ref_dd_log_probability : double) (st : BallDrawer * vec * double)
  : outcome (BallDrawer * vec * double) :=
  match n with
  | O => Returns st
  | S n' =>
      let '(drawer, dd, score) := st in
      '(dd', drawer') ← draw_balls drawer dd num_draws;
      dd_log_probability ← calculate_log_probability dd' num_balls;
      let log_probability_difference :=
        (ref_dd_log_probability - dd_log_probability)%float in
      pvalue_loop n' num_balls num_draws ref_dd_log_probability
        (drawer', dd', score_update score log_probability_difference)
  end.

(** [double monte_carlo_pvalue(ref_dd, num_balls, num_repeats, seed)] *)
Definition monte_carlo_pvalue (ref_dd : vec) (num_balls num_repeats seed : Z)
  : outcome double :=
  let drawer := BallDrawer_new num_balls seed in
  ref_dd_log_probability ← calculate_log_probability ref_dd num_balls;
  num_draws ← ref_draws_loop (length ref_dd) ref_dd 1 0;
  let dd := vec_resize [] num_draws in
  '(_, _, score) ← pvalue_loop (Z.to_nat num_repeats) num_balls num_draws
                     ref_dd_log_probability (drawer, dd, 0%float);
  Returns (score / of_unsigned num_repeats)%float.

End MonteCarlo.

Arguments mkBallDrawer {mt19937} rgen dist_a dist_b.
Arguments rgen {mt19937} b.
Arguments dist_a {mt19937} b.
Arguments dist_b {mt19937} b.
Arguments BallDrawer_new {mt19937} mt19937_seed num_balls seed.
Arguments next_ball {mt19937} uniform_int d.
Arguments draw_step {mt19937} uniform_int st.
Arguments draw_loop {mt19937} uniform_int n st.
Arguments draw_balls {mt19937} uniform_int d dd num_draws.
Arguments monte_carlo_loop lgamma log {mt19937} uniform_int n num_balls num_draws st.
Arguments monte_carlo lgamma log {mt19937} mt19937_seed uniform_int
  num_balls num_draws num_repeats seed.
Arguments pvalue_loop lgamma log {mt19937} uniform_int n num_balls num_draws
  ref_dd_log_probability st.
Arguments monte_carlo_pvalue lgamma log {mt19937} mt19937_seed uniform_int
  ref_dd num_balls num_repeats seed.

(** ** What the specification says of a profile *)

(** [U]: the number of distinct items drawn, the sum of the entries. *)
Definition num_unique_of (dd : list Z) : Z := foldr Z.add 0 dd.

(** The sum of [m * dd[m - 1]] over the entries, the first of which has
    multiplicity [m]. *)
Fixpoint weighted_from (m : Z) (dd : list Z) : Z :=
  match dd with
  | [] => 0
  | x :: dd' => m * x + weighted_from (m + 1) dd'
  end.

(** [N]: the number of draws a profile stands for. *)
Definition num_draws_of (dd : list Z) : Z := weighted_from 1 dd.

(** The least index [bin] with [r < dd[0] + ... + dd[bin]]; the length of
    [dd] when there is none. *)
Fixpoint least_bin (dd : list Z) (r : Z) : nat :=
  match dd with
  | [] => O
  | x :: dd' => if r <? x then O else S (least_bin dd' (r - x))
  end.

(** One more item in group [b]; the profile grows by one position when [b]
    is its length. *)
Definition incr_bin (dd : list Z) (b : nat) : list Z :=
  if decide (b = length dd) then dd ++ [1] else alter (Z.add 1) b dd.

(** One item fewer in group [b]. *)
Definition decr_bin (dd : list Z) (b : nat) : list Z := alter (λ x, x - 1) b dd.

(** A draw step as the specification words it. *)
Definition draw_step_spec (dd : list Z) (r : Z) : list Z :=
  if num_unique_of dd <=? r then incr_bin dd O
  else let bin := least_bin dd r in incr_bin (decr_bin dd bin) (S bin).

(** The profiles the sampler goes through: no negative entry, and no more
    positions than draws. *)
Definition profile_ok (dd : list Z) : Prop :=
  Forall (λ x, 0 ≤ x) dd ∧ Z.of_nat (length dd) ≤ num_draws_of dd.

(** The contract of [std::uniform_int_distribution<unsigned>(a, b)]: for
    [a ≤ b] a draw lies in [[a, b]]. *)
Definition uniform_contract {S : Type} (uniform_int : Z → Z → S → Z * S) : Prop :=
  ∀ a b g, 0 ≤ a ≤ b → b < 2 ^ 32 → a ≤ (uniform_int a b g).1 ≤ b.

(** A run of calls of [draw_balls] on one drawer, each with the vector and
    the number of draws it is passed; the result is the profiles in order. *)
Fixpoint draw_calls {S : Type} (u : Z → Z → S → Z * S) (d : BallDrawer S)
    (calls : list (vec * Z)) : outcome (list vec * BallDrawer S) :=
  match calls with
  | [] => Returns ([], d)
  | (buf, n) :: calls' =>
      '(dd, d1) ← draw_balls u d buf n;
      '(dds, d2) ← draw_calls u d1 calls';
      Returns (dd :: dds, d2)
  end.

(** ** What the specification says of the stream of draws *)

(** The balls the next [n] draws of a drawer give, and the drawer after
    them. *)
Fixpoint next_balls {S : Type} (u : Z → Z → S → Z * S) (n : nat) (d : BallDrawer S)
  : list Z * BallDrawer S :=
  match n with
  | O => ([], d)
  | S n' =>
      let '(r, d1) := next_ball u d in
      let '(rs, d2) := next_balls u n' d1 in
      (r :: rs, d2)
  end.

(** The profile a run of balls leaves: the draw step of the specification,
    from the empty profile. *)
Definition profile_of_balls (balls : list Z) : list Z := foldl draw_step_spec [] balls.

(** The number of balls a history of draw counts takes from the stream. *)
Definition total_draws (Ns : list Z) : nat := foldr (λ N acc, Z.to_nat N + acc)%nat O Ns.

(** The profiles of a history of draw counts: each call takes the balls the
    stream gives next, as many as it draws. *)
Fixpoint profiles_of_stream (balls : list Z) (Ns : list Z) : list (list Z) :=
  match Ns with
  | [] => []
  | N :: Ns' =>
      profile_of_balls (take (Z.to_nat N) balls)
      :: profiles_of_stream (drop (Z.to_nat N) balls) Ns'
  end.

(** A small generator to run the model on. *)
Definition lcg_seed (seed : Z) : Z := seed.
Definition lcg_uniform_int (a b : Z) (g : Z) : Z * Z :=
  (a + g mod (b - a + 1), (g * 1103515245 + 12345) mod 2 ^ 31).

(** ** binary64 values of small integers *)

(** The number of bits of a positive number. *)
Definition digits (p : positive) : Z := Zpos (digits2_pos p).

(** The binary64 value [q * 2 ^ E], for a [q] of at most 53 bits. *)
Definition canon (q : positive) (E : Z) : spec_float :=
  S754_finite false (Z.to_pos (Zpos q * 2 ^ (53 - digits q))) (E - (53 - digits q)).

(** The binary64 value [h * 2 ^ E] for [0 ≤ h < 2 ^ 53]. *)
Definition dyadic (h E : Z) : spec_float :=
  match h with
  | Zpos q => canon q E
  | _ => S754_zero false
  end.

(** ** What the specification says of the log-probability *)

(** The binary64 value nearest to an integer. *)
Definition Z_to_double (z : Z) : double :=
  SF2Prim (binary_normalize prec emax z 0 false).

(** Neither an infinity nor a NaN. *)
Definition is_finite (x : double) : bool :=
  match Prim2SF x with
  | S754_zero _ | S754_finite _ _ _ => true
  | S754_infinity _ | S754_nan => false
  end.

Section Formula.

Variable lgamma : double → double.
Variable log : double → double.

(** The sum over [m] of [lgamma(1 + dd[m-1]) + dd[m-1] * lgamma(1 + m)],
    the terms added in increasing [m] to [acc]; the first entry of [dd] has
    multiplicity [m]. *)
Fixpoint log_denom_from (m : Z) (dd : list Z) (acc : double) : double :=
  match dd with
  | [] => acc
  | x :: dd' =>
      log_denom_from (m + 1) dd'
        (acc + (lgamma (Z_to_double (1 + x))
                + Z_to_double x * lgamma (Z_to_double (1 + m))))%float
  end.

(** [log P] as the specification gives it, with [N] and [U] the sums over
    the profile. *)
Definition log_probability_formula (dd : list Z) (M : Z) : double :=
  let N := num_draws_of dd in
  let U := num_unique_of dd in
  (lgamma (Z_to_double (1 + N))
   - log_denom_from 1 dd 0
   + lgamma (Z_to_double (1 + M))
   - lgamma (Z_to_double (1 + M - U))
   - Z_to_double N * log (Z_to_double M))%float.

(** What [calculate_log_probability] returns when it returns: the formula
    with the program's [unsigned] arithmetic. *)
Definition log_probability_returned (dd : list Z) (M : Z) : double :=
  let N := num_draws_of dd in
  let U := num_unique_of dd in
  (lgamma (of_unsigned (wrap32 (1 + N)))
   - log_denom_from 1 dd 0
   + lgamma (of_unsigned (wrap32 (1 + M)))
   - lgamma (of_unsigned (wrap32 (wrap32 (1 + M) - U)))
   - of_unsigned N * log (of_unsigned M))%float.

End Formula.

(** ** What the specification says of the p-value *)

(** What a trial adds to the accumulator. *)
Definition tie_contribution (ref_log_p sim_log_p : double) : double :=
  let diff := (ref_log_p - sim_log_p)%float in
  if (abs diff <? tie_tolerance)%float then 0.5%float
  else if (0 <? diff)%float then 1%float
  else 0%float.

Section Estimate.

Variable lgamma : double → double.
Variable log : double → double.
Variable mt19937 : Type.
Variable mt19937_seed : Z → mt19937.
Variable uniform_int : Z → Z → mt19937 → Z * mt19937.

(** The log-probabilities of [R] profiles drawn, [N] draws each, by one
    sampler seeded once. *)
Definition simulated_log_probabilities (M N R seed : Z) : outcome (list double) :=
  '(profiles, _) ← draw_calls uniform_int (BallDrawer_new mt19937_seed M seed)
                     (replicate (Z.to_nat R) ([], N));
  mapM (λ dd, calculate_log_probability lgamma log dd M) profiles.

(** [estimate_pvalue] as the specification words it. *)
Definition estimate_pvalue_spec (ref_profile : list Z) (M R seed : Z)
  : outcome double :=
  ref_log_p ← calculate_log_probability lgamma log ref_profile M;
  sims ← simulated_log_probabilities M (num_draws_of ref_profile) R seed;
  let accumulator :=
    foldl (λ acc sim_log_p, (acc + tie_contribution ref_log_p sim_log_p)%float)
      0%float sims in
  Returns (accumulator / of_unsigned R)%float.

End Estimate.
Arguments simulated_log_probabilities lgamma log {mt19937} mt19937_seed uniform_int
  M N R seed.
Arguments estimate_pvalue_spec lgamma log {mt19937} mt19937_seed uniform_int
  ref_profile M R seed.

(** Stand-ins for the two <cmath> functions, to run the model on. They take
    the values Annex F of the C standard fixes at the poles and zeros
    ([lgamma(1) = lgamma(2) = +0], [lgamma(+0) = +inf], [log(1) = +0],
    [log(+0) = -inf]) and are crude elsewhere. *)
Definition sample_lgamma (x : double) : double :=
  if (x =? 0)%float then infinity else (abs ((x - 1) * (x - 2)) / 2)%float.
Definition sample_log (x : double) : double :=
  if (x =? 0)%float then neg_infinity else (x - 1)%float.

(** ** Notions the further properties are stated with *)

(** No trailing zero: the last entry of a profile, when there is one, counts
    at least one item. *)
Definition no_trailing_zero (dd : list Z) : Prop :=
  ∀ x, last dd = Some x → 1 ≤ x.

(** The items a profile stands for, each by the number of times it was
    drawn, in increasing order: [dd[0]] items drawn [m] times, then [dd[1]]
    items drawn [m + 1] times, and so on. *)
Fixpoint items_from (m : nat) (dd : list Z) : list nat :=
  match dd with
  | [] => []
  | x :: dd' => replicate (Z.to_nat x) m ++ items_from (S m) dd'
  end.

Definition items_of (dd : list Z) : list nat := items_from 1 dd.

(** The only profile [N ≥ 1] draws from one item can give. *)
Definition single_item_profile (N : Z) : vec := replicate (Z.to_nat (N - 1)) 0 ++ [1].

(** Twice what the body of the loop of [monte_carlo_pvalue] adds to
    [score]: 1 where it adds 0.5, 2 where it adds 1.0, 0 where it adds
    nothing. *)
Definition trial_weight (ref_log_p sim_log_p : double) : Z :=
  let diff := (ref_log_p - sim_log_p)%float in
  if (abs diff <? tie_tolerance)%float then 1
  else if (0 <? diff)%float then 2
  else 0.

(** The weights of a run of trials, added up. *)
Definition total_weight (ref_log_p : double) (sims : list double) : Z :=
  foldr (λ sim acc, trial_weight ref_log_p sim + acc) 0 sims.

(** * Proofs *)

(** [Zbool_true t] and [Zbool_false t] settle a comparison [t] on [Z] that
    linear arithmetic decides. *)
Ltac Zbool_true t :=
  replace t with true
    by (symmetry; first [apply Z.ltb_lt | apply Z.leb_le | apply Z.eqb_eq]; lia).
Ltac Zbool_false t :=
  replace t with false
    by (symmetry; first [apply Z.ltb_ge | apply Z.leb_gt | apply Z.eqb_neq]; lia).

(** ** Sums over a profile *)

Lemma weighted_from_app m l1 l2 :
  weighted_from m (l1 ++ l2)
  = weighted_from m l1 + weighted_from (m + Z.of_nat (length l1)) l2.
Proof.
  revert m. induction l1 as [|x l1 IH]; intros m.
  - change (weighted_from m l2 = 0 + weighted_from (m + 0) l2).
    by rewrite Z.add_0_r.
  - change (m * x + weighted_from (m + 1) (l1 ++ l2)
            = m * x + weighted_from (m + 1) l1
              + weighted_from (m + Z.of_nat (S (length l1))) l2).
    rewrite IH. replace (m + 1 + Z.of_nat (length l1)) with (m + Z.of_nat (S (length l1))) by lia.
    lia.
Qed.

Lemma num_unique_of_app l1 l2 :
  num_unique_of (l1 ++ l2) = num_unique_of l1 + num_unique_of l2.
Proof. induction l1 as [|x l1 IH]; simpl; [done | rewrite IH; lia]. Qed.

Lemma weighted_from_alter f m l i x :
  l !! i = Some x →
  weighted_from m (alter f i l) = weighted_from m l + (m + Z.of_nat i) * (f x - x).
Proof.
  revert m i. induction l as [|y l IH]; intros m i Hi; [done|].
  destruct i as [|i]; simpl in *.
  - injection Hi as ->. lia.
  - pose proof (IH (m + 1) i Hi) as E.
    change (alter f i l) with (list_alter f i l) in E. rewrite E. lia.
Qed.

Lemma num_unique_of_alter f l i x :
  l !! i = Some x →
  num_unique_of (alter f i l) = num_unique_of l + (f x - x).
Proof.
  revert i. induction l as [|y l IH]; intros i Hi; [done|].
  destruct i as [|i]; simpl in *.
  - injection Hi as ->. lia.
  - pose proof (IH i Hi) as E.
    change (alter f i l) with (list_alter f i l) in E. rewrite E. lia.
Qed.

Lemma weighted_from_nonneg m l :
  0 ≤ m → Forall (λ x, 0 ≤ x) l → 0 ≤ weighted_from m l.
Proof.
  intros Hm Hl. revert m Hm. induction Hl as [|x l Hx Hl IH]; intros m Hm; simpl; [lia|].
  specialize (IH (m + 1) ltac:(lia)). nia.
Qed.

Lemma num_unique_of_nonneg l : Forall (λ x, 0 ≤ x) l → 0 ≤ num_unique_of l.
Proof. induction 1; simpl; lia. Qed.

Lemma num_unique_le_weighted m l :
  1 ≤ m → Forall (λ x, 0 ≤ x) l → num_unique_of l ≤ weighted_from m l.
Proof.
  intros Hm Hl. revert m Hm. induction Hl as [|x l Hx Hl IH]; intros m Hm; simpl; [lia|].
  specialize (IH (m + 1) ltac:(lia)). nia.
Qed.

Lemma entry_le_num_unique l i x :
  Forall (λ x, 0 ≤ x) l → l !! i = Some x → x ≤ num_unique_of l.
Proof.
  intros Hl. revert i. induction Hl as [|y l Hy Hl IH]; intros i Hi; [done|].
  destruct i as [|i]; simpl in *.
  - injection Hi as ->. pose proof (num_unique_of_nonneg l Hl). lia.
  - specialize (IH i Hi). lia.
Qed.

(** ** The bin a draw falls in *)

Lemma least_bin_le dd r : (least_bin dd r ≤ length dd)%nat.
Proof.
  revert r. induction dd as [|x dd IH]; intros r; simpl; [lia|].
  destruct (r <? x); [lia|]. specialize (IH (r - x)). lia.
Qed.

Lemma least_bin_miss dd r :
  Forall (λ x, 0 ≤ x) dd → 0 ≤ r →
  (least_bin dd r = length dd ↔ num_unique_of dd ≤ r).
Proof.
  intros Hdd. revert r. induction Hdd as [|x dd Hx Hdd IH]; intros r Hr; simpl.
  - split; [lia | done].
  - pose proof (num_unique_of_nonneg dd Hdd).
    destruct (Z.ltb_spec r x).
    + split; [done | lia].
    + specialize (IH (r - x) ltac:(lia)). split; intros; [|f_equal]; lia.
Qed.

Lemma least_bin_hit dd r :
  Forall (λ x, 0 ≤ x) dd → 0 ≤ r → r < num_unique_of dd →
  ∃ x, dd !! least_bin dd r = Some x ∧ 0 < x
       ∧ num_unique_of (take (least_bin dd r) dd) ≤ r
       ∧ r < num_unique_of (take (S (least_bin dd r)) dd).
Proof.
  intros Hdd. revert r. induction Hdd as [|x dd Hx Hdd IH]; intros r Hr HU; simpl in *.
  - lia.
  - destruct (Z.ltb_spec r x).
    + exists x. simpl. repeat split; try done; try lia; destruct dd; simpl; lia.
    + destruct (IH (r - x) ltac:(lia) ltac:(lia)) as (y & Hy & Hpos & Hlo & Hhi).
      exists y. simpl in *. repeat split; try done; lia.
Qed.

Lemma least_bin_least dd r j :
  Forall (λ x, 0 ≤ x) dd → (j < least_bin dd r)%nat →
  num_unique_of (take (S j) dd) ≤ r.
Proof.
  intros Hdd. revert r j. induction Hdd as [|x dd Hx Hdd IH]; intros r j Hj; simpl in *.
  - lia.
  - destruct (Z.ltb_spec r x); [lia|].
    destruct j as [|j]; simpl.
    + destruct dd; simpl; lia.
    + specialize (IH (r - x) j ltac:(lia)). simpl in IH. lia.
Qed.

Lemma wrap32_small z : 0 ≤ z < 2 ^ 32 → wrap32 z = z.
Proof. intros. unfold wrap32. by apply Z.mod_small. Qed.

Lemma vec_get_lookup (dd : vec) (i : nat) x :
  dd !! i = Some x → vec_get dd (Z.of_nat i) = Returns x.
Proof. intros H. unfold vec_get. by rewrite Nat2Z.id, H. Qed.

Lemma vec_set_lookup (dd : vec) (i : nat) x v :
  dd !! i = Some x → vec_set dd (Z.of_nat i) v = Returns (<[i := v]> dd).
Proof. intros H. unfold vec_set. by rewrite Nat2Z.id, H. Qed.

Lemma scan_bins_spec suf pre ball sum :
  Forall (λ x, 0 ≤ x) suf →
  sum = num_unique_of pre → 0 ≤ sum ≤ ball →
  sum + num_unique_of suf < 2 ^ 32 →
  Z.of_nat (length (pre ++ suf)) < 2 ^ 32 →
  scan_bins (length suf) (pre ++ suf) ball (Z.of_nat (length pre)) sum
  = Returns (Z.of_nat (length pre + least_bin suf (ball - sum))).
Proof.
  intros Hsuf. revert pre sum.
  induction Hsuf as [|x suf Hx Hsuf IH]; intros pre sum Hsum Hball HU Hlen.
  - cbn [length scan_bins least_bin]. unfold vec_size. rewrite app_nil_r.
    rewrite Z.ltb_irrefl. do 2 f_equal. lia.
  - pose proof (num_unique_of_nonneg suf Hsuf) as HUs.
    cbn [length scan_bins least_bin]. simpl in HU.
    rewrite (vec_get_lookup _ _ x) by (by apply list_lookup_middle).
    cbn [mbind outcome_bind]. rewrite (wrap32_small (sum + x)) by lia.
    destruct (Z.ltb_spec ball (sum + x)) as [Hlt|Hge].
    + Zbool_true (ball - sum <? x).
      do 2 f_equal. lia.
    + Zbool_false (ball - sum <? x).
      rewrite length_app in Hlen. simpl in Hlen.
      rewrite wrap32_small by lia.
      replace (Z.of_nat (length pre) + 1) with (Z.of_nat (length (pre ++ [x])))
        by (rewrite length_app; simpl; lia).
      rewrite (cons_middle x pre suf), (assoc_L (++)).
      rewrite IH.
      * do 2 f_equal. rewrite length_app. simpl.
        replace (ball - (sum + x)) with (ball - sum - x) by lia. lia.
      * rewrite num_unique_of_app. simpl. lia.
      * lia.
      * lia.
      * rewrite !length_app in *. simpl in *. lia.
Qed.

Lemma scan_bins_least_bin dd ball :
  Forall (λ x, 0 ≤ x) dd → 0 ≤ ball →
  num_unique_of dd < 2 ^ 32 → Z.of_nat (length dd) < 2 ^ 32 →
  scan_bins (length dd) dd ball 0 0 = Returns (Z.of_nat (least_bin dd ball)).
Proof.
  intros Hdd Hball HU Hlen.
  pose proof (scan_bins_spec dd [] ball 0 Hdd) as H. simpl in H.
  rewrite Z.sub_0_r in H. apply H; [done | lia | lia | done].
Qed.

Lemma entry_le_num_draws dd i x :
  Forall (λ x, 0 ≤ x) dd → dd !! i = Some x → x ≤ num_draws_of dd.
Proof.
  intros Hdd Hi. pose proof (entry_le_num_unique dd i x Hdd Hi).
  pose proof (num_unique_le_weighted 1 dd ltac:(lia) Hdd). unfold num_draws_of. lia.
Qed.

Lemma place_ball_spec dd ball :
  profile_ok dd → num_draws_of dd < 2 ^ 32 - 1 → 0 ≤ ball →
  place_ball dd ball = Returns (draw_step_spec dd ball).
Proof.
  intros [Hdd Hlen] HN Hball.
  pose proof (num_unique_le_weighted 1 dd ltac:(lia) Hdd) as HUN.
  fold (num_draws_of dd) in HUN.
  pose proof (num_unique_of_nonneg dd Hdd) as HU0.
  unfold place_ball, draw_step_spec.
  rewrite scan_bins_least_bin by (done || lia).
  cbn [mbind outcome_bind].
  pose proof (least_bin_le dd ball) as Hle.
  pose proof (least_bin_miss dd ball Hdd Hball) as Hmiss.
  unfold vec_size.
  destruct (Z.leb_spec (num_unique_of dd) ball) as [Hge|Hlt].
  - (* the draw hit a never-drawn item *)
    rewrite (proj2 Hmiss Hge), Z.eqb_refl. cbn [mbind outcome_bind].
    unfold incr_bin. destruct dd as [|x dd]; simpl.
    + reflexivity.
    + inversion Hdd as [|? ? Hx _]; subst.
      pose proof (entry_le_num_draws (x :: dd) 0 x Hdd eq_refl).
      rewrite wrap32_small by lia. by rewrite (Z.add_comm x 1).
  - (* the draw hit an item of group [least_bin dd ball] *)
    destruct (least_bin_hit dd ball Hdd Hball Hlt) as (x & Hx & Hpos & _ & _).
    set (b := least_bin dd ball) in *.
    assert (b < length dd)%nat as Hb by (by eapply lookup_lt_Some).
    Zbool_false (Z.of_nat b =? Z.of_nat (length dd)).
    rewrite (vec_get_lookup _ _ x Hx). cbn [mbind outcome_bind].
    rewrite (vec_set_lookup _ _ x _ Hx). cbn [mbind outcome_bind].
    pose proof (entry_le_num_draws dd b x Hdd Hx).
    rewrite (wrap32_small (x - 1)) by lia.
    rewrite (wrap32_small (Z.of_nat b + 1)) by lia.
    assert (decr_bin dd b = <[b := x - 1]> dd) as ->.
    { unfold decr_bin. apply list_eq. intros j.
      destruct (decide (j = b)) as [->|Hj].
      - rewrite list_lookup_alter_eq, Hx, list_lookup_insert_eq by done. done.
      - by rewrite list_lookup_alter_ne, list_lookup_insert_ne. }
    unfold incr_bin. rewrite !length_insert.
    replace (Z.of_nat b + 1) with (Z.of_nat (S b)) by lia.
    destruct (decide (S b = length dd)) as [HSb|HSb].
    + (* the profile is extended by one position *)
      rewrite <- HSb, Z.eqb_refl.
      rewrite (wrap32_small (Z.of_nat (S b) + 1)) by lia.
      replace (Z.of_nat (S b) + 1) with (Z.of_nat (S (S b))) by lia.
      unfold vec_resize. rewrite Nat2Z.id.
      rewrite resize_ge by (rewrite length_insert; lia).
      rewrite length_insert, <- HSb.
      replace (S (S b) - S b)%nat with 1%nat by lia. simpl replicate.
      unfold vec_get, vec_set. rewrite !Nat2Z.id.
      rewrite lookup_app_r by (rewrite length_insert; lia).
      rewrite length_insert, <- HSb, Nat.sub_diag. simpl.
      rewrite insert_app_r_alt by (rewrite length_insert; lia).
      by rewrite length_insert, <- HSb, Nat.sub_diag.
    + Zbool_false (Z.of_nat (S b) =? Z.of_nat (length dd)).
      destruct (lookup_lt_is_Some_2 dd (S b) ltac:(lia)) as [y Hy].
      assert (<[b := x - 1]> dd !! S b = Some y) as Hy'
        by (by rewrite list_lookup_insert_ne by lia).
      rewrite (vec_get_lookup _ _ y Hy'). cbn [mbind outcome_bind].
      rewrite (vec_set_lookup _ _ y _ Hy').
      pose proof (entry_le_num_draws dd (S b) y Hdd Hy).
      assert (0 ≤ y) by (by eapply (Forall_lookup_1 _ dd (S b) y)).
      rewrite wrap32_small by lia. f_equal.
      apply list_eq. intros j. destruct (decide (j = S b)) as [->|Hj].
      * rewrite list_lookup_alter_eq, Hy', list_lookup_insert_eq
          by (rewrite length_insert; lia).
        simpl. by rewrite (Z.add_comm y 1).
      * by rewrite list_lookup_alter_ne, list_lookup_insert_ne.
Qed.

(** ** What a draw step does to a profile *)

Lemma incr_bin_sums dd b :
  (b ≤ length dd)%nat →
  num_unique_of (incr_bin dd b) = num_unique_of dd + 1
  ∧ num_draws_of (incr_bin dd b) = num_draws_of dd + (Z.of_nat b + 1)
  ∧ length (incr_bin dd b) = (if decide (b = length dd) then S (length dd) else length dd).
Proof.
  intros Hb. unfold incr_bin, num_draws_of. destruct (decide (b = length dd)) as [->|Hne].
  - rewrite num_unique_of_app, weighted_from_app, length_app. simpl. lia.
  - destruct (lookup_lt_is_Some_2 dd b ltac:(lia)) as [x Hx].
    rewrite (num_unique_of_alter _ _ _ x Hx), (weighted_from_alter _ _ _ _ x Hx).
    rewrite length_alter. lia.
Qed.

Lemma incr_bin_lookup dd b :
  (b ≤ length dd)%nat →
  incr_bin dd b !! b = Some (default 0 (dd !! b) + 1)
  ∧ ∀ j, j ≠ b → incr_bin dd b !! j = dd !! j.
Proof.
  intros Hb. unfold incr_bin. destruct (decide (b = length dd)) as [->|Hne].
  - rewrite (lookup_ge_None_2 dd (length dd)) by lia. split.
    + rewrite lookup_app_r by lia. by rewrite Nat.sub_diag.
    + intros j Hj. destruct (decide (j < length dd)%nat).
      * by rewrite lookup_app_l.
      * rewrite (lookup_ge_None_2 dd j) by lia. apply lookup_ge_None_2.
        rewrite length_app. simpl. lia.
  - split.
    + destruct (lookup_lt_is_Some_2 dd b ltac:(lia)) as [x Hx].
      rewrite list_lookup_alter_eq, Hx. simpl. f_equal. lia.
    + intros j Hj. by apply list_lookup_alter_ne.
Qed.

Lemma decr_bin_lookup dd b :
  decr_bin dd b !! b = (λ x, x - 1) <$> dd !! b
  ∧ ∀ j, j ≠ b → decr_bin dd b !! j = dd !! j.
Proof.
  unfold decr_bin. split; [apply list_lookup_alter_eq|].
  intros j Hj. by apply list_lookup_alter_ne.
Qed.

Lemma incr_bin_nonneg dd b :
  Forall (λ x, 0 ≤ x) dd → Forall (λ x, 0 ≤ x) (incr_bin dd b).
Proof.
  intros Hdd. unfold incr_bin. destruct (decide (b = length dd)).
  - apply Forall_app. split; [done|]. repeat constructor. lia.
  - apply Forall_alter; [done|]. intros; lia.
Qed.

Lemma draw_step_spec_sums dd r :
  Forall (λ x, 0 ≤ x) dd → 0 ≤ r →
  Forall (λ x, 0 ≤ x) (draw_step_spec dd r)
  ∧ num_draws_of (draw_step_spec dd r) = num_draws_of dd + 1
  ∧ num_unique_of (draw_step_spec dd r)
    = (if num_unique_of dd <=? r then num_unique_of dd + 1 else num_unique_of dd)
  ∧ (length (draw_step_spec dd r) ≤ S (length dd))%nat.
Proof.
  intros Hdd Hr. unfold draw_step_spec.
  destruct (Z.leb_spec (num_unique_of dd) r) as [Hge|Hlt].
  - destruct (incr_bin_sums dd 0 ltac:(lia)) as (HU & HN & HL).
    split; [by apply incr_bin_nonneg|]. rewrite HU, HN, HL.
    repeat split; try lia. destruct (decide (0%nat = length dd)); lia.
  - destruct (least_bin_hit dd r Hdd Hr Hlt) as (x & Hx & Hpos & _ & _).
    set (b := least_bin dd r) in *.
    assert (b < length dd)%nat as Hb by (by eapply lookup_lt_Some).
    assert (length (decr_bin dd b) = length dd) as Hlen by apply length_alter.
    destruct (incr_bin_sums (decr_bin dd b) (S b) ltac:(lia)) as (HU & HN & HL).
    rewrite HU, HN, HL, Hlen. unfold decr_bin, num_draws_of in *.
    rewrite (num_unique_of_alter _ _ _ x Hx), (weighted_from_alter _ _ _ _ x Hx).
    split; [|repeat split; try lia].
    + apply incr_bin_nonneg. apply Forall_alter; [done|].
      intros y Hy. rewrite Hx in Hy. injection Hy as <-. lia.
    + destruct (decide (S b = length dd)); lia.
Qed.

Lemma draw_step_spec_ok dd r :
  profile_ok dd → 0 ≤ r → profile_ok (draw_step_spec dd r).
Proof.
  intros [Hdd Hlen] Hr.
  destruct (draw_step_spec_sums dd r Hdd Hr) as (Hnn & HN & _ & HL).
  split; [done|]. lia.
Qed.

Lemma wrap32_range z : 0 ≤ wrap32 z < 2 ^ 32.
Proof. unfold wrap32. apply Z.mod_pos_bound. lia. Qed.

(** ** The draw loop *)

Lemma draw_loop_add {S : Type} (u : Z → Z → S → Z * S) n m st :
  draw_loop u (n + m) st = draw_loop u n st ≫= draw_loop u m.
Proof.
  revert st. induction n as [|n IH]; intros st; [done|].
  cbn [Nat.add draw_loop]. destruct (draw_step u st) as [st'| |]; [|done..].
  cbn [mbind outcome_bind]. apply IH.
Qed.

Lemma draw_step_returns {S : Type} (u : Z → Z → S → Z * S) dd d :
  profile_ok dd → num_draws_of dd < 2 ^ 32 - 1 →
  draw_step u (dd, d)
  = Returns (draw_step_spec dd (next_ball u d).1, (next_ball u d).2).
Proof.
  intros Hok HN. unfold draw_step.
  destruct (next_ball u d) as [ball d'] eqn:Hnext. simpl.
  assert (0 ≤ ball).
  { unfold next_ball in Hnext. destruct (u _ _ _) as [r g].
    injection Hnext as <- _. apply wrap32_range. }
  by rewrite place_ball_spec.
Qed.

Lemma draw_loop_returns {S : Type} (u : Z → Z → S → Z * S) n dd d :
  profile_ok dd → num_draws_of dd + Z.of_nat n < 2 ^ 32 →
  ∃ dd' d',
    draw_loop u n (dd, d) = Returns (dd', d')
    ∧ profile_ok dd'
    ∧ num_draws_of dd' = num_draws_of dd + Z.of_nat n
    ∧ dist_a d' = dist_a d ∧ dist_b d' = dist_b d.
Proof.
  revert dd d. induction n as [|n IH]; intros dd d Hok HN.
  - exists dd, d. simpl. split; [done|]. split; [done|]. split; [lia | done].
  - cbn [draw_loop]. rewrite draw_step_returns by (done || lia).
    cbn [mbind outcome_bind].
    set (r := (next_ball u d).1). set (d1 := (next_ball u d).2).
    assert (0 ≤ r) as Hr.
    { unfold r, next_ball. destruct (u _ _ _). apply wrap32_range. }
    destruct Hok as [Hdd Hlen].
    destruct (draw_step_spec_sums dd r Hdd Hr) as (Hnn & HN1 & _ & HL).
    destruct (IH (draw_step_spec dd r) d1) as (dd' & d' & Hrun & Hok' & HN' & Ha & Hb).
    { split; [done | lia]. }
    { lia. }
    exists dd', d'. split; [done|]. split; [done|]. split; [lia|].
    rewrite Ha, Hb. unfold d1, next_ball. by destruct (u _ _ _).
Qed.

Lemma profile_ok_nil : profile_ok [].
Proof. split; [constructor | done]. Qed.

Lemma lcg_uniform_int_contract : uniform_contract lcg_uniform_int.
Proof.
  intros a b g Hab Hb. unfold lcg_uniform_int. simpl.
  pose proof (Z.mod_pos_bound g (b - a + 1) ltac:(lia)). lia.
Qed.

Section SamplerProofs.

Variable mt19937 : Type.
Variable mt19937_seed : Z → mt19937.
Variable uniform_int : Z → Z → mt19937 → Z * mt19937.

Lemma next_ball_contract (d : BallDrawer mt19937) :
  uniform_contract uniform_int → 0 ≤ dist_a d ≤ dist_b d → dist_b d < 2 ^ 32 →
  dist_a d ≤ (next_ball uniform_int d).1 ≤ dist_b d.
Proof.
  intros Hu Hab Hb. specialize (Hu (dist_a d) (dist_b d) (rgen d) Hab Hb).
  unfold next_ball. destruct (uniform_int _ _ _) as [r g]. simpl in *.
  rewrite wrap32_small; lia.
Qed.

Lemma draw_loop_unique_bound n dd (d : BallDrawer mt19937) M :
  uniform_contract uniform_int →
  dist_a d = 0 → dist_b d = M - 1 → 1 ≤ M ≤ 2 ^ 32 →
  profile_ok dd → num_draws_of dd + Z.of_nat n < 2 ^ 32 →
  num_unique_of dd ≤ M →
  ∀ dd' d', draw_loop uniform_int n (dd, d) = Returns (dd', d') →
            num_unique_of dd' ≤ M.
Proof.
  intros Hu. revert dd d. induction n as [|n IH]; intros dd d Ha Hb HM Hok HN HU dd' d' Hrun.
  - simpl in Hrun. by injection Hrun as <- _.
  - cbn [draw_loop] in Hrun. rewrite draw_step_returns in Hrun by (done || lia).
    cbn [mbind outcome_bind] in Hrun.
    pose proof (next_ball_contract d Hu ltac:(lia) ltac:(lia)) as Hr.
    destruct Hok as [Hdd Hlen].
    destruct (draw_step_spec_sums dd (next_ball uniform_int d).1 Hdd ltac:(lia))
      as (Hnn & HN1 & HU1 & HL).
    eapply (IH _ _ _ _ HM _ _ _ dd' d' Hrun).
    Unshelve.
    + unfold next_ball. destruct (uniform_int _ _ _). simpl. done.
    + unfold next_ball. destruct (uniform_int _ _ _). simpl. done.
    + split; [done | lia].
    + lia.
    + rewrite HU1. destruct (Z.leb_spec (num_unique_of dd) (next_ball uniform_int d).1); lia.
Qed.

(** C2: for every [M ≥ 1], every [N ≥ 0] and every seed, the profile [dd]
    that [draw_balls] leaves for a drawer built from [(M, seed)] has
    [Σ m·dd[m-1] = N] and [Σ dd[m-1] ≤ M], whatever the vector passed in
    held. *)
Theorem draw_balls_conservation (M N seed : Z) (dd0 : vec) :
  uniform_contract uniform_int →
  1 ≤ M < 2 ^ 32 → 0 ≤ N < 2 ^ 32 →
  ∃ dd d',
    draw_balls uniform_int (BallDrawer_new mt19937_seed M seed) dd0 N = Returns (dd, d')
    ∧ num_draws_of dd = N
    ∧ num_unique_of dd ≤ M.
Proof.
  intros Hu HM HN. unfold draw_balls.
  set (d := BallDrawer_new mt19937_seed M seed).
  destruct (draw_loop_returns uniform_int (Z.to_nat N) [] d profile_ok_nil)
    as (dd & d' & Hrun & Hok & HNdd & _).
  { unfold num_draws_of. simpl. lia. }
  exists dd, d'. split; [done|]. split.
  - rewrite HNdd. unfold num_draws_of. simpl. lia.
  - assert (dist_b d = M - 1) as Hb
      by (unfold d, BallDrawer_new; simpl; rewrite wrap32_small; lia).
    assert (num_draws_of [] + Z.of_nat (Z.to_nat N) < 2 ^ 32) as HN0
      by (unfold num_draws_of; simpl; lia).
    assert (num_unique_of [] ≤ M) as HU0 by (simpl; lia).
    exact (draw_loop_unique_bound (Z.to_nat N) [] d M Hu eq_refl Hb ltac:(lia)
             profile_ok_nil HN0 HU0 dd d' Hrun).
Qed.

(** C10: for every [M] (so for every [M ≥ 1]) and every [N ≥ 0], no
    [operator[]] of [draw_balls] is out of bounds, whatever the generator
    draws: the call returns, where an access past the end would make it
    [Undefined]. *)
Theorem draw_balls_in_bounds (M N seed : Z) (dd0 : vec) :
  0 ≤ N < 2 ^ 32 →
  returns (draw_balls uniform_int (BallDrawer_new mt19937_seed M seed) dd0 N).
Proof.
  intros HN. unfold draw_balls.
  destruct (draw_loop_returns uniform_int (Z.to_nat N) []
              (BallDrawer_new mt19937_seed M seed) profile_ok_nil)
    as (dd & d' & Hrun & _).
  { unfold num_draws_of. simpl. lia. }
  by exists (dd, d').
Qed.

(** C3: the draw step number [k + 1] of [draw_balls] takes the profile
    [dd] reached after [k] steps to [draw_step_spec dd r], [r] being the
    value drawn: when [r ≥ U] one item is added to the first group and
    nothing is taken away; otherwise, with [bin] the least index such that
    [r < dd[0] + ... + dd[bin]], one item leaves group [bin] and joins group
    [bin + 1], the profile growing by one position when [bin + 1] is its
    length. *)
Theorem draw_step_as_specified (M N seed : Z) (k : nat) :
  0 ≤ N < 2 ^ 32 → (k < Z.to_nat N)%nat →
  let start : vec * BallDrawer mt19937 := ([], BallDrawer_new mt19937_seed M seed) in
  ∃ dd d,
    draw_loop uniform_int k start = Returns (dd, d)
    ∧ let r := (next_ball uniform_int d).1 in
      draw_loop uniform_int (S k) start
      = Returns (draw_step_spec dd r, (next_ball uniform_int d).2)
      ∧ (num_unique_of dd ≤ r → draw_step_spec dd r = incr_bin dd 0)
      ∧ (r < num_unique_of dd →
         ∃ bin x,
           dd !! bin = Some x ∧ 0 < x
           ∧ r < num_unique_of (take (S bin) dd)
           ∧ (∀ j, (j < bin)%nat → num_unique_of (take (S j) dd) ≤ r)
           ∧ draw_step_spec dd r = incr_bin (decr_bin dd bin) (S bin)).
Proof.
  intros HN Hk start.
  destruct (draw_loop_returns uniform_int k [] (BallDrawer_new mt19937_seed M seed)
              profile_ok_nil)
    as (dd & d & Hrun & Hok & HNdd & _).
  { unfold num_draws_of. simpl. lia. }
  exists dd, d. split; [done|]. intros r.
  assert (0 ≤ r) as Hr.
  { unfold r, next_ball. destruct (uniform_int _ _ _). apply wrap32_range. }
  split; [|split].
  - replace (S k) with (k + 1)%nat by lia.
    rewrite draw_loop_add. unfold start. rewrite Hrun. cbn [mbind outcome_bind draw_loop].
    rewrite draw_step_returns; [done | done |].
    rewrite HNdd. unfold num_draws_of. simpl. lia.
  - intros HU. unfold draw_step_spec.
    by destruct (Z.leb_spec (num_unique_of dd) r); [|lia].
  - intros HU. destruct Hok as [Hdd _].
    destruct (least_bin_hit dd r Hdd Hr HU) as (x & Hx & Hpos & _ & Hhi).
    exists (least_bin dd r), x. split; [done|]. split; [done|]. split; [done|].
    split; [intros j Hj; by apply least_bin_least|].
    unfold draw_step_spec.
    by destruct (Z.leb_spec (num_unique_of dd) r); [lia|].
Qed.

End SamplerProofs.

(** ** binary64 arithmetic: rounding *)

Lemma digits2_pos_size p : digits2_pos p = Pos.size p.
Proof. induction p; simpl; congruence. Qed.

Lemma digits_log2 p : digits p = Z.log2 (Zpos p) + 1.
Proof.
  unfold digits. destruct p; simpl; rewrite ?digits2_pos_size; lia.
Qed.

Lemma digits_pos p : 1 ≤ digits p.
Proof. unfold digits. lia. Qed.

Lemma digits_bounds p : 2 ^ (digits p - 1) ≤ Zpos p < 2 ^ digits p.
Proof.
  rewrite digits_log2. replace (Z.log2 (Zpos p) + 1 - 1) with (Z.log2 (Zpos p)) by lia.
  apply (Z.log2_spec (Zpos p)). lia.
Qed.

Lemma digits_unique p d : 2 ^ (d - 1) ≤ Zpos p < 2 ^ d → digits p = d.
Proof.
  intros H. rewrite digits_log2.
  assert (0 ≤ d - 1).
  { destruct (Z.lt_ge_cases (d - 1) 0) as [Hneg|]; [|done].
    assert (d ≤ 0) by lia. 
    assert (2 ^ d ≤ 2 ^ 0) by (apply Z.pow_le_mono_r; lia).
    simpl in *. lia. }
  rewrite (Z.log2_unique (Zpos p) (d - 1)); [lia | done |].
  replace (Z.succ (d - 1)) with d by lia. done.
Qed.

Lemma digits_mul_pow2 p q k :
  0 ≤ k → Zpos p = Zpos q * 2 ^ k → digits p = digits q + k.
Proof.
  intros Hk Hp. rewrite !digits_log2, Hp, Z.log2_mul_pow2 by lia. lia.
Qed.

Lemma digits_le_iff p d : 0 ≤ d → digits p ≤ d ↔ Zpos p < 2 ^ d.
Proof.
  intros Hd. pose proof (digits_bounds p) as [Hlo Hhi]. pose proof (digits_pos p). split.
  - intros Hle. eapply Z.lt_le_trans; [exact Hhi|]. apply Z.pow_le_mono_r; lia.
  - intros Hlt. destruct (Z.le_gt_cases (digits p) d) as [|Hgt]; [done|].
    assert (2 ^ d ≤ 2 ^ (digits p - 1)) by (apply Z.pow_le_mono_r; lia). lia.
Qed.

(** shifting right *)

Lemma iter_pos_nat {A} (f : A → A) n x : SpecFloat.iter_pos f n x = Nat.iter (Pos.to_nat n) f x.
Proof.
  revert x. induction n as [n IH|n IH|]; intros x; cbn [SpecFloat.iter_pos].
  - rewrite !IH, Pos2Nat.inj_xI.
    replace (S (2 * Pos.to_nat n)) with (Pos.to_nat n + S (Pos.to_nat n))%nat by lia.
    by rewrite Nat.iter_add, Nat.iter_succ_r.
  - rewrite !IH, Pos2Nat.inj_xO.
    replace (2 * Pos.to_nat n)%nat with (Pos.to_nat n + Pos.to_nat n)%nat by lia.
    by rewrite Nat.iter_add.
  - done.
Qed.

Lemma shr_1_even m : 0 < m →
  shr_1 (Build_shr_record (2 * m) false false) = Build_shr_record m false false.
Proof. intros Hm. destruct m; try lia. done. Qed.

Lemma shr_exact_nat k m : 0 < m →
  Nat.iter k shr_1 (Build_shr_record (m * 2 ^ Z.of_nat k) false false)
  = Build_shr_record m false false.
Proof.
  intros Hm. induction k as [|k IH].
  - simpl. by rewrite Z.mul_1_r.
  - rewrite Nat.iter_succ_r.
    replace (m * 2 ^ Z.of_nat (S k)) with (2 * (m * 2 ^ Z.of_nat k)).
    + rewrite shr_1_even; [done|]. apply Z.mul_pos_pos; [done|]. apply Z.pow_pos_nonneg; lia.
    + rewrite Nat2Z.inj_succ, Z.pow_succ_r by lia. lia.
Qed.

Lemma shr_exact m e n : 0 < m → 0 ≤ n →
  shr (Build_shr_record (m * 2 ^ n) false false) e n
  = (Build_shr_record m false false, e + n).
Proof.
  intros Hm Hn. unfold shr. destruct n as [|n|n]; try lia.
  - by rewrite Z.mul_1_r, Z.add_0_r.
  - rewrite iter_pos_nat. f_equal.
    rewrite <- (positive_nat_Z n). apply shr_exact_nat. done.
Qed.

Lemma fexp_normal d : -1074 ≤ d - 53 → fexp prec emax d = d - 53.
Proof. intros H. unfold fexp, SpecFloat.emin, prec, emax. lia. Qed.

Lemma bra_normal m e :
  digits m = 53 → -1074 ≤ e ≤ 971 →
  binary_round_aux prec emax false (Zpos m) e loc_Exact = S754_finite false m e.
Proof.
  intros Hd He. unfold digits in Hd.
  assert (fexp prec emax (Zdigits2 (Zpos m) + e) - e = 0) as Hf.
  { simpl Zdigits2. rewrite fexp_normal; lia. }
  unfold binary_round_aux, shr_fexp. rewrite Hf.
  cbn [shr shr_record_of_loc shr_m loc_of_shr_record round_nearest_even].
  rewrite Hf. cbn [shr shr_record_of_loc shr_m].
  replace (e <=? emax - prec) with true; [done|].
  symmetry. apply Z.leb_le. unfold emax, prec. lia.
Qed.

Lemma bra_shift p m n e :
  0 < n → Zpos p = Zpos m * 2 ^ n → digits m = 53 → -1074 ≤ e → e + n ≤ 971 →
  binary_round_aux prec emax false (Zpos p) e loc_Exact = S754_finite false m (e + n).
Proof.
  intros Hn Hp Hd He1 He2.
  pose proof (digits_mul_pow2 p m n ltac:(lia) Hp) as Hdp. unfold digits in Hd, Hdp.
  assert (fexp prec emax (Zdigits2 (Zpos p) + e) - e = n) as Hf.
  { simpl Zdigits2. rewrite fexp_normal; lia. }
  assert (fexp prec emax (Zdigits2 (Zpos m) + (e + n)) - (e + n) = 0) as Hf'.
  { simpl Zdigits2. rewrite fexp_normal; lia. }
  unfold binary_round_aux, shr_fexp. rewrite Hf. cbn [shr_record_of_loc].
  rewrite Hp, shr_exact by lia.
  cbn [shr_m loc_of_shr_record round_nearest_even]. rewrite Hf'.
  cbn [shr shr_record_of_loc shr_m].
  replace (e + n <=? emax - prec) with true; [done|].
  symmetry. apply Z.leb_le. unfold emax, prec. lia.
Qed.

Lemma canon_mantissa q :
  digits q ≤ 53 →
  Zpos (Z.to_pos (Zpos q * 2 ^ (53 - digits q))) = Zpos q * 2 ^ (53 - digits q)
  ∧ digits (Z.to_pos (Zpos q * 2 ^ (53 - digits q))) = 53.
Proof.
  intros Hq.
  assert (0 < Zpos q * 2 ^ (53 - digits q)) as Hpos.
  { apply Z.mul_pos_pos; [lia|]. apply Z.pow_pos_nonneg; lia. }
  assert (Zpos (Z.to_pos (Zpos q * 2 ^ (53 - digits q))) = Zpos q * 2 ^ (53 - digits q)) as E
    by (rewrite Z2Pos.id; lia).
  split; [done|].
  rewrite (digits_mul_pow2 _ q (53 - digits q)); [lia | lia | done].
Qed.

Lemma bra_exact p q k e :
  0 ≤ k → Zpos p = Zpos q * 2 ^ k → digits q ≤ 53 → 53 ≤ digits q + k →
  -1074 ≤ e → e + k ≤ 971 →
  binary_round_aux prec emax false (Zpos p) e loc_Exact = canon q (e + k).
Proof.
  intros Hk Hp Hq Hqk He1 He2. unfold canon.
  destruct (canon_mantissa q Hq) as [Hm Hdm].
  set (m := Z.to_pos (Zpos q * 2 ^ (53 - digits q))) in *.
  pose proof (digits_pos q).
  assert (Zpos p = Zpos m * 2 ^ (digits q + k - 53)) as Hpm.
  { rewrite Hp, Hm, <- Z.mul_assoc, <- Z.pow_add_r by lia. do 2 f_equal. lia. }
  destruct (Z.eq_dec (digits q + k) 53) as [Heq|Hne].
  - replace (digits q + k - 53) with 0 in Hpm by lia.
    rewrite Z.mul_1_r in Hpm. injection Hpm as ->.
    rewrite bra_normal by (done || lia). f_equal. lia.
  - rewrite (bra_shift p m (digits q + k - 53)) by (done || lia). f_equal. lia.
Qed.

Lemma shift_pos_Z m d : Zpos (Pos.iter xO m d) = Zpos m * 2 ^ Zpos d.
Proof.
  change (Pos.iter xO m d) with (shift_pos d m).
  rewrite shift_pos_correct, Zpower_pos_nat, Zpower_nat_Z, positive_nat_Z. lia.
Qed.

Lemma shl_align_fst m e e' :
  e' ≤ e →
  Zpos (shl_align m e e').1 = Zpos m * 2 ^ (e - e')
  ∧ (shl_align m e e').2 = e'.
Proof.
  intros He. unfold shl_align. destruct (e' - e) as [|d|d] eqn:Hd; try lia; simpl.
  - replace (e - e') with 0 by lia. split; lia.
  - rewrite shift_pos_Z. replace (e - e') with (Zpos d) by lia. done.
Qed.

Lemma binary_round_exact p q k e :
  0 ≤ k → Zpos p = Zpos q * 2 ^ k → digits q ≤ 53 →
  -1000 ≤ e → e + k ≤ 971 →
  binary_round prec emax false p e = canon q (e + k).
Proof.
  intros Hk Hp Hq He1 He2.
  pose proof (digits_pos q).
  pose proof (digits_mul_pow2 p q k Hk Hp) as Hdp.
  unfold binary_round.
  assert (fexp prec emax (Zpos (digits2_pos p) + e) = digits q + k + e - 53) as Hf.
  { fold (digits p). rewrite Hdp, fexp_normal; lia. }
  rewrite Hf.
  destruct (Z.le_gt_cases 53 (digits q + k)) as [Hge|Hlt].
  - (* no shift to the left *)
    assert (shl_align p e (digits q + k + e - 53) = (p, e)) as ->.
    { unfold shl_align. destruct (digits q + k + e - 53 - e) eqn:Hd; try done; lia. }
    apply bra_exact; try done; lia.
  - destruct (shl_align_fst p e (digits q + k + e - 53) ltac:(lia)) as [Hfst Hsnd].
    destruct (shl_align p e (digits q + k + e - 53)) as [mz ez]. simpl in Hfst, Hsnd.
    subst ez.
    rewrite (bra_exact mz q (53 - digits q) _); try done; try lia.
    + f_equal. lia.
    + rewrite Hfst, Hp, <- Z.mul_assoc, <- Z.pow_add_r by lia. do 2 f_equal. lia.
Qed.

Lemma canon_add x y E :
  Zpos x + Zpos y < 2 ^ 53 → -900 ≤ E ≤ 900 →
  SFadd prec emax (canon x E) (canon y E) = canon (x + y) E.
Proof.
  intros Hxy HE.
  assert (digits x ≤ 53) as Hx by (apply digits_le_iff; lia).
  assert (digits y ≤ 53) as Hy by (apply digits_le_iff; lia).
  assert (digits (x + y) ≤ 53) as Hs by (apply digits_le_iff; lia).
  pose proof (digits_pos x). pose proof (digits_pos y).
  destruct (canon_mantissa x Hx) as [Hmx _]. destruct (canon_mantissa y Hy) as [Hmy _].
  unfold canon at 1 2. cbn [SFadd].
  set (mx := Z.to_pos (Zpos x * 2 ^ (53 - digits x))) in *.
  set (my := Z.to_pos (Zpos y * 2 ^ (53 - digits y))) in *.
  set (ex := E - (53 - digits x)). set (ey := E - (53 - digits y)).
  set (ez := Z.min ex ey).
  destruct (shl_align_fst mx ex ez ltac:(lia)) as [Ha _].
  destruct (shl_align_fst my ey ez ltac:(lia)) as [Hb _].
  set (a := (shl_align mx ex ez).1) in *. set (b := (shl_align my ey ez).1) in *.
  cbn [cond_Zopp]. change (Z.pos a + Z.pos b) with (Z.pos (a + b)).
  cbn [binary_normalize].
  rewrite (binary_round_exact (a + b) (x + y) (E - ez) ez); try lia.
  - f_equal. lia.
  - rewrite !Pos2Z.inj_add, Ha, Hb, Hmx, Hmy, Z.mul_add_distr_r.
    rewrite <- !Z.mul_assoc, <- !Z.pow_add_r by lia.
    f_equal; do 2 f_equal; lia.
Qed.

Lemma dyadic_add a b E :
  0 ≤ a → 0 ≤ b → a + b < 2 ^ 53 → -900 ≤ E ≤ 900 →
  SF64add (dyadic a E) (dyadic b E) = dyadic (a + b) E.
Proof.
  intros Ha Hb Hab HE. unfold SF64add.
  destruct a as [|x|x], b as [|y|y]; try lia; try done.
  simpl dyadic. by apply canon_add.
Qed.

Lemma canon_mul x y :
  Zpos x * Zpos y < 2 ^ 53 →
  SFmul prec emax (canon x 0) (canon y 0) = canon (x * y) 0.
Proof.
  intros Hxy.
  assert (digits (x * y) ≤ 53) as Hs by (apply digits_le_iff; lia).
  assert (digits x ≤ 53) as Hx by (apply digits_le_iff; nia).
  assert (digits y ≤ 53) as Hy by (apply digits_le_iff; nia).
  pose proof (digits_pos x). pose proof (digits_pos y). pose proof (digits_pos (x * y)).
  destruct (canon_mantissa x Hx) as [Hmx _]. destruct (canon_mantissa y Hy) as [Hmy _].
  unfold canon at 1 2. cbn [SFmul xorb].
  set (mx := Z.to_pos (Zpos x * 2 ^ (53 - digits x))) in *.
  set (my := Z.to_pos (Zpos y * 2 ^ (53 - digits y))) in *.
  rewrite (bra_exact (mx * my) (x * y) (53 - digits x + (53 - digits y))); try lia.
  - f_equal. lia.
  - rewrite !Pos2Z.inj_mul, Hmx, Hmy, Z.pow_add_r by lia. lia.
  - (* the product has at least as many bits as the longer factor *)
    pose proof (digits_bounds x) as [Hlx _]. pose proof (digits_bounds y) as [Hly _].
    pose proof (digits_bounds (x * y)) as [_ Hhxy].
    assert (2 ^ (digits x - 1 + (digits y - 1)) < 2 ^ digits (x * y)) as Hlt.
    { rewrite Z.pow_add_r by lia. rewrite Pos2Z.inj_mul in Hhxy.
      assert (0 < 2 ^ (digits x - 1)) by (apply Z.pow_pos_nonneg; lia).
      assert (0 < 2 ^ (digits y - 1)) by (apply Z.pow_pos_nonneg; lia).
      nia. }
    apply Z.pow_lt_mono_r_iff in Hlt; lia.
Qed.

Lemma dyadic_mul a b :
  0 ≤ a → 0 ≤ b → a * b < 2 ^ 53 →
  SF64mul (dyadic a 0) (dyadic b 0) = dyadic (a * b) 0.
Proof.
  intros Ha Hb Hab. unfold SF64mul.
  destruct a as [|x|x], b as [|y|y]; try lia; try done.
  simpl dyadic. by apply canon_mul.
Qed.

Lemma canon_double q E : digits q ≤ 52 → canon (q~0) (E - 1) = canon q E.
Proof.
  intros Hq. unfold canon. pose proof (digits_pos q).
  assert (digits (q~0) = digits q + 1) as -> by (unfold digits; simpl; lia).
  f_equal; [|lia]. f_equal.
  replace (53 - digits q) with (53 - (digits q + 1) + 1) by lia.
  rewrite (Z.pow_add_r _ _ 1) by lia. lia.
Qed.

Lemma dyadic_double h E : 0 ≤ h < 2 ^ 52 → dyadic (2 * h) (E - 1) = dyadic h E.
Proof.
  intros Hh. destruct h as [|q|q]; try lia; try done.
  simpl. apply canon_double. apply digits_le_iff; lia.
Qed.

(** What the rounding of an inexact mantissa can give *)

Lemma shr_1_m mrs : 0 ≤ shr_m mrs → shr_m (shr_1 mrs) = shr_m mrs / 2.
Proof.
  destruct mrs as [m r s]. cbn [shr_m]. intros Hm.
  destruct m as [|[p|p|]|p]; try lia; cbn [shr_1 shr_m].
  - done.
  - apply (Z.div_unique _ _ _ 1); lia.
  - apply (Z.div_unique _ _ _ 0); lia.
  - done.
Qed.

Lemma shr_m_iter k mrs :
  0 ≤ shr_m mrs → shr_m (Nat.iter k shr_1 mrs) = shr_m mrs / 2 ^ Z.of_nat k.
Proof.
  intros Hm. induction k as [|k IH].
  - simpl. by rewrite Z.div_1_r.
  - rewrite Nat.iter_succ, shr_1_m.
    + rewrite IH, Z.div_div by (try apply Z.pow_pos_nonneg; lia).
      f_equal. rewrite Nat2Z.inj_succ, Z.pow_succ_r by lia. lia.
    + rewrite IH. apply Z.div_pos; [done|]. apply Z.pow_pos_nonneg; lia.
Qed.

Lemma shr_m_shr m l e n :
  0 ≤ m → 0 ≤ n →
  shr_m (shr (shr_record_of_loc m l) e n).1 = m / 2 ^ n
  ∧ (shr (shr_record_of_loc m l) e n).2 = e + n.
Proof.
  intros Hm Hn.
  assert (shr_m (shr_record_of_loc m l) = m) as Hrec by (by destruct l as [|[]]).
  unfold shr. destruct n as [|n|n]; try lia; simpl.
  - rewrite Hrec, Z.div_1_r. split; [done | lia].
  - rewrite iter_pos_nat, shr_m_iter, Hrec, positive_nat_Z by (rewrite Hrec; lia). done.
Qed.

Lemma round_nearest_even_cases m l :
  round_nearest_even m l = m ∨ round_nearest_even m l = m + 1.
Proof. destruct l as [|[]]; simpl; auto. destruct (Z.even m); auto. Qed.

Lemma bra_shape m e l :
  53 ≤ digits m → -1074 ≤ e → e + (digits m - 53) + 1 ≤ 971 →
  ∃ mr er,
    binary_round_aux prec emax false (Zpos m) e l = S754_finite false mr er
    ∧ digits mr = 53
    ∧ (er = e + (digits m - 53) ∨ (er = e + (digits m - 53) + 1 ∧ Zpos mr = 2 ^ 52)).
Proof.
  intros Hd He1 He2. set (n := digits m - 53) in *.
  assert (fexp prec emax (Zdigits2 (Zpos m) + e) - e = n) as Hf.
  { simpl Zdigits2. fold (digits m). rewrite fexp_normal; lia. }
  unfold binary_round_aux, shr_fexp. rewrite Hf.
  destruct (shr_m_shr (Zpos m) l e n ltac:(lia) ltac:(lia)) as [Hm1 He'].
  destruct (shr (shr_record_of_loc (Zpos m) l) e n) as [mrs' e']. simpl in Hm1, He'. subst e'.
  set (m1 := shr_m mrs') in *.
  (* the truncated mantissa has 53 bits *)
  pose proof (digits_bounds m) as [Hlo Hhi].
  replace (digits m - 1) with (52 + n) in Hlo by lia.
  replace (digits m) with (53 + n) in Hhi by lia.
  rewrite Z.pow_add_r in Hlo, Hhi by lia.
  assert (0 < 2 ^ n) as Hpn by (apply Z.pow_pos_nonneg; lia).
  assert (2 ^ 52 ≤ m1 < 2 ^ 53) as Hm1b.
  { rewrite Hm1. split.
    - apply Z.div_le_lower_bound; lia.
    - apply Z.div_lt_upper_bound; lia. }
  set (m2 := round_nearest_even m1 (loc_of_shr_record mrs')).
  assert (m2 = m1 ∨ m2 = m1 + 1) as Hm2 by apply round_nearest_even_cases.
  destruct (Z.eq_dec m2 (2 ^ 53)) as [Hcarry|Hnocarry].
  - (* the rounding carries into a 54th bit *)
    rewrite Hcarry.
    assert (fexp prec emax (Zdigits2 (2 ^ 53) + (e + n)) - (e + n) = 1) as Hf'.
    { change (Zdigits2 (2 ^ 53)) with 54. rewrite fexp_normal; lia. }
    rewrite Hf'. cbn [shr_record_of_loc].
    change (2 ^ 53) with (2 ^ 52 * 2 ^ 1). rewrite shr_exact by lia.
    cbn [shr_m]. change (2 ^ 52) with (Zpos (Z.to_pos (2 ^ 52))).
    replace (e + n + 1 <=? emax - prec) with true
      by (symmetry; apply Z.leb_le; unfold emax, prec; lia).
    eexists _, _. split; [done|]. split; [done|]. right. done.
  - assert (2 ^ 52 ≤ m2 < 2 ^ 53) as Hm2b by lia.
    destruct m2 as [|p2|p2] eqn:Hp2; try lia.
    assert (digits p2 = 53) as Hd2 by (apply digits_unique; lia).
    assert (fexp prec emax (Zdigits2 (Zpos p2) + (e + n)) - (e + n) = 0) as Hf'.
    { simpl Zdigits2. fold (digits p2). rewrite fexp_normal; lia. }
    rewrite Hf'. cbn [shr shr_record_of_loc shr_m].
    replace (e + n <=? emax - prec) with true
      by (symmetry; apply Z.leb_le; unfold emax, prec; lia).
    eexists _, _. split; [done|]. split; [done|]. left. done.
Qed.

(** ** binary64 arithmetic on small integers and half-integers *)

Lemma Prim2SF_of_unsigned z : 0 ≤ z < 2 ^ 53 → Prim2SF (of_unsigned z) = dyadic z 0.
Proof.
  intros Hz. unfold of_unsigned.
  assert (wB = 2 ^ 63) as HwB by reflexivity.
  rewrite of_uint63_spec, of_Z_spec, Z.mod_small by (rewrite HwB; lia).
  destruct z as [|q|q]; try lia; [done|]. cbn [binary_normalize dyadic].
  rewrite (binary_round_exact q q 0 0); try lia.
  - done.
  - apply digits_le_iff; lia.
Qed.

Lemma of_unsigned_add a b :
  0 ≤ a → 0 ≤ b → a + b < 2 ^ 53 →
  (of_unsigned a + of_unsigned b)%float = of_unsigned (a + b).
Proof.
  intros Ha Hb Hab. apply Prim2SF_inj.
  rewrite FloatAxioms.add_spec, !Prim2SF_of_unsigned by lia. apply dyadic_add; lia.
Qed.

Lemma of_unsigned_mul a b :
  0 ≤ a < 2 ^ 53 → 0 ≤ b < 2 ^ 53 → a * b < 2 ^ 53 →
  (of_unsigned a * of_unsigned b)%float = of_unsigned (a * b).
Proof.
  intros Ha Hb Hab. apply Prim2SF_inj.
  rewrite FloatAxioms.mul_spec, !Prim2SF_of_unsigned by lia. apply dyadic_mul; lia.
Qed.

Lemma SFcompare_le_one mr er :
  er < -52 ∨ (er = -52 ∧ Zpos mr = 2 ^ 52) →
  SFleb (S754_finite false mr er) (Prim2SF 1) = true.
Proof.
  intros H. change (Prim2SF 1) with (S754_finite false 4503599627370496 (-52)).
  unfold SFleb, SFcompare. destruct H as [Hlt|[-> Hm]].
  - by rewrite (proj2 (Z.compare_lt_iff er (-52)) Hlt).
  - injection Hm as ->. done.
Qed.

Lemma SFdiv_le_one mx ex my ey :
  digits mx = 53 → digits my = 53 →
  -200 ≤ ex ≤ 200 → -200 ≤ ey ≤ 200 →
  ex < ey ∨ (ex = ey ∧ Zpos mx ≤ Zpos my) →
  ∃ mr er,
    SFdiv prec emax (S754_finite false mx ex) (S754_finite false my ey)
    = S754_finite false mr er
    ∧ (er < -52 ∨ (er = -52 ∧ Zpos mr = 2 ^ 52)).
Proof.
  intros Hdx Hdy Hex Hey Hle.
  pose proof (digits_bounds mx) as Hbx. pose proof (digits_bounds my) as Hby.
  rewrite Hdx in Hbx. rewrite Hdy in Hby. simpl in Hbx, Hby.
  unfold SFdiv, SFdiv_core_binary. cbn [xorb Zdigits2].
  fold (digits mx). fold (digits my). rewrite Hdx, Hdy.
  replace (53 + ex - (53 + ey)) with (ex - ey) by lia.
  rewrite fexp_normal by lia.
  replace (Z.min (ex - ey - 53) (ex - ey)) with (ex - ey - 53) by lia.
  replace (ex - ey - (ex - ey - 53)) with 53 by lia.
  rewrite Z.shiftl_mul_pow2 by lia.
  pose proof (Z_div_mod (Zpos mx * 2 ^ 53) (Zpos my) ltac:(lia)) as Hdiv.
  destruct (Z.div_eucl (Zpos mx * 2 ^ 53) (Zpos my)) as [q r].
  destruct Hdiv as [Hqr Hr].
  assert (2 ^ 52 ≤ q < 2 ^ 54) as Hq by (simpl in *; nia).
  destruct q as [|pq|pq]; try lia.
  destruct Hle as [Hlt|[-> Hm]].
  - (* the dividend has the smaller exponent *)
    assert (53 ≤ digits pq ≤ 54) as Hdq.
    { pose proof (digits_bounds pq) as [Hlo Hhi]. split.
      - destruct (Z.le_gt_cases 53 (digits pq)); [done|].
        assert (2 ^ digits pq ≤ 2 ^ 52) by (apply Z.pow_le_mono_r; lia). lia.
      - apply digits_le_iff; lia. }
    assert (53 ≤ digits pq) as H1 by lia.
    assert (-1074 ≤ (ex - ey - 53)) as H2 by lia.
    assert ((ex - ey - 53) + (digits pq - 53) + 1 ≤ 971) as H3 by lia.
    destruct (bra_shape pq (ex - ey - 53) (new_location (Zpos my) r) H1 H2 H3)
      as (mr & er & Hres & _ & Her).
    exists mr, er. split; [done|].
    destruct Her as [->|[-> Hmr]]; [left; lia|].
    destruct (Z.eq_dec (ex - ey - 53 + (digits pq - 53) + 1) (-52)) as [->|?];
      [right; done | left; lia].
  - destruct (Z.eq_dec (Zpos mx) (Zpos my)) as [Heq|Hne].
    + (* equal operands: the quotient is one *)
      assert (Zpos pq = 2 ^ 53) as Hpq.
      { rewrite Heq in Hqr.
        destruct (Z.lt_trichotomy (Zpos pq) (2 ^ 53)) as [Hlt|[Heq'|Hgt]]; [|done|].
        - assert (Zpos my * (Zpos pq + 1) ≤ Zpos my * 2 ^ 53)
            by (apply Z.mul_le_mono_nonneg_l; lia). lia.
        - assert (Zpos my * (2 ^ 53 + 1) ≤ Zpos my * Zpos pq)
            by (apply Z.mul_le_mono_nonneg_l; lia). lia. }
      assert (r = 0) as -> by (rewrite Heq, Hpq in Hqr; lia).
      assert (new_location (Zpos my) 0 = loc_Exact) as ->.
      { unfold new_location, new_location_even, new_location_odd.
        by destruct (Z.even (Zpos my)). }
      rewrite (bra_shift pq (Z.to_pos (2 ^ 52)) 1); try lia; try done.
      eexists _, _. split; [done|]. right. split; [lia | done].
    + assert (Zpos pq < 2 ^ 53) as Hlt.
      { destruct (Z.lt_ge_cases (Zpos pq) (2 ^ 53)) as [|Hge]; [done|].
        assert (Zpos my * 2 ^ 53 ≤ Zpos my * Zpos pq)
          by (apply Z.mul_le_mono_nonneg_l; lia).
        assert (Zpos mx * 2 ^ 53 < Zpos my * 2 ^ 53)
          by (apply Z.mul_lt_mono_pos_r; lia).
        lia. }
      assert (digits pq = 53) as Hdq by (apply digits_unique; simpl; lia).
      destruct (bra_shape pq (ey - ey - 53) (new_location (Zpos my) r)
                  ltac:(lia) ltac:(lia) ltac:(lia))
        as (mr & er & Hres & _ & Her).
      exists mr, er. split; [done|].
      destruct Her as [->|[-> Hmr]]; [left; lia | right; split; [lia | done]].
Qed.

Lemma pvalue_in_unit h R (score : float) :
  Prim2SF score = dyadic h (-1) → 0 ≤ h ≤ 2 * R → 1 ≤ R < 2 ^ 32 →
  (0 <=? score / of_unsigned R)%float = true
  ∧ (score / of_unsigned R <=? 1)%float = true.
Proof.
  intros Hs Hh HR.
  rewrite !FloatAxioms.leb_spec, FloatAxioms.div_spec, Hs, Prim2SF_of_unsigned by lia.
  destruct R as [|rq|rq]; try lia. cbn [dyadic].
  assert (digits rq ≤ 32) as Hdr by (apply digits_le_iff; lia).
  pose proof (digits_pos rq).
  destruct (canon_mantissa rq ltac:(lia)) as [Hmy Hdy].
  destruct h as [|hq|hq]; try lia.
  - by cbn.
  - cbn [dyadic].
    assert (digits hq ≤ digits rq + 1) as Hdh.
    { apply digits_le_iff; [lia|]. pose proof (digits_bounds rq) as [_ Hhi].
      rewrite Z.pow_add_r by lia. lia. }
    pose proof (digits_pos hq).
    destruct (canon_mantissa hq ltac:(lia)) as [Hmx Hdx].
    unfold canon, SF64div.
    set (mx := Z.to_pos (Zpos hq * 2 ^ (53 - digits hq))) in *.
    set (my := Z.to_pos (Zpos rq * 2 ^ (53 - digits rq))) in *.
    destruct (SFdiv_le_one mx (-1 - (53 - digits hq)) my (0 - (53 - digits rq)))
      as (mr & er & -> & Hle); try done; try lia.
    + destruct (Z.eq_dec (digits hq) (digits rq + 1)) as [Heq|Hne]; [right|left; lia].
      split; [lia|]. rewrite Hmx, Hmy, Heq.
      replace (53 - digits rq) with (53 - (digits rq + 1) + 1) by lia.
      rewrite (Z.pow_add_r _ _ 1) by lia.
      assert (0 < 2 ^ (53 - (digits rq + 1))) by (apply Z.pow_pos_nonneg; lia).
      nia.
    + split; [done|]. by apply SFcompare_le_one.
Qed.

Lemma double_to_unsigned_of_unsigned z :
  0 ≤ z < 2 ^ 53 →
  double_to_unsigned (of_unsigned z) = if z <? 2 ^ 32 then Returns z else Undefined.
Proof.
  intros Hz. unfold double_to_unsigned. rewrite Prim2SF_of_unsigned by done.
  destruct z as [|q|q]; try lia; [done|]. cbn [dyadic]. unfold canon.
  assert (digits q ≤ 53) as Hq by (apply digits_le_iff; lia).
  destruct (canon_mantissa q Hq) as [Hm _]. cbv zeta. rewrite Hm.
  replace (0 - (53 - digits q)) with (- (53 - digits q)) by lia.
  pose proof (digits_pos q).
  rewrite Z.shiftl_div_pow2, Z.opp_involutive by lia.
  rewrite Z.div_mul by (apply Z.pow_nonzero; lia). done.
Qed.

Lemma double_to_unsigned_large x mr er :
  Prim2SF x = S754_finite false mr er → digits mr = 53 → -20 ≤ er →
  double_to_unsigned x = Undefined.
Proof.
  intros Hx Hd He. unfold double_to_unsigned. rewrite Hx.
  pose proof (digits_bounds mr) as [Hlo _]. rewrite Hd in Hlo. simpl in Hlo.
  assert (2 ^ 32 ≤ Z.shiftl (Zpos mr) er) as Hbig.
  { destruct (Z.le_gt_cases 0 er).
    - rewrite Z.shiftl_mul_pow2 by done.
      assert (1 ≤ 2 ^ er) by (apply (Z.pow_le_mono_r 2 0 er); lia). nia.
    - rewrite Z.shiftl_div_pow2 by lia.
      apply Z.div_le_lower_bound; [apply Z.pow_pos_nonneg; lia|].
      assert (2 ^ (- er) ≤ 2 ^ 20) by (apply Z.pow_le_mono_r; lia).
      change (2 ^ 32) with 4294967296. change (2 ^ 20) with 1048576 in *. nia. }
  destruct (Z.ltb_spec (Z.shiftl (Zpos mr) er) (2 ^ 32)); [lia | done].
Qed.

(** What a sum or a product of two normal numbers can round to *)

Lemma SFadd_shape mx ex my ey :
  digits mx = 53 → digits my = 53 → -200 ≤ ex ≤ 200 → -200 ≤ ey ≤ 200 →
  ∃ mr er,
    SFadd prec emax (S754_finite false mx ex) (S754_finite false my ey)
    = S754_finite false mr er
    ∧ digits mr = 53 ∧ Z.max ex ey ≤ er.
Proof.
  intros Hdx Hdy Hex Hey. cbn [SFadd].
  set (ez := Z.min ex ey).
  destruct (shl_align_fst mx ex ez ltac:(lia)) as [Ha _].
  destruct (shl_align_fst my ey ez ltac:(lia)) as [Hb _].
  set (a := (shl_align mx ex ez).1) in *. set (b := (shl_align my ey ez).1) in *.
  cbn [cond_Zopp]. change (Z.pos a + Z.pos b) with (Z.pos (a + b)).
  cbn [binary_normalize].
  pose proof (digits_bounds mx) as [Hlx _]. pose proof (digits_bounds my) as [Hly _].
  rewrite Hdx in Hlx. rewrite Hdy in Hly. simpl in Hlx, Hly.
  assert (52 + (Z.max ex ey - ez) < digits (a + b)) as Hdab.
  { pose proof (digits_bounds (a + b)) as [_ Hhi].
    assert (2 ^ (52 + (Z.max ex ey - ez)) < 2 ^ digits (a + b)) as Hlt.
    { eapply Z.le_lt_trans; [|exact Hhi]. rewrite Pos2Z.inj_add, Ha, Hb.
      rewrite Z.pow_add_r by lia.
      assert (0 < 2 ^ (ex - ez)) by (apply Z.pow_pos_nonneg; lia).
      assert (0 < 2 ^ (ey - ez)) by (apply Z.pow_pos_nonneg; lia).
      destruct (Z.max_spec ex ey) as [[_ ->]|[_ ->]]; nia. }
    pose proof (digits_pos (a + b)).
    apply Z.pow_lt_mono_r_iff in Hlt; lia. }
  assert (digits (a + b) ≤ 53 + (Z.max ex ey - ez) + 1) as Hdab'.
  { apply digits_le_iff; [lia|]. rewrite Pos2Z.inj_add, Ha, Hb.
    pose proof (digits_bounds mx) as [_ Hhx]. pose proof (digits_bounds my) as [_ Hhy].
    rewrite Hdx in Hhx. rewrite Hdy in Hhy.
    rewrite !Z.pow_add_r by lia.
    assert (2 ^ (ex - ez) ≤ 2 ^ (Z.max ex ey - ez)) by (apply Z.pow_le_mono_r; lia).
    assert (2 ^ (ey - ez) ≤ 2 ^ (Z.max ex ey - ez)) by (apply Z.pow_le_mono_r; lia).
    assert (0 < 2 ^ (ex - ez)) by (apply Z.pow_pos_nonneg; lia).
    assert (0 < 2 ^ (ey - ez)) by (apply Z.pow_pos_nonneg; lia).
    change (2 ^ 1) with 2. nia. }
  unfold binary_round.
  assert (shl_align (a + b) ez (fexp prec emax (Zpos (digits2_pos (a + b)) + ez))
          = (a + b, ez)%positive) as ->.
  { fold (digits (a + b)). rewrite fexp_normal by lia. unfold shl_align.
    destruct (digits (a + b) + ez - 53 - ez) eqn:Hd; try done; lia. }
  destruct (bra_shape (a + b) ez loc_Exact ltac:(lia) ltac:(lia) ltac:(lia))
    as (mr & er & Hres & Hdr & Her).
  exists mr, er. split; [done|]. split; [done|]. lia.
Qed.

Lemma SFmul_shape mx ex my ey :
  digits mx = 53 → digits my = 53 → -200 ≤ ex ≤ 200 → -200 ≤ ey ≤ 200 →
  ∃ mr er,
    SFmul prec emax (S754_finite false mx ex) (S754_finite false my ey)
    = S754_finite false mr er
    ∧ digits mr = 53 ∧ ex + ey + 52 ≤ er ≤ ex + ey + 54.
Proof.
  intros Hdx Hdy Hex Hey. cbn [SFmul xorb].
  pose proof (digits_bounds mx) as [Hlx Hhx]. pose proof (digits_bounds my) as [Hly Hhy].
  rewrite Hdx in Hlx, Hhx. rewrite Hdy in Hly, Hhy. simpl in Hlx, Hly.
  assert (105 ≤ digits (mx * my) ≤ 106) as Hd.
  { split.
    - pose proof (digits_bounds (mx * my)) as [_ Hhi]. pose proof (digits_pos (mx * my)).
      assert (2 ^ 104 < 2 ^ digits (mx * my)) as Hlt.
      { eapply Z.le_lt_trans; [|exact Hhi]. rewrite Pos2Z.inj_mul.
        change (2 ^ 104) with (2 ^ 52 * 2 ^ 52). nia. }
      apply Z.pow_lt_mono_r_iff in Hlt; lia.
    - apply digits_le_iff; [lia|]. rewrite Pos2Z.inj_mul.
      change (2 ^ 106) with (2 ^ 53 * 2 ^ 53). nia. }
  destruct (bra_shape (mx * my) (ex + ey) loc_Exact ltac:(lia) ltac:(lia) ltac:(lia))
    as (mr & er & Hres & Hdr & Her).
  exists mr, er. split; [done|]. split; [done|]. lia.
Qed.

(** ** The compound assignments to the unsigned counters *)

Lemma counter_add nu d :
  0 ≤ nu < 2 ^ 32 → 0 ≤ d < 2 ^ 32 →
  double_to_unsigned (of_unsigned nu + of_unsigned d)%float
  = if nu + d <? 2 ^ 32 then Returns (nu + d) else Undefined.
Proof.
  intros Hnu Hd. rewrite of_unsigned_add by lia.
  apply double_to_unsigned_of_unsigned. lia.
Qed.

Lemma dyadic_canon z E : 0 < z → dyadic z E = canon (Z.to_pos z) E.
Proof. intros Hz. destruct z; try lia. done. Qed.

Lemma canon_exponent q :
  Zpos q < 2 ^ 32 →
  ∃ m e, canon q 0 = S754_finite false m e ∧ digits m = 53
         ∧ e = digits q - 53 ∧ -52 ≤ e ≤ -21.
Proof.
  intros Hq. assert (digits q ≤ 32) by (apply digits_le_iff; lia).
  pose proof (digits_pos q).
  destruct (canon_mantissa q ltac:(lia)) as [_ Hd].
  eexists _, _. split; [done|]. split; [done|]. lia.
Qed.

Lemma counter_add_mul nd d i :
  0 ≤ nd < 2 ^ 32 → 0 ≤ d < 2 ^ 32 → 0 ≤ i < 2 ^ 32 →
  double_to_unsigned (of_unsigned nd + of_unsigned d * of_unsigned i)%float
  = if nd + d * i <? 2 ^ 32 then Returns (nd + d * i) else Undefined.
Proof.
  intros Hnd Hd Hi.
  assert (0 ≤ d * i) as Hdi0 by nia.
  destruct (Z.lt_ge_cases (d * i) (2 ^ 53)) as [Hdi|Hdi].
  - rewrite of_unsigned_mul by lia.
    destruct (Z.lt_ge_cases (nd + d * i) (2 ^ 53)) as [Hs|Hs].
    + rewrite of_unsigned_add by lia. apply double_to_unsigned_of_unsigned. lia.
    + (* an exact product, a sum of 54 bits *)
      Zbool_false (nd + d * i <? 2 ^ 32).
      assert (0 < nd) as Hnd0 by lia.
      assert (2 ^ 52 ≤ d * i) as Hbig by lia.
      destruct (canon_exponent (Z.to_pos nd) ltac:(lia)) as (mx & ex & Ex & Hdx & _ & Hex).
      assert (digits (Z.to_pos (d * i)) = 53) as Hdy'.
      { apply digits_unique. rewrite Z2Pos.id by lia. simpl. lia. }
      destruct (canon_mantissa (Z.to_pos (d * i)) ltac:(lia)) as [_ Hdy].
      destruct (SFadd_shape mx ex (Z.to_pos (Zpos (Z.to_pos (d * i))
                   * 2 ^ (53 - digits (Z.to_pos (d * i)))))
                  (0 - (53 - digits (Z.to_pos (d * i)))))
        as (mr & er & Hres & Hdr & Her); try done; try lia.
      eapply (double_to_unsigned_large _ mr er); [|done|lia].
      rewrite FloatAxioms.add_spec, !Prim2SF_of_unsigned by lia.
      rewrite !dyadic_canon by lia. rewrite Ex. exact Hres.
  - (* a product of more than 53 bits *)
    Zbool_false (nd + d * i <? 2 ^ 32).
    assert (0 < d ∧ 0 < i) as [Hd0 Hi0] by nia.
    destruct (canon_exponent (Z.to_pos d) ltac:(lia)) as (mx & ex & Ex & Hdx & Hex & Hex').
    destruct (canon_exponent (Z.to_pos i) ltac:(lia)) as (my & ey & Ey & Hdy & Hey & Hey').
    destruct (SFmul_shape mx ex my ey) as (mp & ep & Hp & Hdp & Hep); try done; try lia.
    assert (0 ≤ ep) as Hep0.
    { pose proof (digits_bounds (Z.to_pos d)) as [_ Hhd].
      pose proof (digits_bounds (Z.to_pos i)) as [_ Hhi].
      rewrite Z2Pos.id in Hhd, Hhi by lia.
      pose proof (digits_pos (Z.to_pos d)). pose proof (digits_pos (Z.to_pos i)).
      assert (2 ^ 53 < 2 ^ (digits (Z.to_pos d) + digits (Z.to_pos i))) as Hlt.
      { rewrite Z.pow_add_r by lia. nia. }
      apply Z.pow_lt_mono_r_iff in Hlt; lia. }
    assert (Prim2SF (of_unsigned d * of_unsigned i) = S754_finite false mp ep) as HP.
    { rewrite FloatAxioms.mul_spec, !Prim2SF_of_unsigned by lia.
      rewrite !dyadic_canon by lia. rewrite Ex, Ey. exact Hp. }
    destruct (Z.eq_dec nd 0) as [->|Hnd0].
    + eapply (double_to_unsigned_large _ mp ep); [|done|lia].
      rewrite FloatAxioms.add_spec, HP. done.
    + destruct (canon_exponent (Z.to_pos nd) ltac:(lia)) as (mn & en & En & Hdn & _ & Hen).
      destruct (SFadd_shape mn en mp ep) as (mr & er & Hres & Hdr & Her); try done; try lia.
      eapply (double_to_unsigned_large _ mr er); [|done|lia].
      rewrite FloatAxioms.add_spec, HP, Prim2SF_of_unsigned by lia.
      rewrite dyadic_canon by lia. rewrite En. exact Hres.
Qed.

(** ** calculate_log_probability *)

Lemma Z_to_double_of_unsigned z : 0 ≤ z < 2 ^ 63 → Z_to_double z = of_unsigned z.
Proof.
  intros Hz. unfold Z_to_double, of_unsigned.
  assert (wB = 2 ^ 63) as HwB by reflexivity.
  rewrite <- (SF2Prim_Prim2SF (of_uint63 (of_Z z))).
  by rewrite of_uint63_spec, of_Z_spec, Z.mod_small by (rewrite HwB; lia).
Qed.

Lemma one_plus_of_unsigned x :
  0 ≤ x < 2 ^ 32 → (1 + of_unsigned x)%float = of_unsigned (1 + x).
Proof.
  intros Hx. change 1%float with (of_unsigned 1). apply of_unsigned_add; lia.
Qed.

Section LogProbability.

Variable lgamma : double → double.
Variable log : double → double.

Lemma log_prob_loop_spec suf pre st :
  Forall is_unsigned (pre ++ suf) →
  Z.of_nat (length (pre ++ suf)) < 2 ^ 32 - 1 →
  num_unique st = num_unique_of pre →
  num_draws st = num_draws_of pre →
  num_draws st < 2 ^ 32 →
  log_prob_loop lgamma (length suf) (pre ++ suf) (Z.of_nat (length pre) + 1) st
  = if num_draws st + weighted_from (Z.of_nat (length pre) + 1) suf <? 2 ^ 32
    then Returns (mkLogProbState
                    (num_unique st + num_unique_of suf)
                    (num_draws st + weighted_from (Z.of_nat (length pre) + 1) suf)
                    (log_denom_from lgamma (Z.of_nat (length pre) + 1) suf (log_denom st)))
    else Undefined.
Proof.
  revert pre st. induction suf as [|x suf IH]; intros pre st Hdd Hlen Hnu Hnd Hnd32.
  - cbn [length log_prob_loop weighted_from num_unique_of foldr log_denom_from].
    unfold vec_size. rewrite app_nil_r in *.
    Zbool_false (Z.of_nat (length pre) + 1 <=? Z.of_nat (length pre)).
    rewrite !Z.add_0_r. Zbool_true (num_draws st <? 2 ^ 32).
    by destruct st.
  - assert (Forall (λ x, 0 ≤ x) pre ∧ is_unsigned x ∧ Forall (λ x, 0 ≤ x) suf)
      as (Hpre & Hx & Hsuf).
    { apply Forall_app in Hdd as [Hp Hs]. apply Forall_cons in Hs as [Hx Hs].
      split; [|split; [done|]]; eapply Forall_impl; eauto; intros ? []; lia. }
    unfold is_unsigned in Hx.
    pose proof (num_unique_le_weighted 1 pre ltac:(lia) Hpre) as HUW.
    pose proof (num_unique_of_nonneg pre Hpre) as HU0.
    pose proof (weighted_from_nonneg (Z.of_nat (length pre) + 1 + 1) suf ltac:(lia) Hsuf) as HW0.
    fold (num_draws_of pre) in HUW.
    rewrite length_app in Hlen. cbn [length] in Hlen.
    set (i := Z.of_nat (length pre) + 1) in *.
    cbn [length log_prob_loop weighted_from]. unfold log_prob_body.
    replace (wrap32 (i - 1)) with (Z.of_nat (length pre))
      by (unfold i; rewrite wrap32_small; lia).
    rewrite (vec_get_lookup _ _ x) by (by apply list_lookup_middle).
    cbn [mbind outcome_bind].
    rewrite counter_add by lia. rewrite counter_add_mul by (unfold i; lia).
    destruct (Z.ltb_spec (num_unique st + x) (2 ^ 32)) as [Hu|Hu]; cbn [mbind outcome_bind].
    2:{ destruct (Z.ltb_spec (num_draws st + (i * x + weighted_from (i + 1) suf)) (2 ^ 32));
          [|done]. unfold i in *. nia. }
    destruct (Z.ltb_spec (num_draws st + x * i) (2 ^ 32)) as [Hd|Hd]; cbn [mbind outcome_bind].
    2:{ destruct (Z.ltb_spec (num_draws st + (i * x + weighted_from (i + 1) suf)) (2 ^ 32));
          [|done]. unfold i in *. nia. }
    rewrite (wrap32_small (i + 1)) by (unfold i; lia).
    rewrite (cons_middle x pre suf), (assoc_L (++)).
    replace (i + 1) with (Z.of_nat (length (pre ++ [x])) + 1)
      by (rewrite length_app; simpl; unfold i; lia).
    rewrite IH; cbn [num_unique num_draws log_denom].
    + replace (num_draws st + x * i + weighted_from (Z.of_nat (length (pre ++ [x])) + 1) suf)
        with (num_draws st + (i * x + weighted_from (Z.of_nat (length (pre ++ [x])) + 1) suf))
        by lia.
      destruct (_ <? _); [|done]. f_equal. f_equal.
      * simpl. lia.
      * cbn [log_denom_from].
        rewrite one_plus_of_unsigned, !Z_to_double_of_unsigned by (unfold i; lia).
        rewrite (wrap32_small (1 + i)) by (unfold i; lia).
        f_equal. rewrite length_app. simpl. unfold i. lia.
    + by rewrite <- (assoc_L (++)).
    + rewrite <- (assoc_L (++)), length_app. simpl. lia.
    + rewrite num_unique_of_app. simpl. lia.
    + unfold num_draws_of. rewrite weighted_from_app. simpl. fold (num_draws_of pre).
      unfold i. lia.
    + done.
Qed.

Lemma log_prob_loop_draws n dd i st st' :
  log_prob_loop lgamma n dd i st = Returns st' →
  ref_draws_loop n dd i (num_draws st) = Returns (num_draws st').
Proof.
  revert i st. induction n as [|n IH]; intros i st Hrun.
  - cbn [log_prob_loop ref_draws_loop] in *.
    destruct (i <=? vec_size dd); [done|]. by injection Hrun as ->.
  - cbn [log_prob_loop ref_draws_loop] in *. unfold log_prob_body in Hrun.
    destruct (vec_get dd (wrap32 (i - 1))) as [x| |]; [|done..].
    cbn [mbind outcome_bind] in *.
    destruct (double_to_unsigned (of_unsigned (num_unique st) + of_unsigned x)%float)
      as [nu| |]; [|done..].
    cbn [mbind outcome_bind] in *.
    destruct (double_to_unsigned
                (of_unsigned (num_draws st) + of_unsigned x * of_unsigned i)%float)
      as [nd| |]; [|done..].
    cbn [mbind outcome_bind] in *.
    apply IH in Hrun. exact Hrun.
Qed.

Lemma calculate_log_probability_spec dd M :
  Forall is_unsigned dd → Z.of_nat (length dd) < 2 ^ 32 - 1 →
  calculate_log_probability lgamma log dd M
  = if num_draws_of dd <? 2 ^ 32
    then if num_unique_of dd <=? M
         then Returns (log_probability_returned lgamma log dd M)
         else AssertionFailed
    else Undefined.
Proof.
  intros Hdd Hlen. unfold calculate_log_probability.
  pose proof (log_prob_loop_spec dd [] (mkLogProbState 0 0 0%float)) as H.
  change (Z.of_nat (length (@nil Z)) + 1) with 1 in H.
  cbn [app num_unique num_draws log_denom] in H.
  rewrite H by (done || lia). clear H.
  fold (num_draws_of dd). rewrite !Z.add_0_l.
  destruct (num_draws_of dd <? 2 ^ 32); [|done].
  cbn [mbind outcome_bind num_unique num_draws log_denom].
  by destruct (num_unique_of dd <=? M).
Qed.

Lemma ref_draws_loop_spec dd M lp :
  Forall is_unsigned dd → Z.of_nat (length dd) < 2 ^ 32 - 1 →
  calculate_log_probability lgamma log dd M = Returns lp →
  ref_draws_loop (length dd) dd 1 0 = Returns (num_draws_of dd)
  ∧ num_draws_of dd < 2 ^ 32 ∧ num_unique_of dd ≤ M
  ∧ lp = log_probability_returned lgamma log dd M.
Proof.
  intros Hdd Hlen Hrun.
  pose proof Hrun as Hspec. rewrite calculate_log_probability_spec in Hspec by done.
  destruct (Z.ltb_spec (num_draws_of dd) (2 ^ 32)); [|done].
  destruct (Z.leb_spec (num_unique_of dd) M); [|done].
  injection Hspec as <-. split; [|done].
  pose proof (log_prob_loop_spec dd [] (mkLogProbState 0 0 0%float)) as Hloop.
  change (Z.of_nat (length (@nil Z)) + 1) with 1 in Hloop.
  cbn [app num_unique num_draws log_denom] in Hloop.
  pose proof (log_prob_loop_draws (length dd) dd 1 (mkLogProbState 0 0 0%float)) as Hd.
  rewrite Hloop in Hd by (done || lia). fold (num_draws_of dd) in Hd.
  rewrite !Z.add_0_l in Hd.
  replace (num_draws_of dd <? 2 ^ 32) with true in Hd
    by (symmetry; apply Z.ltb_lt; lia).
  by specialize (Hd _ eq_refl).
Qed.

Lemma log_probability_returned_formula dd M :
  Forall is_unsigned dd →
  num_draws_of dd ≤ 2 ^ 32 - 2 → num_unique_of dd ≤ M → M ≤ 2 ^ 32 - 2 →
  log_probability_returned lgamma log dd M = log_probability_formula lgamma log dd M.
Proof.
  intros Hdd HN HU HM.
  assert (Forall (λ x, 0 ≤ x) dd) as Hnn
    by (eapply Forall_impl; eauto; intros ? []; lia).
  pose proof (num_unique_of_nonneg dd Hnn).
  pose proof (num_unique_le_weighted 1 dd ltac:(lia) Hnn) as HUN.
  fold (num_draws_of dd) in HUN.
  unfold log_probability_returned, log_probability_formula. cbv zeta.
  rewrite !wrap32_small by (rewrite ?wrap32_small; lia).
  by rewrite !Z_to_double_of_unsigned by lia.
Qed.

End LogProbability.

(** ** The accumulator of monte_carlo_pvalue *)

Lemma Prim2SF_score_constants :
  Prim2SF 0 = dyadic 0 (-1) ∧ Prim2SF 0.5 = dyadic 1 (-1) ∧ Prim2SF 1 = dyadic 2 (-1).
Proof. by vm_compute. Qed.

Lemma score_update_shape score h diff :
  Prim2SF score = dyadic h (-1) → 0 ≤ h → h + 2 < 2 ^ 53 →
  ∃ h', Prim2SF (score_update score diff) = dyadic h' (-1)
        ∧ h ≤ h' ≤ h + 2
        ∧ ((abs diff <? tie_tolerance)%float = true → h' = h + 1).
Proof.
  intros Hs Hh Hh2. destruct Prim2SF_score_constants as (_ & Hhalf & Hone).
  unfold score_update. destruct (abs diff <? tie_tolerance)%float.
  - exists (h + 1). rewrite FloatAxioms.add_spec, Hs, Hhalf, dyadic_add by lia.
    split; [done|]. split; [lia | done].
  - destruct (0 <? diff)%float.
    + exists (h + 2). rewrite FloatAxioms.add_spec, Hs, Hone, dyadic_add by lia.
      split; [done|]. split; [lia | done].
    + exists h. split; [done|]. split; [lia | done].
Qed.

Lemma score_update_contribution score h (ref_log_p sim_log_p : double) :
  Prim2SF score = dyadic h (-1) → 0 ≤ h → h + 2 < 2 ^ 53 →
  score_update score (ref_log_p - sim_log_p)%float
  = (score + tie_contribution ref_log_p sim_log_p)%float.
Proof.
  intros Hs Hh Hh2. unfold score_update, tie_contribution. cbv zeta.
  destruct (abs (ref_log_p - sim_log_p) <? tie_tolerance)%float; [done|].
  destruct (0 <? ref_log_p - sim_log_p)%float; [done|].
  apply Prim2SF_inj. destruct Prim2SF_score_constants as (Hzero & _ & _).
  rewrite FloatAxioms.add_spec, Hs, Hzero, dyadic_add by lia. by rewrite Z.add_0_r.
Qed.

Lemma SFdiv_half m e :
  digits m = 53 → -200 ≤ e ≤ 200 →
  SFdiv prec emax (S754_finite false m (e - 1)) (S754_finite false m e) = Prim2SF 0.5.
Proof.
  intros Hd He.
  unfold SFdiv, SFdiv_core_binary. cbn [xorb Zdigits2]. fold (digits m). rewrite Hd.
  replace (53 + (e - 1) - (53 + e)) with (-1) by lia.
  replace (e - 1 - e) with (-1) by lia.
  change (Z.min (fexp prec emax (-1)) (-1)) with (-54).
  change (-1 - -54) with 53. rewrite Z.shiftl_mul_pow2 by lia.
  pose proof (Z_div_mod (Zpos m * 2 ^ 53) (Zpos m) ltac:(lia)) as Hdiv.
  destruct (Z.div_eucl (Zpos m * 2 ^ 53) (Zpos m)) as [q r].
  destruct Hdiv as [Hqr Hr].
  assert (q = 2 ^ 53) as ->.
  { destruct (Z.lt_trichotomy q (2 ^ 53)) as [Hlt|[Heq'|Hgt]]; [|done|].
    - assert (Zpos m * (q + 1) ≤ Zpos m * 2 ^ 53)
        by (apply Z.mul_le_mono_nonneg_l; lia). lia.
    - assert (Zpos m * (2 ^ 53 + 1) ≤ Zpos m * q)
        by (apply Z.mul_le_mono_nonneg_l; lia). lia. }
  assert (r = 0) as -> by lia.
  assert (new_location (Zpos m) 0 = loc_Exact) as ->.
  { unfold new_location, new_location_even, new_location_odd.
    by destruct (Z.even (Zpos m)). }
  by vm_compute.
Qed.

Lemma tie_score_ratio R (score : double) :
  Prim2SF score = dyadic R (-1) → 1 ≤ R < 2 ^ 32 →
  (score / of_unsigned R)%float = 0.5%float.
Proof.
  intros Hs HR. apply Prim2SF_inj.
  rewrite FloatAxioms.div_spec, Hs, Prim2SF_of_unsigned by lia.
  destruct R as [|q|q]; try lia. cbn [dyadic]. unfold canon, SF64div.
  assert (digits q ≤ 32) by (apply digits_le_iff; lia). pose proof (digits_pos q).
  destruct (canon_mantissa q ltac:(lia)) as [_ Hd].
  replace (-1 - (53 - digits q)) with (0 - (53 - digits q) - 1) by lia.
  apply SFdiv_half; [done | lia].
Qed.

(** ** monte_carlo_pvalue *)

Lemma weighted_from_zero m l :
  Forall (λ x, 0 ≤ x) l → num_unique_of l = 0 → weighted_from m l = 0.
Proof.
  intros Hl. revert m. induction Hl as [|x l Hx Hl IH]; intros m HU; [done|].
  change (x + num_unique_of l = 0) in HU. pose proof (num_unique_of_nonneg l Hl).
  cbn [weighted_from]. rewrite IH by lia. assert (x = 0) as -> by lia. lia.
Qed.

Section PvalueProofs.

Variable lgamma : double → double.
Variable log : double → double.
Variable mt19937 : Type.
Variable mt19937_seed : Z → mt19937.
Variable uniform_int : Z → Z → mt19937 → Z * mt19937.

Lemma draw_balls_profile (d : BallDrawer mt19937) buf N :
  0 ≤ N < 2 ^ 32 →
  ∃ dd d',
    draw_balls uniform_int d buf N = Returns (dd, d')
    ∧ Forall is_unsigned dd
    ∧ Z.of_nat (length dd) ≤ N
    ∧ num_draws_of dd = N
    ∧ dist_a d' = dist_a d ∧ dist_b d' = dist_b d.
Proof.
  intros HN. unfold draw_balls.
  destruct (draw_loop_returns uniform_int (Z.to_nat N) [] d profile_ok_nil)
    as (dd & d' & Hrun & [Hdd Hlen] & HNdd & Ha & Hb).
  { unfold num_draws_of. simpl. lia. }
  assert (num_draws_of dd = N) as HN' by (rewrite HNdd; unfold num_draws_of; simpl; lia).
  exists dd, d'. split; [done|]. split; [|split; [lia|done]].
  apply Forall_lookup. intros i x Hi.
  pose proof (entry_le_num_draws dd i x Hdd Hi).
  pose proof (Forall_lookup_1 _ dd i x Hdd Hi). unfold is_unsigned. simpl in *. lia.
Qed.

Lemma draw_calls_returns n (d : BallDrawer mt19937) N :
  0 ≤ N < 2 ^ 32 →
  returns (draw_calls uniform_int d (replicate n ([], N))).
Proof.
  intros HN. revert d. induction n as [|n IH]; intros d.
  - by eexists.
  - cbn [replicate draw_calls].
    destruct (draw_balls_profile d [] N HN) as (dd & d' & -> & _).
    cbn [mbind outcome_bind]. destruct (IH d') as [[dds d2] ->]. by eexists.
Qed.

Lemma pvalue_loop_spec n M N ref_log_p (d : BallDrawer mt19937) buf score h :
  0 ≤ N < 2 ^ 32 →
  Prim2SF score = dyadic h (-1) → 0 ≤ h → h + 2 * Z.of_nat n < 2 ^ 53 →
  pvalue_loop lgamma log uniform_int n M N ref_log_p (d, buf, score)
  ≫= (λ st, Returns st.2)
  = '(profiles, _) ← draw_calls uniform_int d (replicate n ([], N));
    sims ← mapM (λ dd, calculate_log_probability lgamma log dd M) profiles;
    Returns (foldl (λ acc sim, (acc + tie_contribution ref_log_p sim)%float) score sims).
Proof.
  intros HN. revert d buf score h. induction n as [|n IH]; intros d buf score h Hs Hh Hhn.
  - done.
  - cbn [pvalue_loop replicate draw_calls].
    change (draw_balls uniform_int d buf N) with (draw_balls uniform_int d [] N).
    destruct (draw_balls uniform_int d [] N) as [[dd d1]| |]; [|done..].
    cbn [mbind outcome_bind].
    destruct (draw_calls_returns n d1 N HN) as [[dds d2] Hdraws].
    rewrite Hdraws. cbn [mbind outcome_bind mapM].
    destruct (calculate_log_probability lgamma log dd M) as [lp| |]; [|done..].
    cbn [mbind outcome_bind].
    destruct (score_update_shape score h (ref_log_p - lp)%float Hs Hh ltac:(lia))
      as (h' & Hs' & Hh' & _).
    specialize (IH d1 dd _ h' Hs' ltac:(lia) ltac:(lia)).
    rewrite IH, Hdraws. cbn [mbind outcome_bind].
    rewrite (score_update_contribution score h) by (done || lia).
    by destruct (mapM _ dds).
Qed.

Lemma pvalue_loop_score n M N ref_log_p (d : BallDrawer mt19937) buf score h st' :
  Prim2SF score = dyadic h (-1) → 0 ≤ h → h + 2 * Z.of_nat n < 2 ^ 53 →
  pvalue_loop lgamma log uniform_int n M N ref_log_p (d, buf, score) = Returns st' →
  ∃ h', Prim2SF st'.2 = dyadic h' (-1) ∧ h ≤ h' ≤ h + 2 * Z.of_nat n.
Proof.
  revert d buf score h. induction n as [|n IH]; intros d buf score h Hs Hh Hhn Hrun.
  - injection Hrun as <-. exists h. split; [done | lia].
  - cbn [pvalue_loop] in Hrun.
    destruct (draw_balls uniform_int d buf N) as [[dd d1]| |]; [|done..].
    cbn [mbind outcome_bind] in Hrun.
    destruct (calculate_log_probability lgamma log dd M) as [lp| |]; [|done..].
    cbn [mbind outcome_bind] in Hrun.
    destruct (score_update_shape score h (ref_log_p - lp)%float Hs Hh ltac:(lia))
      as (h1 & Hs1 & Hh1 & _).
    destruct (IH d1 dd _ h1 Hs1 ltac:(lia) ltac:(lia) Hrun) as (h' & Hs' & Hh').
    exists h'. split; [done | lia].
Qed.

Lemma trial_returns (d : BallDrawer mt19937) buf M N :
  uniform_contract uniform_int →
  0 ≤ M < 2 ^ 32 → 0 ≤ N ≤ 2 ^ 32 - 2 → (M = 0 → N = 0) →
  dist_a d = 0 → dist_b d = wrap32 (M - 1) →
  ∃ dd d' lp,
    draw_balls uniform_int d buf N = Returns (dd, d')
    ∧ calculate_log_probability lgamma log dd M = Returns lp
    ∧ dist_a d' = 0 ∧ dist_b d' = wrap32 (M - 1).
Proof.
  intros Hu HM HN HM0 Ha Hb.
  destruct (draw_balls_profile d buf N ltac:(lia))
    as (dd & d' & Hrun & Hdd & Hlen & HNdd & Ha' & Hb').
  assert (num_unique_of dd ≤ M) as HU.
  { destruct (Z.eq_dec M 0) as [->|HMne].
    - rewrite HM0 in Hrun by done. unfold draw_balls in Hrun. simpl in Hrun.
      by injection Hrun as <- _.
    - unfold draw_balls in Hrun.
      assert (dist_b d = M - 1) as Hb1 by (rewrite Hb, wrap32_small; lia).
      assert (num_draws_of [] + Z.of_nat (Z.to_nat N) < 2 ^ 32) as HN0
        by (unfold num_draws_of; simpl; lia).
      assert (num_unique_of [] ≤ M) as HU0 by (simpl; lia).
      exact (draw_loop_unique_bound mt19937 uniform_int (Z.to_nat N) [] d M Hu Ha Hb1
               ltac:(lia) profile_ok_nil HN0 HU0 dd d' Hrun). }
  exists dd, d'. eexists. split; [done|]. split; [|split; congruence].
  rewrite calculate_log_probability_spec by (done || lia). rewrite HNdd.
  Zbool_true (N <? 2 ^ 32).
  by Zbool_true (num_unique_of dd <=? M).
Qed.

Lemma pvalue_loop_returns n M N ref_log_p (d : BallDrawer mt19937) buf score :
  uniform_contract uniform_int →
  0 ≤ M < 2 ^ 32 → 0 ≤ N ≤ 2 ^ 32 - 2 → (M = 0 → N = 0) →
  dist_a d = 0 → dist_b d = wrap32 (M - 1) →
  returns (pvalue_loop lgamma log uniform_int n M N ref_log_p (d, buf, score)).
Proof.
  intros Hu HM HN HM0. revert d buf score.
  induction n as [|n IH]; intros d buf score Ha Hb.
  - by eexists.
  - cbn [pvalue_loop].
    destruct (trial_returns d buf M N Hu HM HN HM0 Ha Hb) as (dd & d' & lp & -> & Hlp & Ha' & Hb').
    cbn [mbind outcome_bind]. rewrite Hlp. cbn [mbind outcome_bind].
    by apply IH.
Qed.

End PvalueProofs.

(** ** The empty profile *)

Lemma SFsub_diag s m e :
  SFsub prec emax (S754_finite s m e) (S754_finite s m e) = S754_zero false.
Proof.
  cbn [SFsub]. by rewrite Z.sub_diag.
Qed.

Lemma empty_profile_value (a L G : double) :
  a = 0%float → is_finite L = true → is_finite G = true →
  (a - 0 + L - L - of_unsigned 0 * G)%float = 0%float.
Proof.
  intros -> HL HG. change (of_unsigned 0) with 0%float.
  change (0 - 0)%float with 0%float.
  apply Prim2SF_inj.
  rewrite FloatAxioms.sub_spec, FloatAxioms.mul_spec, FloatAxioms.sub_spec,
    FloatAxioms.add_spec.
  change (Prim2SF 0) with (S754_zero false).
  unfold is_finite in HL, HG.
  assert (SF64sub (SF64add (S754_zero false) (Prim2SF L)) (Prim2SF L) = S754_zero false) as ->.
  { destruct (Prim2SF L) as [[]|[]| |s m e]; try done.
    unfold SF64add, SF64sub. cbn [SFadd]. apply SFsub_diag. }
  by destruct (Prim2SF G) as [[]|[]| |[] m e].
Qed.

Lemma num_draws_of_nonneg dd : Forall is_unsigned dd → 0 ≤ num_draws_of dd.
Proof.
  intros Hdd. apply weighted_from_nonneg; [lia|].
  eapply Forall_impl; eauto. intros ? []; lia.
Qed.

Lemma foldl_ties ref_log_p sims score h :
  Prim2SF score = dyadic h (-1) → 0 ≤ h → h + Z.of_nat (length sims) < 2 ^ 53 →
  Forall (λ sim, (abs (ref_log_p - sim) <? tie_tolerance)%float = true) sims →
  Prim2SF (foldl (λ acc sim, (acc + tie_contribution ref_log_p sim)%float) score sims)
  = dyadic (h + Z.of_nat (length sims)) (-1).
Proof.
  intros Hs Hh Hlen Hties. revert score h Hs Hh Hlen.
  induction Hties as [|sim sims Htie Hties IH]; intros score h Hs Hh Hlen.
  - simpl. by rewrite Z.add_0_r.
  - cbn [foldl length] in *. destruct Prim2SF_score_constants as (_ & Hhalf & _).
    rewrite (IH _ (h + 1)).
    + f_equal. lia.
    + unfold tie_contribution. cbv zeta. rewrite Htie.
      rewrite FloatAxioms.add_spec, Hs, Hhalf. apply dyadic_add; lia.
    + lia.
    + lia.
Qed.

Lemma draw_calls_length {S : Type} (u : Z → Z → S → Z * S) calls d profiles d' :
  draw_calls u d calls = Returns (profiles, d') → length profiles = length calls.
Proof.
  revert d profiles. induction calls as [|[buf n] calls IH]; intros d profiles Hrun.
  - by injection Hrun as <- _.
  - cbn [draw_calls] in Hrun.
    destruct (draw_balls u d buf n) as [[dd d1]| |]; [|done..].
    cbn [mbind outcome_bind] in Hrun.
    destruct (draw_calls u d1 calls) as [[dds d2]| |] eqn:Hrest;
      cbn [mbind outcome_bind] in Hrun; [|done..].
    injection Hrun as <- <-. simpl. f_equal. by eapply IH.
Qed.

Lemma mapM_outcome_length {A B} (f : A → outcome B) l k :
  mapM f l = Returns k → length k = length l.
Proof.
  revert k. induction l as [|x l IH]; intros k Hk.
  - by injection Hk as <-.
  - cbn [mapM] in Hk. destruct (f x) as [y| |]; [|done..].
    cbn [mbind outcome_bind] in Hk.
    destruct (mapM f l) as [k'| |]; cbn [mbind outcome_bind] in Hk; [|done..].
    injection Hk as <-. simpl. f_equal. by apply IH.
Qed.

Section ClaimProofs.

Variable lgamma : double → double.
Variable log : double → double.
Variable mt19937 : Type.
Variable mt19937_seed : Z → mt19937.
Variable uniform_int : Z → Z → mt19937 → Z * mt19937.

(** C1, as amended: for a profile [dd] of [unsigned] entries whose draw
    count [N = Σ m·dd[m-1]] is at most [2^32 - 2], and [U ≤ M ≤ 2^32 - 2],
    [calculate_log_probability] returns exactly the formula of the
    specification. *)
Theorem log_probability_formula_returned (dd : vec) (M : Z) :
  Forall is_unsigned dd → Z.of_nat (length dd) < 2 ^ 32 - 1 →
  num_draws_of dd ≤ 2 ^ 32 - 2 →
  num_unique_of dd ≤ M → M ≤ 2 ^ 32 - 2 →
  calculate_log_probability lgamma log dd M
  = Returns (log_probability_formula lgamma log dd M).
Proof.
  intros Hdd Hlen HN HU HM.
  rewrite calculate_log_probability_spec by done.
  Zbool_true (num_draws_of dd <? 2 ^ 32).
  Zbool_true (num_unique_of dd <=? M).
  by rewrite log_probability_returned_formula.
Qed.

(** C5, as amended: for a profile of [unsigned] entries whose draw count
    fits an [unsigned], the call dies on the assertion exactly when
    [M < U], and returns when [M ≥ U]. *)
Theorem log_probability_assertion (dd : vec) (M : Z) :
  Forall is_unsigned dd → Z.of_nat (length dd) < 2 ^ 32 - 1 →
  num_draws_of dd < 2 ^ 32 →
  (calculate_log_probability lgamma log dd M = AssertionFailed ↔ M < num_unique_of dd)
  ∧ (num_unique_of dd ≤ M → returns (calculate_log_probability lgamma log dd M)).
Proof.
  intros Hdd Hlen HN. rewrite calculate_log_probability_spec by done.
  Zbool_true (num_draws_of dd <? 2 ^ 32).
  destruct (Z.leb_spec (num_unique_of dd) M) as [Hle|Hlt].
  - split; [split; [done | lia]|]. intros _. by eexists.
  - split; [split; [lia | done]|]. lia.
Qed.

(** C6, as amended: [draw_balls] with no draw leaves the empty profile, and
    for [1 ≤ M ≤ 2^32 - 2] the log-probability of the empty profile is
    exactly [+0], [lgamma(1)] being [+0] and [lgamma(1 + M)], [log(M)]
    finite. *)
Theorem empty_profile (M seed : Z) (dd0 : vec) :
  (∃ d', draw_balls uniform_int (BallDrawer_new mt19937_seed M seed) dd0 0
         = Returns ([], d'))
  ∧ num_unique_of [] = 0
  ∧ (1 ≤ M ≤ 2 ^ 32 - 2 →
     lgamma 1%float = 0%float →
     is_finite (lgamma (of_unsigned (1 + M))) = true →
     is_finite (log (of_unsigned M)) = true →
     calculate_log_probability lgamma log [] M = Returns 0%float).
Proof.
  split; [by eexists|]. split; [done|]. intros HM H1 HL HG.
  rewrite calculate_log_probability_spec by (by constructor || (simpl; lia)).
  change (num_draws_of [] <? 2 ^ 32) with true. change (num_unique_of []) with 0.
  Zbool_true (0 <=? M).
  unfold log_probability_returned. cbv zeta.
  change (num_draws_of []) with 0. change (num_unique_of []) with 0.
  cbn [log_denom_from].
  rewrite Z.sub_0_r, !(wrap32_small (1 + M)) by lia.
  change (of_unsigned (wrap32 (1 + 0))) with 1%float. f_equal.
  by apply empty_profile_value.
Qed.

(** C7, as amended: with [num_repeats = 0] nothing is checked; when the
    reference profile is accepted by [calculate_log_probability] the call
    returns [0.0 / 0.0], a NaN. *)
Theorem pvalue_of_no_repeat (ref_dd : vec) (M seed : Z) (ref_log_p : double) :
  calculate_log_probability lgamma log ref_dd M = Returns ref_log_p →
  monte_carlo_pvalue lgamma log mt19937_seed uniform_int ref_dd M 0 seed
  = Returns nan.
Proof.
  intros Href. unfold monte_carlo_pvalue. rewrite Href. cbn [mbind outcome_bind].
  unfold calculate_log_probability in Href.
  destruct (log_prob_loop lgamma (length ref_dd) ref_dd 1 _) as [st| |] eqn:Hloop;
    [|done..].
  apply log_prob_loop_draws in Hloop. cbn [num_draws] in Hloop. rewrite Hloop.
  done.
Qed.

(** C4: [monte_carlo_pvalue] computes what the specification says of
    [estimate_pvalue]: the log-probability of the reference profile, [N]
    derived from it, [R] trials of [draw(N)] on one sampler seeded once,
    0.5, 1.0 or 0 added to an accumulator for each, and the accumulator
    divided by [R]; when every trial is within the tie tolerance (and
    there is one) the value returned is exactly 0.5. *)
Theorem monte_carlo_pvalue_as_specified (ref_dd : vec) (M R seed : Z) :
  Forall is_unsigned ref_dd → Z.of_nat (length ref_dd) < 2 ^ 32 - 1 →
  0 ≤ R < 2 ^ 32 →
  monte_carlo_pvalue lgamma log mt19937_seed uniform_int ref_dd M R seed
  = estimate_pvalue_spec lgamma log mt19937_seed uniform_int ref_dd M R seed
  ∧ (1 ≤ R →
     ∀ ref_log_p sims,
       calculate_log_probability lgamma log ref_dd M = Returns ref_log_p →
       simulated_log_probabilities lgamma log mt19937_seed uniform_int
         M (num_draws_of ref_dd) R seed = Returns sims →
       Forall (λ sim, (abs (ref_log_p - sim) <? tie_tolerance)%float = true) sims →
       monte_carlo_pvalue lgamma log mt19937_seed uniform_int ref_dd M R seed
       = Returns 0.5%float).
Proof.
  intros Hdd Hlen HR.
  assert (monte_carlo_pvalue lgamma log mt19937_seed uniform_int ref_dd M R seed
          = estimate_pvalue_spec lgamma log mt19937_seed uniform_int ref_dd M R seed)
    as Heq.
  { unfold monte_carlo_pvalue, estimate_pvalue_spec.
    destruct (calculate_log_probability lgamma log ref_dd M) as [lp| |] eqn:Href;
      [|done..].
    destruct (ref_draws_loop_spec lgamma log ref_dd M lp Hdd Hlen Href)
      as (-> & HN & _ & _).
    cbn [mbind outcome_bind].
    pose proof (num_draws_of_nonneg ref_dd Hdd) as HN0.
    pose proof (pvalue_loop_spec lgamma log mt19937 uniform_int (Z.to_nat R) M
                  (num_draws_of ref_dd) lp (BallDrawer_new mt19937_seed M seed)
                  (vec_resize [] (num_draws_of ref_dd)) 0%float 0
                  ltac:(lia) eq_refl ltac:(lia) ltac:(lia)) as Hloop.
    unfold simulated_log_probabilities.
    destruct (pvalue_loop _ _ _ _ _ _ _ _) as [[[d1 buf1] score1]| |];
      cbn [mbind outcome_bind] in Hloop |- *;
      destruct (draw_calls _ _ _) as [[profiles d2]| |];
      cbn [mbind outcome_bind] in Hloop |- *; try done;
      destruct (mapM _ profiles) as [sims| |];
      cbn [mbind outcome_bind] in Hloop |- *; try done.
    by injection Hloop as ->. }
  split; [done|]. intros HR1 ref_log_p sims Href Hsims Hties.
  rewrite Heq. unfold estimate_pvalue_spec. rewrite Href, Hsims.
  cbn [mbind outcome_bind]. f_equal.
  assert (length sims = Z.to_nat R) as Hlen_sims.
  { unfold simulated_log_probabilities in Hsims.
    destruct (draw_calls _ _ _) as [[profiles d2]| |] eqn:Hdraws; [|done..].
    cbn [mbind outcome_bind] in Hsims.
    rewrite (mapM_outcome_length _ _ _ Hsims), (draw_calls_length _ _ _ _ _ Hdraws).
    apply length_replicate. }
  apply tie_score_ratio; [|lia].
  rewrite (foldl_ties ref_log_p sims 0%float 0); try done; try lia.
  f_equal. lia.
Qed.

(** C8: for [M ≥ U] and [R ≥ 1] the value [monte_carlo_pvalue] returns lies
    in [[0, 1]]; and it does return one when the reference profile has
    [unsigned] entries and a draw count of at most [2^32 - 2]. *)
Theorem pvalue_in_unit_interval (ref_dd : vec) (M R seed : Z) :
  uniform_contract uniform_int →
  Forall is_unsigned ref_dd → Z.of_nat (length ref_dd) < 2 ^ 32 - 1 →
  0 ≤ M < 2 ^ 32 → num_unique_of ref_dd ≤ M → 1 ≤ R < 2 ^ 32 →
  (∀ v, monte_carlo_pvalue lgamma log mt19937_seed uniform_int ref_dd M R seed
        = Returns v →
        (0 <=? v)%float = true ∧ (v <=? 1)%float = true)
  ∧ (num_draws_of ref_dd ≤ 2 ^ 32 - 2 →
     returns (monte_carlo_pvalue lgamma log mt19937_seed uniform_int ref_dd M R seed)).
Proof.
  intros Hu Hdd Hlen HM HU HR. split.
  - intros v Hv. unfold monte_carlo_pvalue in Hv.
    destruct (calculate_log_probability lgamma log ref_dd M) as [lp| |]; [|done..].
    cbn [mbind outcome_bind] in Hv.
    destruct (ref_draws_loop _ _ _ _) as [N| |]; [|done..].
    cbn [mbind outcome_bind] in Hv.
    destruct (pvalue_loop _ _ _ _ _ _ _ _) as [[[d1 buf1] score1]| |] eqn:Hloop;
      [|done..].
    cbn [mbind outcome_bind] in Hv. injection Hv as <-.
    destruct (pvalue_loop_score lgamma log mt19937 uniform_int (Z.to_nat R) M N lp
                _ _ 0%float 0 _ eq_refl ltac:(lia) ltac:(lia) Hloop)
      as (h' & Hs' & Hh').
    apply (pvalue_in_unit h' R); [done | lia | lia].
  - intros HN. unfold monte_carlo_pvalue.
    assert (Forall (λ x, 0 ≤ x) ref_dd) as Hnn
      by (eapply Forall_impl; eauto; intros ? []; lia).
    pose proof (num_unique_of_nonneg ref_dd Hnn) as HU0.
    pose proof (num_draws_of_nonneg ref_dd Hdd) as HN0.
    assert (calculate_log_probability lgamma log ref_dd M
            = Returns (log_probability_returned lgamma log ref_dd M)) as Href.
    { rewrite calculate_log_probability_spec by done.
      Zbool_true (num_draws_of ref_dd <? 2 ^ 32).
      by Zbool_true (num_unique_of ref_dd <=? M). }
    set (lp := log_probability_returned lgamma log ref_dd M) in *.
    rewrite Href. cbn [mbind outcome_bind].
    destruct (ref_draws_loop_spec lgamma log ref_dd M lp Hdd Hlen Href) as (-> & _).
    cbn [mbind outcome_bind].
    destruct (pvalue_loop_returns lgamma log mt19937 uniform_int (Z.to_nat R) M
                (num_draws_of ref_dd) lp (BallDrawer_new mt19937_seed M seed)
                (vec_resize [] (num_draws_of ref_dd)) 0%float Hu HM ltac:(lia))
      as [[[d1 buf1] score1] ->]; try done.
    + intros ->. apply weighted_from_zero; [done | lia].
    + by eexists.
Qed.

End ClaimProofs.

(** ** The results as functions of the stream of draws *)

Lemma next_ball_nonneg {S : Type} (u : Z → Z → S → Z * S) d : 0 ≤ (next_ball u d).1.
Proof. unfold next_ball. destruct (u _ _ _). apply wrap32_range. Qed.

Lemma length_next_balls {S : Type} (u : Z → Z → S → Z * S) n d :
  length (next_balls u n d).1 = n.
Proof.
  revert d. induction n as [|n IH]; intros d; [done|].
  cbn [next_balls]. destruct (next_ball u d) as [r d1].
  specialize (IH d1). destruct (next_balls u n d1) as [rs d2]. simpl in *. by rewrite IH.
Qed.

Lemma next_balls_add {S : Type} (u : Z → Z → S → Z * S) n m d :
  next_balls u (n + m) d
  = ((next_balls u n d).1 ++ (next_balls u m (next_balls u n d).2).1,
     (next_balls u m (next_balls u n d).2).2).
Proof.
  revert d. induction n as [|n IH]; intros d.
  - simpl. by destruct (next_balls u m d).
  - cbn [Nat.add next_balls]. destruct (next_ball u d) as [r d1].
    rewrite (IH d1). destruct (next_balls u n d1) as [rs d2]. simpl.
    by destruct (next_balls u m d2).
Qed.

Lemma draw_loop_stream {S : Type} (u : Z → Z → S → Z * S) n dd d :
  profile_ok dd → num_draws_of dd + Z.of_nat n < 2 ^ 32 →
  draw_loop u n (dd, d)
  = Returns (foldl draw_step_spec dd (next_balls u n d).1, (next_balls u n d).2).
Proof.
  revert dd d. induction n as [|n IH]; intros dd d Hok HN; [done|].
  cbn [draw_loop next_balls]. rewrite draw_step_returns by (done || lia).
  cbn [mbind outcome_bind].
  pose proof (next_ball_nonneg u d) as Hr.
  destruct (next_ball u d) as [r d1]. simpl in *.
  destruct (draw_step_spec_sums dd r (proj1 Hok) Hr) as (_ & HN1 & _ & _).
  rewrite IH by (by apply draw_step_spec_ok || lia).
  by destruct (next_balls u n d1) as [rs d2].
Qed.

Lemma draw_balls_stream {S : Type} (u : Z → Z → S → Z * S) d buf N :
  0 ≤ N < 2 ^ 32 →
  draw_balls u d buf N
  = Returns (profile_of_balls (next_balls u (Z.to_nat N) d).1,
             (next_balls u (Z.to_nat N) d).2).
Proof.
  intros HN. unfold draw_balls, profile_of_balls.
  apply draw_loop_stream; [apply profile_ok_nil|].
  unfold num_draws_of. simpl. lia.
Qed.

Lemma draw_calls_stream {S : Type} (u : Z → Z → S → Z * S) d calls :
  Forall (λ c, 0 ≤ c.2 < 2 ^ 32) calls →
  draw_calls u d calls
  = Returns (profiles_of_stream (next_balls u (total_draws calls.*2) d).1 calls.*2,
             (next_balls u (total_draws calls.*2) d).2).
Proof.
  intros Hcalls. revert d. induction Hcalls as [|[buf N] calls HN Hcalls IH]; intros d.
  - done.
  - cbn [draw_calls fmap list_fmap snd total_draws foldr profiles_of_stream].
    fold (total_draws calls.*2). simpl in HN.
    rewrite draw_balls_stream by done. cbn [mbind outcome_bind].
    rewrite IH. cbn [mbind outcome_bind]. rewrite next_balls_add. cbn [fst snd].
    rewrite take_app_length', drop_app_length' by (by rewrite length_next_balls).
    done.
Qed.

Lemma total_draws_replicate n N : total_draws (replicate n N) = (n * Z.to_nat N)%nat.
Proof. induction n as [|n IH]; [done|]. simpl. rewrite IH. lia. Qed.

Section Determinism.

Variable lgamma : double → double.
Variable log : double → double.
Variable mt19937 : Type.
Variable mt19937_seed : Z → mt19937.
Variable uniform_int : Z → Z → mt19937 → Z * mt19937.

Lemma monte_carlo_loop_calls n M N (d : BallDrawer mt19937) buf out :
  0 ≤ N < 2 ^ 32 →
  monte_carlo_loop lgamma log uniform_int n M N (d, buf, out)
  ≫= (λ st, Returns st.2)
  = '(profiles, _) ← draw_calls uniform_int d (replicate n ([], N));
    lps ← mapM (λ dd, calculate_log_probability lgamma log dd M) profiles;
    Returns (out ++ zip_with (mkReportLine M N) lps profiles).
Proof.
  intros HN. revert d buf out. induction n as [|n IH]; intros d buf out.
  - cbn [monte_carlo_loop replicate draw_calls mbind outcome_bind mapM mret
         outcome_ret zip_with snd]. by rewrite app_nil_r.
  - cbn [monte_carlo_loop replicate draw_calls].
    change (draw_balls uniform_int d buf N) with (draw_balls uniform_int d [] N).
    destruct (draw_balls uniform_int d [] N) as [[dd d1]| |]; [|done..].
    cbn [mbind outcome_bind].
    destruct (draw_calls_returns mt19937 uniform_int n d1 N HN) as [[dds d2] Hdraws].
    rewrite Hdraws. cbn [mbind outcome_bind mapM].
    destruct (calculate_log_probability lgamma log dd M) as [lp| |]; [|done..].
    cbn [mbind outcome_bind].
    rewrite IH, Hdraws. cbn [mbind outcome_bind].
    destruct (mapM _ dds) as [lps| |]; [|done..].
    cbn [mbind outcome_bind mret outcome_ret zip_with].
    by rewrite <- (assoc_L (++)).
Qed.

(** C9: sampling is deterministic in the seed. Over a history of draw
    counts a sampler built from [(M, seed)] leaves the profiles of the
    stream of draws of the generator seeded with [seed], each call taking
    the balls the stream gives next, one for each draw, whatever the
    vectors passed in held: two such samplers taken through the same
    history leave the same profiles, and so does any sampler whose generator
    gives the same balls. What [monte_carlo] writes and what
    [monte_carlo_pvalue] returns is fixed by their arguments and that
    stream: the profiles they go through are the [R] next runs of [N]
    balls. *)
Theorem sampling_deterministic
    (M seed : Z) (calls1 calls2 : list (vec * Z)) (N R : Z) (ref_dd : vec) :
  Forall (λ c, 0 ≤ c.2 < 2 ^ 32) calls1 → calls1.*2 = calls2.*2 →
  0 ≤ N < 2 ^ 32 → 0 ≤ R < 2 ^ 32 →
  Forall is_unsigned ref_dd → Z.of_nat (length ref_dd) < 2 ^ 32 - 1 →
  let d := BallDrawer_new mt19937_seed M seed in
  let balls Ns := (next_balls uniform_int (total_draws Ns) d).1 in
  let trials n := replicate (Z.to_nat R) n in
  (∃ d',
     draw_calls uniform_int d calls1
     = Returns (profiles_of_stream (balls calls1.*2) calls1.*2, d')
     ∧ draw_calls uniform_int d calls2
       = Returns (profiles_of_stream (balls calls1.*2) calls1.*2, d'))
  ∧ (∀ (S' : Type) (u' : Z → Z → S' → Z * S') (d2 : BallDrawer S'),
       (next_balls u' (total_draws calls2.*2) d2).1 = balls calls1.*2 →
       draw_calls u' d2 calls2 ≫= (λ r, Returns r.1)
       = draw_calls uniform_int d calls1 ≫= (λ r, Returns r.1))
  ∧ monte_carlo lgamma log mt19937_seed uniform_int M N R seed
    = (let profiles := profiles_of_stream (balls (trials N)) (trials N) in
       lps ← mapM (λ dd, calculate_log_probability lgamma log dd M) profiles;
       Returns (zip_with (mkReportLine M N) lps profiles))
  ∧ monte_carlo_pvalue lgamma log mt19937_seed uniform_int ref_dd M R seed
    = (ref_log_p ← calculate_log_probability lgamma log ref_dd M;
       let Nref := num_draws_of ref_dd in
       let profiles := profiles_of_stream (balls (trials Nref)) (trials Nref) in
       sims ← mapM (λ dd, calculate_log_probability lgamma log dd M) profiles;
       Returns
         (foldl (λ acc sim, (acc + tie_contribution ref_log_p sim)%float) 0%float sims
          / of_unsigned R)%float).
Proof.
  intros Hcalls Hsame HN HR Hdd Hlen d balls trials.
  assert (Forall (λ c, 0 ≤ c.2 < 2 ^ 32) calls2) as Hcalls2.
  { rewrite <- (Forall_fmap snd (λ n, 0 ≤ n < 2 ^ 32)) in Hcalls |- *. by rewrite <- Hsame. }
  assert (∀ n, 0 ≤ n < 2 ^ 32 →
            draw_calls uniform_int d (replicate (Z.to_nat R) ([], n))
            = Returns (profiles_of_stream (balls (trials n)) (trials n),
                       (next_balls uniform_int (total_draws (trials n)) d).2)) as Htrials.
  { intros n Hn. rewrite draw_calls_stream by (apply Forall_replicate; simpl; lia).
    by rewrite fmap_replicate. }
  split; [|split; [|split]].
  - exists (next_balls uniform_int (total_draws calls1.*2) d).2.
    rewrite (draw_calls_stream uniform_int d calls1 Hcalls).
    rewrite (draw_calls_stream uniform_int d calls2 Hcalls2). by rewrite Hsame.
  - intros S' u' d2 Hballs.
    rewrite (draw_calls_stream uniform_int d calls1 Hcalls).
    rewrite (draw_calls_stream u' d2 calls2 Hcalls2).
    cbn [mbind outcome_bind fst]. unfold balls in Hballs. by rewrite Hballs, Hsame.
  - unfold monte_carlo.
    pose proof (monte_carlo_loop_calls (Z.to_nat R) M N d (vec_resize [] N) [] HN)
      as Hloop.
    rewrite (Htrials N HN) in Hloop. cbn [mbind outcome_bind] in Hloop.
    fold d. cbv zeta.
    destruct (monte_carlo_loop _ _ _ _ _ _ _) as [[[d1 buf1] out]| |];
      destruct (mapM _ _) as [lps| |];
      cbn [mbind outcome_bind snd app] in Hloop |- *; done.
  - unfold monte_carlo_pvalue. fold d.
    destruct (calculate_log_probability lgamma log ref_dd M) as [lp| |] eqn:Href;
      [|done..].
    destruct (ref_draws_loop_spec lgamma log ref_dd M lp Hdd Hlen Href)
      as (-> & HNref & _ & _).
    cbn [mbind outcome_bind]. cbv zeta.
    pose proof (num_draws_of_nonneg ref_dd Hdd) as HN0.
    pose proof (pvalue_loop_spec lgamma log mt19937 uniform_int (Z.to_nat R) M
                  (num_draws_of ref_dd) lp d
                  (vec_resize [] (num_draws_of ref_dd)) 0%float 0
                  ltac:(lia) eq_refl ltac:(lia) ltac:(lia)) as Hloop.
    rewrite (Htrials (num_draws_of ref_dd) ltac:(lia)) in Hloop.
    cbn [mbind outcome_bind] in Hloop.
    destruct (pvalue_loop _ _ _ _ _ _ _ _) as [[[d1 buf1] score1]| |];
      destruct (mapM _ _) as [sims| |];
      cbn [mbind outcome_bind snd] in Hloop |- *; try done.
    by injection Hloop as ->.
Qed.

End Determinism.

(** ** The claims at concrete inputs *)

Lemma draw_balls_conservation_witness :
  ∃ dd d',
    draw_balls lcg_uniform_int (BallDrawer_new lcg_seed 3 42) [] 3 = Returns (dd, d')
    ∧ num_draws_of dd = 3 ∧ num_unique_of dd ≤ 3.
Proof.
  apply (draw_balls_conservation Z lcg_seed lcg_uniform_int 3 3 42 []);
    [apply lcg_uniform_int_contract | lia | lia].
Defined.

Lemma draw_balls_in_bounds_witness :
  returns (draw_balls lcg_uniform_int (BallDrawer_new lcg_seed 5 42) [7; 7] 30).
Proof.
  apply (draw_balls_in_bounds Z lcg_seed lcg_uniform_int 5 30 42 [7; 7]). lia.
Defined.

Lemma draw_step_as_specified_witness :
  ∃ dd d,
    draw_loop lcg_uniform_int 1 ([], BallDrawer_new lcg_seed 3 42) = Returns (dd, d)
    ∧ draw_loop lcg_uniform_int 2 ([], BallDrawer_new lcg_seed 3 42)
      = Returns (draw_step_spec dd (next_ball lcg_uniform_int d).1,
                 (next_ball lcg_uniform_int d).2).
Proof.
  destruct (draw_step_as_specified Z lcg_seed lcg_uniform_int 3 3 42 1)
    as (dd & d & H1 & H2 & _); [lia | simpl; lia |].
  exists dd, d. split; [exact H1 | exact H2].
Defined.

Lemma sampling_deterministic_witness :
  ∃ d',
    draw_calls lcg_uniform_int (BallDrawer_new lcg_seed 3 42) [([], 3); ([1; 1], 2)]
    = Returns (profiles_of_stream
                 (next_balls lcg_uniform_int 5 (BallDrawer_new lcg_seed 3 42)).1 [3; 2],
               d')
    ∧ draw_calls lcg_uniform_int (BallDrawer_new lcg_seed 3 42) [([9], 3); ([], 2)]
      = Returns (profiles_of_stream
                   (next_balls lcg_uniform_int 5 (BallDrawer_new lcg_seed 3 42)).1 [3; 2],
                 d').
Proof.
  destruct (sampling_deterministic sample_lgamma sample_log Z lcg_seed lcg_uniform_int
              3 42 [([], 3); ([1; 1], 2)] [([9], 3); ([], 2)] 2 2 [1; 1])
    as [H _].
  - repeat constructor; simpl; lia.
  - reflexivity.
  - lia.
  - lia.
  - repeat constructor; lia.
  - simpl; lia.
  - exact H.
Defined.

Lemma log_probability_formula_returned_witness :
  calculate_log_probability sample_lgamma sample_log [27; 22; 25; 8; 2; 2] 100
  = Returns (log_probability_formula sample_lgamma sample_log [27; 22; 25; 8; 2; 2] 100).
Proof.
  apply (log_probability_formula_returned sample_lgamma sample_log
           [27; 22; 25; 8; 2; 2] 100).
  - repeat constructor; lia.
  - simpl; lia.
  - vm_compute; discriminate.
  - vm_compute; discriminate.
  - lia.
Defined.

Lemma log_probability_assertion_witness :
  calculate_log_probability sample_lgamma sample_log [1; 1] 1 = AssertionFailed
  ∧ returns (calculate_log_probability sample_lgamma sample_log [1; 1] 2).
Proof.
  split.
  - apply (log_probability_assertion sample_lgamma sample_log [1; 1] 1);
      [repeat constructor; lia | simpl; lia | vm_compute; reflexivity
      | vm_compute; reflexivity].
  - apply (log_probability_assertion sample_lgamma sample_log [1; 1] 2);
      [repeat constructor; lia | simpl; lia | vm_compute; reflexivity
      | vm_compute; discriminate].
Defined.

Lemma empty_profile_witness :
  calculate_log_probability sample_lgamma sample_log [] 100 = Returns 0%float.
Proof.
  apply (empty_profile sample_lgamma sample_log Z lcg_seed lcg_uniform_int 100 0 []);
    [lia | reflexivity | reflexivity | reflexivity].
Defined.

Lemma pvalue_of_no_repeat_witness :
  monte_carlo_pvalue sample_lgamma sample_log lcg_seed lcg_uniform_int [1; 1] 3 0 0
  = Returns nan.
Proof.
  eapply (pvalue_of_no_repeat sample_lgamma sample_log Z lcg_seed lcg_uniform_int
            [1; 1] 3 0).
  vm_compute. reflexivity.
Defined.

Lemma monte_carlo_pvalue_as_specified_witness :
  monte_carlo_pvalue sample_lgamma sample_log lcg_seed lcg_uniform_int [0; 1] 1 5 7
  = Returns 0.5%float.
Proof.
  eapply (proj2 (monte_carlo_pvalue_as_specified sample_lgamma sample_log Z lcg_seed
                   lcg_uniform_int [0; 1] 1 5 7 _ _ _)).
  - lia.
  - vm_compute. reflexivity.
  - vm_compute. reflexivity.
  - repeat constructor.
  Unshelve.
  + repeat constructor; lia.
  + simpl; lia.
  + lia.
Defined.

Lemma pvalue_in_unit_interval_witness :
  ∃ v, monte_carlo_pvalue sample_lgamma sample_log lcg_seed lcg_uniform_int
         [1; 1] 3 10 0 = Returns v
       ∧ (0 <=? v)%float = true ∧ (v <=? 1)%float = true.
Proof.
  destruct (pvalue_in_unit_interval sample_lgamma sample_log Z lcg_seed lcg_uniform_int
              [1; 1] 3 10 0) as [Hval Hret].
  - apply lcg_uniform_int_contract.
  - repeat constructor; lia.
  - simpl; lia.
  - lia.
  - vm_compute; discriminate.
  - lia.
  - destruct Hret as [v Hv]; [vm_compute; discriminate|].
    exists v. split; [exact Hv | exact (Hval v Hv)].
Defined.

(** ** Where the claims fail as stated *)

Lemma log_probability_formula_overflow :
  Forall is_unsigned [0; 2147483648]
  ∧ num_unique_of [0; 2147483648] ≤ 2147483648 < 2 ^ 32
  ∧ ∀ lgamma log,
      calculate_log_probability lgamma log [0; 2147483648] 2147483648 = Undefined.
Proof.
  split; [repeat constructor; lia|]. split; [simpl; lia|]. intros lgamma log.
  rewrite calculate_log_probability_spec; [done | repeat constructor; lia | simpl; lia].
Qed.

Lemma log_probability_assertion_missed :
  Forall is_unsigned [2147483648; 2147483648]
  ∧ 5 < num_unique_of [2147483648; 2147483648]
  ∧ ∀ lgamma log,
      calculate_log_probability lgamma log [2147483648; 2147483648] 5 = Undefined.
Proof.
  split; [repeat constructor; lia|]. split; [simpl; lia|]. intros lgamma log.
  rewrite calculate_log_probability_spec; [done | repeat constructor; lia | simpl; lia].
Qed.

Lemma empty_profile_of_empty_collection :
  sample_lgamma 1%float = 0%float ∧ sample_log 0%float = neg_infinity
  ∧ calculate_log_probability sample_lgamma sample_log [] 0 = Returns nan
  ∧ ∀ lgamma log,
      lgamma 1%float = 0%float → log 0%float = neg_infinity →
      calculate_log_probability lgamma log [] 0 = Returns nan.
Proof.
  split; [reflexivity|]. split; [reflexivity|]. split; [reflexivity|].
  intros lgamma log Hlgamma Hlog. unfold calculate_log_probability.
  cbn [length log_prob_loop mbind outcome_bind num_unique num_draws log_denom].
  change (1 <=? vec_size []) with false.
  cbn [mbind outcome_bind num_unique num_draws log_denom].
  change (0 <=? 0) with true. cbv iota.
  change (of_unsigned (wrap32 (1 + 0))) with 1%float.
  change (of_unsigned (wrap32 (wrap32 (1 + 0) - 0))) with 1%float.
  change (of_unsigned 0) with 0%float.
  by rewrite Hlgamma, Hlog.
Qed.

Lemma pvalue_of_no_repeat_returns :
  monte_carlo_pvalue sample_lgamma sample_log lcg_seed lcg_uniform_int [1; 1] 3 0 0
  = Returns nan
  ∧ (nan <=? 1)%float = false.
Proof. split; reflexivity. Qed.

(** * Further properties of the program *)

(** ** The shape of a sampled profile *)

Lemma incr_bin_no_trailing_zero dd b :
  Forall (λ x, 0 ≤ x) dd → (b ≤ length dd)%nat →
  no_trailing_zero dd ∨ S b = length dd ∨ b = length dd →
  no_trailing_zero (incr_bin dd b).
Proof.
  intros Hdd Hb Hlast x Hx. rewrite last_lookup in Hx.
  destruct (incr_bin_sums dd b Hb) as (_ & _ & HL).
  destruct (incr_bin_lookup dd b Hb) as [Hat Hother].
  rewrite HL in Hx. destruct (decide (b = length dd)) as [->|Hne].
  - simpl in Hx. rewrite Hat in Hx. injection Hx as <-.
    rewrite (lookup_ge_None_2 dd (length dd)) by lia. simpl. lia.
  - destruct (decide (b = pred (length dd))) as [->|Hnl].
    + rewrite Hat in Hx. injection Hx as <-.
      destruct (lookup_lt_is_Some_2 dd (pred (length dd)) ltac:(lia)) as [y Hy].
      rewrite Hy. simpl. pose proof (Forall_lookup_1 _ dd _ y Hdd Hy). simpl in *. lia.
    + rewrite Hother in Hx by done. rewrite <- last_lookup in Hx.
      destruct Hlast as [Hlast|[Hlast|Hlast]]; [by apply Hlast | lia | lia].
Qed.

Lemma draw_step_spec_no_trailing_zero dd r :
  Forall (λ x, 0 ≤ x) dd → 0 ≤ r → no_trailing_zero dd →
  no_trailing_zero (draw_step_spec dd r).
Proof.
  intros Hdd Hr Hlast. unfold draw_step_spec.
  destruct (Z.leb_spec (num_unique_of dd) r) as [Hge|Hlt].
  - apply incr_bin_no_trailing_zero; [done | lia | by left].
  - destruct (least_bin_hit dd r Hdd Hr Hlt) as (x & Hx & Hpos & _ & _).
    set (b := least_bin dd r) in *.
    assert (b < length dd)%nat as Hb by (by eapply lookup_lt_Some).
    assert (length (decr_bin dd b) = length dd) as Hlen by apply length_alter.
    destruct (decr_bin_lookup dd b) as [Hat Hother].
    apply incr_bin_no_trailing_zero.
    + unfold decr_bin. apply Forall_alter; [done|].
      intros y Hy. rewrite Hx in Hy. injection Hy as <-. lia.
    + lia.
    + rewrite Hlen. destruct (decide (S b = length dd)) as [|Hne]; [right; by right|].
      left. intros y Hy. rewrite last_lookup, Hlen, Hother in Hy by lia.
      rewrite <- last_lookup in Hy. by apply Hlast.
Qed.

Lemma draw_loop_no_trailing_zero {S : Type} (u : Z → Z → S → Z * S) n dd d dd' d' :
  profile_ok dd → num_draws_of dd + Z.of_nat n < 2 ^ 32 →
  no_trailing_zero dd →
  draw_loop u n (dd, d) = Returns (dd', d') → no_trailing_zero dd'.
Proof.
  revert dd d. induction n as [|n IH]; intros dd d Hok HN Hlast Hrun.
  - simpl in Hrun. by injection Hrun as <- _.
  - cbn [draw_loop] in Hrun. rewrite draw_step_returns in Hrun by (done || lia).
    cbn [mbind outcome_bind] in Hrun.
    set (r := (next_ball u d).1) in *.
    assert (0 ≤ r) as Hr.
    { unfold r, next_ball. destruct (u _ _ _). apply wrap32_range. }
    destruct (draw_step_spec_sums dd r (proj1 Hok) Hr) as (_ & HN1 & _ & _).
    eapply IH; [ | | | exact Hrun].
    + by apply draw_step_spec_ok.
    + lia.
    + apply draw_step_spec_no_trailing_zero; [apply Hok | done | done].
Qed.

Lemma no_trailing_zero_unique dd :
  Forall (λ x, 0 ≤ x) dd → no_trailing_zero dd → dd ≠ [] → 1 ≤ num_unique_of dd.
Proof.
  intros Hdd Hlast Hne.
  destruct (proj2 (last_is_Some dd) Hne) as [x Hx].
  pose proof (Hlast x Hx) as H1. rewrite last_lookup in Hx.
  pose proof (entry_le_num_unique dd _ x Hdd Hx). lia.
Qed.

Section SamplerShape.

Variable mt19937 : Type.
Variable mt19937_seed : Z → mt19937.
Variable uniform_int : Z → Z → mt19937 → Z * mt19937.

Lemma draw_balls_shape (d : BallDrawer mt19937) buf N :
  0 ≤ N < 2 ^ 32 →
  ∃ dd d',
    draw_balls uniform_int d buf N = Returns (dd, d')
    ∧ Forall is_unsigned dd
    ∧ Z.of_nat (length dd) ≤ N
    ∧ num_draws_of dd = N
    ∧ no_trailing_zero dd
    ∧ (1 ≤ N → 1 ≤ num_unique_of dd).
Proof.
  intros HN.
  destruct (draw_balls_profile mt19937 uniform_int d buf N HN)
    as (dd & d' & Hrun & Hdd & Hlen & HNdd & _).
  exists dd, d'. split; [done|]. split; [done|]. split; [done|]. split; [done|].
  assert (no_trailing_zero dd) as Hlast.
  { unfold draw_balls in Hrun.
    eapply (draw_loop_no_trailing_zero uniform_int (Z.to_nat N) [] d dd d');
      [apply profile_ok_nil | unfold num_draws_of; simpl; lia | | exact Hrun].
    intros x Hx. done. }
  split; [done|]. intros HN1.
  apply no_trailing_zero_unique; [|done|].
  - eapply Forall_impl; eauto. intros ? []; lia.
  - intros ->. unfold num_draws_of in HNdd. simpl in HNdd. lia.
Qed.

(** X1: the profile [draw_balls] leaves has entries that fit an
    [unsigned], no more positions than draws and no trailing zero; with at
    least one draw it counts at least one item. *)
Theorem draw_balls_no_trailing_zero (M N seed : Z) (dd0 : vec) :
  0 ≤ N < 2 ^ 32 →
  ∃ dd d',
    draw_balls uniform_int (BallDrawer_new mt19937_seed M seed) dd0 N = Returns (dd, d')
    ∧ Forall is_unsigned dd
    ∧ Z.of_nat (length dd) ≤ N
    ∧ (∀ x, last dd = Some x → 1 ≤ x)
    ∧ (1 ≤ N → 1 ≤ num_unique_of dd).
Proof.
  intros HN.
  destruct (draw_balls_shape (BallDrawer_new mt19937_seed M seed) dd0 N HN)
    as (dd & d' & Hrun & Hdd & Hlen & _ & Hlast & HU).
  by exists dd, d'.
Qed.

(** *** A collection of one item *)

Lemma least_bin_zeros k : least_bin (replicate k 0 ++ [1]) 0 = k.
Proof.
  induction k as [|k IH]; [done|].
  change (least_bin (0 :: (replicate k 0 ++ [1])) 0 = S k).
  cbn [least_bin]. change (0 <? 0) with false. change (0 - 0) with 0.
  by rewrite IH.
Qed.

Lemma num_unique_of_zeros k : num_unique_of (replicate k 0 ++ [1]) = 1.
Proof. induction k as [|k IH]; [done|]. simpl. exact IH. Qed.

Lemma num_draws_of_zeros k : num_draws_of (replicate k 0 ++ [1]) = Z.of_nat k + 1.
Proof.
  unfold num_draws_of. rewrite weighted_from_app, length_replicate.
  rewrite weighted_from_zero.
  - simpl. lia.
  - apply Forall_replicate. lia.
  - induction k as [|k IH]; [done|]. simpl. exact IH.
Qed.

Lemma draw_step_spec_zeros k :
  draw_step_spec (replicate k 0 ++ [1]) 0 = replicate (S k) 0 ++ [1].
Proof.
  unfold draw_step_spec. rewrite num_unique_of_zeros, least_bin_zeros.
  change (1 <=? 0) with false. cbv iota zeta.
  assert (decr_bin (replicate k 0 ++ [1]) k = replicate (S k) 0) as ->.
  { unfold decr_bin. rewrite replicate_S_end.
    rewrite alter_app_r_alt by (rewrite length_replicate; lia).
    by rewrite length_replicate, Nat.sub_diag. }
  unfold incr_bin. rewrite length_replicate.
  by destruct (decide (S k = S k)).
Qed.

Lemma draw_loop_single_item n k (d : BallDrawer mt19937) :
  uniform_contract uniform_int →
  dist_a d = 0 → dist_b d = 0 →
  Z.of_nat k + 1 + Z.of_nat n < 2 ^ 32 →
  ∃ d', draw_loop uniform_int n (replicate k 0 ++ [1], d)
        = Returns (replicate (k + n) 0 ++ [1], d').
Proof.
  intros Hu. revert k d. induction n as [|n IH]; intros k d Ha Hb Hk.
  - exists d. simpl. by rewrite Nat.add_0_r.
  - cbn [draw_loop].
    assert (profile_ok (replicate k 0 ++ [1])) as Hok.
    { split.
      - apply Forall_app. split; [apply Forall_replicate; lia | repeat constructor; lia].
      - rewrite num_draws_of_zeros, length_app, length_replicate. simpl. lia. }
    rewrite draw_step_returns by (done || (rewrite num_draws_of_zeros; lia)).
    cbn [mbind outcome_bind].
    pose proof (next_ball_contract mt19937 uniform_int d Hu ltac:(lia) ltac:(lia)) as Hr.
    assert ((next_ball uniform_int d).1 = 0) as -> by lia.
    rewrite draw_step_spec_zeros.
    destruct (IH (S k) (next_ball uniform_int d).2) as [d' Hrun].
    + unfold next_ball. by destruct (uniform_int _ _ _).
    + unfold next_ball. by destruct (uniform_int _ _ _).
    + lia.
    + exists d'. rewrite Hrun.
      by replace (k + S n)%nat with (S k + n)%nat by lia.
Qed.

(** X2: with a collection of one item every draw hits that item: after
    [N ≥ 1] draws the profile is [N - 1] zeros followed by a one. *)
Theorem draw_balls_single_item (N seed : Z) (dd0 : vec) :
  uniform_contract uniform_int → 1 ≤ N < 2 ^ 32 →
  ∃ d', draw_balls uniform_int (BallDrawer_new mt19937_seed 1 seed) dd0 N
        = Returns (replicate (Z.to_nat (N - 1)) 0 ++ [1], d').
Proof.
  intros Hu HN. unfold draw_balls.
  replace (Z.to_nat N) with (S (Z.to_nat (N - 1))) by lia.
  cbn [draw_loop].
  rewrite draw_step_returns by (apply profile_ok_nil || (unfold num_draws_of; simpl; lia)).
  cbn [mbind outcome_bind].
  assert (draw_step_spec [] (next_ball uniform_int (BallDrawer_new mt19937_seed 1 seed)).1
          = replicate 0 0 ++ [1]) as ->.
  { unfold draw_step_spec. change (num_unique_of []) with 0.
    assert (0 ≤ (next_ball uniform_int (BallDrawer_new mt19937_seed 1 seed)).1) as Hr
      by (unfold next_ball; destruct (uniform_int _ _ _); apply wrap32_range).
    by Zbool_true (0 <=? (next_ball uniform_int (BallDrawer_new mt19937_seed 1 seed)).1). }
  set (d1 := (next_ball uniform_int (BallDrawer_new mt19937_seed 1 seed)).2).
  destruct (draw_loop_single_item (Z.to_nat (N - 1)) 0 d1 Hu) as [d' Hrun].
  - unfold d1, next_ball. by destruct (uniform_int _ _ _).
  - unfold d1, next_ball. by destruct (uniform_int _ _ _).
  - lia.
  - by exists d'.
Qed.

End SamplerShape.

(** ** A draw step hits one item *)

Lemma items_from_app m l1 l2 :
  items_from m (l1 ++ l2) = items_from m l1 ++ items_from (m + length l1) l2.
Proof.
  revert m. induction l1 as [|x l1 IH]; intros m.
  - simpl. by rewrite Nat.add_0_r.
  - cbn [app items_from length]. rewrite IH, <- (assoc_L (++)).
    by replace (m + S (length l1))%nat with (S m + length l1)%nat by lia.
Qed.

Lemma length_items_from m dd :
  Forall (λ x, 0 ≤ x) dd →
  Z.of_nat (length (items_from m dd)) = num_unique_of dd.
Proof.
  intros Hdd. revert m. induction Hdd as [|x dd Hx Hdd IH]; intros m; [done|].
  cbn [items_from]. rewrite length_app, length_replicate, Nat2Z.inj_add, IH.
  change (num_unique_of (x :: dd)) with (x + num_unique_of dd). lia.
Qed.

Lemma items_from_ge m dd : Forall (λ c, m ≤ c)%nat (items_from m dd).
Proof.
  revert m. induction dd as [|x dd IH]; intros m; [constructor|].
  cbn [items_from]. apply Forall_app. split; [by apply Forall_replicate|].
  eapply Forall_impl; [apply IH|]. simpl. lia.
Qed.

Lemma items_from_sorted m dd : StronglySorted le (items_from m dd).
Proof.
  revert m. induction dd as [|x dd IH]; intros m; [constructor|].
  cbn [items_from]. apply StronglySorted_app_2; [| |apply IH].
  - intros c1 c2 [-> _]%elem_of_replicate Hc2.
    pose proof (items_from_ge (S m) dd) as Hge.
    rewrite Forall_forall in Hge. specialize (Hge c2 Hc2). lia.
  - induction (Z.to_nat x) as [|k IHk]; constructor; [done|].
    by apply Forall_replicate.
Qed.

Lemma sum_list_items_from m dd :
  Forall (λ x, 0 ≤ x) dd →
  Z.of_nat (sum_list (items_from m dd)) = weighted_from (Z.of_nat m) dd.
Proof.
  intros Hdd. revert m. induction Hdd as [|x dd Hx Hdd IH]; intros m; [done|].
  cbn [items_from weighted_from].
  rewrite sum_list_with_app, sum_list_replicate, Nat2Z.inj_add, IH.
  replace (Z.of_nat (S m)) with (Z.of_nat m + 1) by lia. lia.
Qed.

Lemma items_from_lookup m dd r :
  Forall (λ x, 0 ≤ x) dd → 0 ≤ r < num_unique_of dd →
  items_from m dd !! Z.to_nat r = Some (m + least_bin dd r)%nat.
Proof.
  intros Hdd. revert m r. induction Hdd as [|x dd Hx Hdd IH]; intros m r Hr.
  - simpl in Hr. lia.
  - change (num_unique_of (x :: dd)) with (x + num_unique_of dd) in Hr.
    cbn [items_from least_bin]. destruct (Z.ltb_spec r x) as [Hlt|Hge].
    + rewrite lookup_app_l by (rewrite length_replicate; lia).
      rewrite lookup_replicate_2 by lia. by rewrite Nat.add_0_r.
    + rewrite lookup_app_r by (rewrite length_replicate; lia).
      rewrite length_replicate.
      replace (Z.to_nat r - Z.to_nat x)%nat with (Z.to_nat (r - x)) by lia.
      rewrite IH by lia. f_equal. lia.
Qed.

Lemma items_from_add_one m dd b x :
  dd !! b = Some x → 0 ≤ x →
  items_from m (alter (Z.add 1) b dd) ≡ₚ (m + b)%nat :: items_from m dd.
Proof.
  revert m b. induction dd as [|y dd IH]; intros m b Hb Hx; [done|].
  destruct b as [|b]; cbn [alter list_alter items_from].
  - injection Hb as ->. rewrite Nat.add_0_r.
    by replace (Z.to_nat (1 + x)) with (S (Z.to_nat x)) by lia.
  - change (list_alter (Z.add 1) b dd) with (alter (Z.add 1) b dd).
    rewrite (IH (S m) b Hb Hx), <- Permutation_middle.
    by replace (S m + b)%nat with (m + S b)%nat by lia.
Qed.

Lemma items_from_take_one m dd b x :
  dd !! b = Some x → 0 < x →
  items_from m dd ≡ₚ (m + b)%nat :: items_from m (alter (λ x, x - 1) b dd).
Proof.
  revert m b. induction dd as [|y dd IH]; intros m b Hb Hx; [done|].
  destruct b as [|b]; cbn [alter list_alter items_from].
  - injection Hb as ->. rewrite Nat.add_0_r.
    by replace (Z.to_nat x) with (S (Z.to_nat (x - 1))) by lia.
  - change (list_alter (λ x, x - 1) b dd) with (alter (λ x, x - 1) b dd).
    rewrite (IH (S m) b Hb Hx), <- Permutation_middle.
    by replace (S m + b)%nat with (m + S b)%nat by lia.
Qed.

Lemma items_from_incr_bin m dd b :
  Forall (λ x, 0 ≤ x) dd → (b ≤ length dd)%nat →
  items_from m (incr_bin dd b) ≡ₚ (m + b)%nat :: items_from m dd.
Proof.
  intros Hdd Hb. unfold incr_bin. destruct (decide (b = length dd)) as [->|Hne].
  - rewrite items_from_app. simpl. by rewrite <- Permutation_cons_append.
  - destruct (lookup_lt_is_Some_2 dd b ltac:(lia)) as [x Hx].
    apply (items_from_add_one m dd b x Hx).
    by apply (Forall_lookup_1 _ dd b x Hdd).
Qed.

Lemma insert_hit (l rest : list nat) i m :
  l !! i = Some m → l ≡ₚ m :: rest → <[i := S m]> l ≡ₚ S m :: rest.
Proof.
  intros Hi Hl.
  assert (delete i l ≡ₚ rest) as <-.
  { apply (inj (m ::.)). by rewrite <- (delete_Permutation l i m Hi). }
  rewrite insert_take_drop by (by eapply lookup_lt_Some).
  by rewrite <- Permutation_middle, delete_take_drop.
Qed.

(** X3: a profile stands for [U] items, each drawn at least once, [N]
    times in all; and the body of the draw loop is a draw of one of them,
    the items taken in increasing order of the number of times they were
    drawn: a ball below [U] is one more draw of the item of that rank, any
    other ball is the first draw of a new item. *)
Theorem place_ball_hits_item (dd : vec) (ball : Z) :
  profile_ok dd → num_draws_of dd < 2 ^ 32 - 1 → 0 ≤ ball →
  ∃ dd',
    place_ball dd ball = Returns dd'
    ∧ Z.of_nat (length (items_of dd)) = num_unique_of dd
    ∧ Z.of_nat (sum_list (items_of dd)) = num_draws_of dd
    ∧ Forall (λ c, 1 ≤ c)%nat (items_of dd)
    ∧ StronglySorted le (items_of dd)
    ∧ (ball < num_unique_of dd →
       ∃ m, items_of dd !! Z.to_nat ball = Some m
            ∧ items_of dd' ≡ₚ <[Z.to_nat ball := S m]> (items_of dd))
    ∧ (num_unique_of dd ≤ ball → items_of dd' ≡ₚ 1%nat :: items_of dd).
Proof.
  intros Hok HN Hball. pose proof Hok as [Hdd Hlen].
  exists (draw_step_spec dd ball). split; [by apply place_ball_spec|].
  split; [by apply length_items_from|].
  split; [by apply (sum_list_items_from 1)|].
  split; [apply items_from_ge|]. split; [apply items_from_sorted|].
  unfold draw_step_spec, items_of. split.
  - intros HU. Zbool_false (num_unique_of dd <=? ball). cbv zeta.
    destruct (least_bin_hit dd ball Hdd Hball HU) as (x & Hx & Hpos & _ & _).
    set (bin := least_bin dd ball) in *.
    assert (bin < length dd)%nat as Hbin by (by eapply lookup_lt_Some).
    exists (1 + bin)%nat. split; [by apply items_from_lookup|].
    rewrite items_from_incr_bin.
    + symmetry. apply insert_hit; [by apply items_from_lookup|].
      by apply (items_from_take_one 1 dd bin x).
    + unfold decr_bin. apply Forall_alter; [done|].
      intros y Hy. rewrite Hx in Hy. injection Hy as <-. lia.
    + unfold decr_bin. rewrite length_alter. lia.
  - intros HU. Zbool_true (num_unique_of dd <=? ball).
    by rewrite items_from_incr_bin by (done || lia).
Qed.

(** ** monte_carlo *)

Section MonteCarloProofs.

Variable lgamma : double → double.
Variable log : double → double.
Variable mt19937 : Type.
Variable mt19937_seed : Z → mt19937.
Variable uniform_int : Z → Z → mt19937 → Z * mt19937.

(** The lines the loop of [monte_carlo] adds. *)
Lemma monte_carlo_loop_lines n M N (d : BallDrawer mt19937) buf out :
  uniform_contract uniform_int →
  0 ≤ M < 2 ^ 32 → 0 ≤ N ≤ 2 ^ 32 - 2 → (M = 0 → N = 0) →
  dist_a d = 0 → dist_b d = wrap32 (M - 1) →
  ∃ d' dd' new,
    monte_carlo_loop lgamma log uniform_int n M N (d, buf, out)
    = Returns (d', dd', out ++ new)
    ∧ length new = n
    ∧ Forall (λ l, line_num_balls l = M ∧ line_num_draws l = N
                   ∧ num_draws_of (line_dd l) = N
                   ∧ num_unique_of (line_dd l) ≤ M
                   ∧ calculate_log_probability lgamma log (line_dd l) M
                     = Returns (line_log_probability l)
                   ∧ (M ≤ 2 ^ 32 - 2 →
                      line_log_probability l
                      = log_probability_formula lgamma log (line_dd l) M)) new.
Proof.
  intros Hu HM HN HM0. revert d buf out.
  induction n as [|n IH]; intros d buf out Ha Hb.
  - exists d, buf, []. rewrite app_nil_r. by repeat split.
  - cbn [monte_carlo_loop].
    destruct (trial_returns lgamma log mt19937 uniform_int d buf M N Hu HM HN HM0 Ha Hb)
      as (dd & d1 & lp & Hrun & Hlp & Ha1 & Hb1).
    destruct (draw_balls_profile mt19937 uniform_int d buf N ltac:(lia))
      as (dd2 & d2 & Hrun2 & Hdd & Hlen & HNdd & _).
    rewrite Hrun in Hrun2. injection Hrun2 as <- <-.
    destruct (ref_draws_loop_spec lgamma log dd M lp Hdd ltac:(lia) Hlp)
      as (_ & _ & HU & Hval).
    rewrite Hrun. cbn [mbind outcome_bind]. rewrite Hlp. cbn [mbind outcome_bind].
    destruct (IH d1 dd (out ++ [mkReportLine M N lp dd]) Ha1 Hb1)
      as (d' & dd' & new & Hloop & Hnew & Hall).
    exists d', dd', (mkReportLine M N lp dd :: new).
    split; [|split].
    + rewrite Hloop. by rewrite <- (assoc_L (++)).
    + simpl. by rewrite Hnew.
    + constructor; [|done].
      cbn [line_num_balls line_num_draws line_dd line_log_probability].
      repeat split; try done. intros HM2. rewrite Hval.
      apply log_probability_returned_formula; [done | lia | done | done].
Qed.

(** The lines written so far are only added to. *)
Lemma monte_carlo_loop_out n M N (d : BallDrawer mt19937) buf out :
  monte_carlo_loop lgamma log uniform_int n M N (d, buf, out)
  = st ← monte_carlo_loop lgamma log uniform_int n M N (d, buf, []);
    Returns (st.1, out ++ st.2).
Proof.
  revert d buf out. induction n as [|n IH]; intros d buf out.
  - cbn [monte_carlo_loop mbind outcome_bind fst snd]. by rewrite app_nil_r.
  - cbn [monte_carlo_loop].
    destruct (draw_balls uniform_int d buf N) as [[dd d1]| |]; [|done..].
    cbn [mbind outcome_bind].
    destruct (calculate_log_probability lgamma log dd M) as [lp| |]; [|done..].
    cbn [mbind outcome_bind].
    rewrite (IH d1 dd (out ++ _)), (IH d1 dd ([] ++ _)).
    destruct (monte_carlo_loop lgamma log uniform_int n M N (d1, dd, []))
      as [[[d' dd'] new]| |]; [|done..].
    cbn [mbind outcome_bind fst snd]. by rewrite <- (assoc_L (++)).
Qed.

(** The score of [monte_carlo_pvalue] is the one its loop body gives on the
    lines [monte_carlo] writes. *)
Lemma pvalue_loop_monte_carlo_loop n M N ref_log_p (d : BallDrawer mt19937) buf score :
  pvalue_loop lgamma log uniform_int n M N ref_log_p (d, buf, score)
  ≫= (λ st, Returns st.2)
  = st ← monte_carlo_loop lgamma log uniform_int n M N (d, buf, []);
    Returns (foldl (λ score l,
                      score_update score (ref_log_p - line_log_probability l)%float)
               score st.2).
Proof.
  revert d buf score. induction n as [|n IH]; intros d buf score; [done|].
  cbn [pvalue_loop monte_carlo_loop].
  destruct (draw_balls uniform_int d buf N) as [[dd d1]| |]; [|done..].
  cbn [mbind outcome_bind].
  destruct (calculate_log_probability lgamma log dd M) as [lp| |]; [|done..].
  cbn [mbind outcome_bind].
  rewrite IH, (monte_carlo_loop_out n M N d1 dd ([] ++ _)).
  destruct (monte_carlo_loop lgamma log uniform_int n M N (d1, dd, []))
    as [[[d' dd'] new]| |]; done.
Qed.

(** X4: [monte_carlo] returns for every [M ≥ 1], [N ≤ 2^32 - 2] and [R]:
    it writes [R] lines, each with [num_balls], [num_draws], a profile of
    [N] draws and at most [M] items, and that profile's log-probability,
    which is the formula's value for [M ≤ 2^32 - 2]; the assertion of
    [calculate_log_probability] never fires. *)
Theorem monte_carlo_lines (M N R seed : Z) :
  uniform_contract uniform_int →
  1 ≤ M < 2 ^ 32 → 0 ≤ N ≤ 2 ^ 32 - 2 →
  ∃ out,
    monte_carlo lgamma log mt19937_seed uniform_int M N R seed = Returns out
    ∧ length out = Z.to_nat R
    ∧ Forall (λ l, line_num_balls l = M ∧ line_num_draws l = N
                   ∧ num_draws_of (line_dd l) = N
                   ∧ num_unique_of (line_dd l) ≤ M
                   ∧ calculate_log_probability lgamma log (line_dd l) M
                     = Returns (line_log_probability l)
                   ∧ (M ≤ 2 ^ 32 - 2 →
                      line_log_probability l
                      = log_probability_formula lgamma log (line_dd l) M)) out.
Proof.
  intros Hu HM HN. unfold monte_carlo.
  destruct (monte_carlo_loop_lines (Z.to_nat R) M N (BallDrawer_new mt19937_seed M seed)
              (vec_resize [] N) [] Hu ltac:(lia) HN ltac:(lia) eq_refl eq_refl)
    as (d' & dd' & new & -> & Hlen & Hall).
  cbn [mbind outcome_bind app]. by exists new.
Qed.

(** X5: [monte_carlo_pvalue] scores the very log-probabilities
    [monte_carlo] writes for the same collection size, repeat count and
    seed, and the draw count of the reference profile. *)
Theorem monte_carlo_pvalue_of_monte_carlo (ref_dd : vec) (M R seed : Z) :
  Forall is_unsigned ref_dd → Z.of_nat (length ref_dd) < 2 ^ 32 - 1 →
  monte_carlo_pvalue lgamma log mt19937_seed uniform_int ref_dd M R seed
  = ref_log_p ← calculate_log_probability lgamma log ref_dd M;
    out ← monte_carlo lgamma log mt19937_seed uniform_int M (num_draws_of ref_dd) R seed;
    Returns
      (foldl (λ score l,
                score_update score (ref_log_p - line_log_probability l)%float)
         0%float out
       / of_unsigned R)%float.
Proof.
  intros Hdd Hlen. unfold monte_carlo_pvalue, monte_carlo.
  destruct (calculate_log_probability lgamma log ref_dd M) as [lp| |] eqn:Href;
    [|done..].
  destruct (ref_draws_loop_spec lgamma log ref_dd M lp Hdd Hlen Href) as (-> & _).
  cbn [mbind outcome_bind].
  pose proof (pvalue_loop_monte_carlo_loop (Z.to_nat R) M (num_draws_of ref_dd) lp
                (BallDrawer_new mt19937_seed M seed)
                (vec_resize [] (num_draws_of ref_dd)) 0%float) as Hloop.
  destruct (pvalue_loop _ _ _ _ _ _ _ _) as [[[d1 buf1] score1]| |];
    destruct (monte_carlo_loop _ _ _ _ _ _ _) as [[[d2 buf2] out]| |];
    cbn [mbind outcome_bind snd] in Hloop |- *; try done.
  by injection Hloop as ->.
Qed.

(** X6: with [num_balls = 0] the first profile drawn counts an item the
    collection cannot hold: [monte_carlo] dies on the assertion, whatever
    the generator draws. *)
Theorem monte_carlo_empty_collection (N R seed : Z) :
  1 ≤ N ≤ 2 ^ 32 - 2 → 1 ≤ R →
  monte_carlo lgamma log mt19937_seed uniform_int 0 N R seed = AssertionFailed.
Proof.
  intros HN HR. unfold monte_carlo.
  replace (Z.to_nat R) with (S (Z.to_nat (R - 1))) by lia.
  cbn [monte_carlo_loop].
  destruct (draw_balls_shape mt19937 uniform_int (BallDrawer_new mt19937_seed 0 seed)
              (vec_resize [] N) N ltac:(lia))
    as (dd & d' & -> & Hdd & Hlen & HNdd & _ & HU).
  cbn [mbind outcome_bind].
  rewrite calculate_log_probability_spec by (done || lia).
  rewrite HNdd. Zbool_true (N <? 2 ^ 32).
  specialize (HU ltac:(lia)). by Zbool_false (num_unique_of dd <=? 0).
Qed.

End MonteCarloProofs.

(** ** The score is exact *)

Lemma trial_weight_range ref_log_p sim : 0 ≤ trial_weight ref_log_p sim ≤ 2.
Proof.
  unfold trial_weight. cbv zeta.
  destruct (abs _ <? _)%float; [lia|]. destruct (0 <? _)%float; lia.
Qed.

Lemma total_weight_range ref_log_p sims :
  0 ≤ total_weight ref_log_p sims ≤ 2 * Z.of_nat (length sims).
Proof.
  induction sims as [|sim sims IH]; [simpl; lia|].
  pose proof (trial_weight_range ref_log_p sim).
  cbn [total_weight foldr length] in *. fold (total_weight ref_log_p sims). lia.
Qed.

Lemma score_update_weight score h (ref_log_p sim : double) :
  Prim2SF score = dyadic h (-1) → 0 ≤ h → h + 2 < 2 ^ 53 →
  Prim2SF (score_update score (ref_log_p - sim)%float)
  = dyadic (h + trial_weight ref_log_p sim) (-1).
Proof.
  intros Hs Hh Hh2. destruct Prim2SF_score_constants as (_ & Hhalf & Hone).
  unfold score_update, trial_weight. cbv zeta.
  destruct (abs (ref_log_p - sim) <? tie_tolerance)%float.
  - rewrite FloatAxioms.add_spec, Hs, Hhalf. apply dyadic_add; lia.
  - destruct (0 <? ref_log_p - sim)%float.
    + rewrite FloatAxioms.add_spec, Hs, Hone. apply dyadic_add; lia.
    + by rewrite Z.add_0_r.
Qed.

Lemma foldl_score_update_weight ref_log_p (out : list report_line) score h :
  Prim2SF score = dyadic h (-1) → 0 ≤ h → h + 2 * Z.of_nat (length out) < 2 ^ 53 →
  Prim2SF (foldl (λ score l,
                    score_update score (ref_log_p - line_log_probability l)%float)
             score out)
  = dyadic (h + total_weight ref_log_p (line_log_probability <$> out)) (-1).
Proof.
  revert score h. induction out as [|l out IH]; intros score h Hs Hh Hlen.
  - simpl. by rewrite Z.add_0_r.
  - cbn [foldl length fmap list_fmap total_weight foldr] in *.
    fold (total_weight ref_log_p (line_log_probability <$> out)).
    pose proof (trial_weight_range ref_log_p (line_log_probability l)).
    rewrite (IH _ (h + trial_weight ref_log_p (line_log_probability l))).
    + f_equal. lia.
    + apply score_update_weight; [done | lia | lia].
    + lia.
    + lia.
Qed.

Lemma SFdiv_self m e :
  digits m = 53 → -200 ≤ e ≤ 200 →
  SFdiv prec emax (S754_finite false m e) (S754_finite false m e) = Prim2SF 1.
Proof.
  intros Hd He.
  unfold SFdiv, SFdiv_core_binary. cbn [xorb Zdigits2]. fold (digits m). rewrite Hd.
  replace (53 + e - (53 + e)) with 0 by lia.
  replace (e - e) with 0 by lia.
  change (Z.min (fexp prec emax 0) 0) with (-53).
  change (0 - -53) with 53. rewrite Z.shiftl_mul_pow2 by lia.
  pose proof (Z_div_mod (Zpos m * 2 ^ 53) (Zpos m) ltac:(lia)) as Hdiv.
  destruct (Z.div_eucl (Zpos m * 2 ^ 53) (Zpos m)) as [q r].
  destruct Hdiv as [Hqr Hr].
  assert (q = 2 ^ 53) as ->.
  { destruct (Z.lt_trichotomy q (2 ^ 53)) as [Hlt|[Heq'|Hgt]]; [|done|].
    - assert (Zpos m * (q + 1) ≤ Zpos m * 2 ^ 53)
        by (apply Z.mul_le_mono_nonneg_l; lia). lia.
    - assert (Zpos m * (2 ^ 53 + 1) ≤ Zpos m * q)
        by (apply Z.mul_le_mono_nonneg_l; lia). lia. }
  assert (r = 0) as -> by lia.
  assert (new_location (Zpos m) 0 = loc_Exact) as ->.
  { unfold new_location, new_location_even, new_location_odd.
    by destruct (Z.even (Zpos m)). }
  by vm_compute.
Qed.

Lemma full_score_ratio R (score : double) :
  Prim2SF score = dyadic (2 * R) (-1) → 1 ≤ R < 2 ^ 32 →
  (score / of_unsigned R)%float = 1%float.
Proof.
  intros Hs HR. apply Prim2SF_inj.
  rewrite FloatAxioms.div_spec, Hs, Prim2SF_of_unsigned by lia.
  replace (-1) with (0 - 1) by lia. rewrite dyadic_double by lia.
  destruct R as [|q|q]; try lia. cbn [dyadic]. unfold canon, SF64div.
  assert (digits q ≤ 32) by (apply digits_le_iff; lia). pose proof (digits_pos q).
  destruct (canon_mantissa q ltac:(lia)) as [_ Hd].
  apply SFdiv_self; [done | lia].
Qed.

Lemma zero_score_ratio R (score : double) :
  Prim2SF score = dyadic 0 (-1) → 1 ≤ R < 2 ^ 32 →
  (score / of_unsigned R)%float = 0%float.
Proof.
  intros Hs HR. apply Prim2SF_inj.
  rewrite FloatAxioms.div_spec, Hs, Prim2SF_of_unsigned by lia.
  destruct R as [|q|q]; try lia. done.
Qed.

Lemma monte_carlo_loop_length {S : Type} lgamma log (u : Z → Z → S → Z * S)
    n M N d buf out d' dd' out' :
  monte_carlo_loop lgamma log u n M N (d, buf, out) = Returns (d', dd', out') →
  length out' = (length out + n)%nat.
Proof.
  revert d buf out. induction n as [|n IH]; intros d buf out Hrun.
  - injection Hrun as _ _ <-. lia.
  - cbn [monte_carlo_loop] in Hrun.
    destruct (draw_balls u d buf N) as [[dd d1]| |]; [|done..].
    cbn [mbind outcome_bind] in Hrun.
    destruct (calculate_log_probability lgamma log dd M) as [lp| |]; [|done..].
    cbn [mbind outcome_bind] in Hrun.
    apply IH in Hrun. rewrite Hrun, length_app. simpl. lia.
Qed.

Lemma trial_weight_nan ref_log_p sim :
  Prim2SF ref_log_p = S754_nan → trial_weight ref_log_p sim = 0.
Proof.
  intros Hnan.
  assert ((ref_log_p - sim)%float = nan) as Hdiff.
  { apply Prim2SF_inj. by rewrite FloatAxioms.sub_spec, Hnan. }
  unfold trial_weight. cbv zeta. by rewrite Hdiff.
Qed.

Lemma total_weight_all ref_log_p sims w :
  Forall (λ sim, trial_weight ref_log_p sim = w) sims →
  total_weight ref_log_p sims = w * Z.of_nat (length sims).
Proof.
  induction 1 as [|sim sims Hw _ IH]; [simpl; lia|].
  cbn [total_weight foldr length]. fold (total_weight ref_log_p sims). lia.
Qed.

Section PvalueScore.

Variable lgamma : double → double.
Variable log : double → double.
Variable mt19937 : Type.
Variable mt19937_seed : Z → mt19937.
Variable uniform_int : Z → Z → mt19937 → Z * mt19937.

(** What a call of [monte_carlo_pvalue] that returns has gone through. *)
Lemma monte_carlo_pvalue_run (ref_dd : vec) (M R seed : Z) (v : double) :
  Forall is_unsigned ref_dd → Z.of_nat (length ref_dd) < 2 ^ 32 - 1 →
  0 ≤ R < 2 ^ 32 →
  monte_carlo_pvalue lgamma log mt19937_seed uniform_int ref_dd M R seed = Returns v →
  ∃ ref_log_p out score,
    calculate_log_probability lgamma log ref_dd M = Returns ref_log_p
    ∧ monte_carlo lgamma log mt19937_seed uniform_int M (num_draws_of ref_dd) R seed
      = Returns out
    ∧ length out = Z.to_nat R
    ∧ Prim2SF score
      = dyadic (total_weight ref_log_p (line_log_probability <$> out)) (-1)
    ∧ v = (score / of_unsigned R)%float.
Proof.
  intros Hdd Hlen HR Hv. unfold monte_carlo_pvalue in Hv. unfold monte_carlo.
  destruct (calculate_log_probability lgamma log ref_dd M) as [lp| |] eqn:Href;
    [|done..].
  destruct (ref_draws_loop_spec lgamma log ref_dd M lp Hdd Hlen Href) as (HN & _).
  rewrite HN in Hv. cbn [mbind outcome_bind] in Hv.
  pose proof (pvalue_loop_monte_carlo_loop lgamma log mt19937 uniform_int
                (Z.to_nat R) M (num_draws_of ref_dd) lp
                (BallDrawer_new mt19937_seed M seed)
                (vec_resize [] (num_draws_of ref_dd)) 0%float) as Hloop.
  destruct (pvalue_loop _ _ _ _ _ _ _ _) as [[[d1 buf1] score1]| |]; [|done..].
  destruct (monte_carlo_loop _ _ _ _ _ _ _) as [[[d2 buf2] out]| |] eqn:Hmc;
    cbn [mbind outcome_bind snd] in Hloop, Hv |- *; [|done..].
  injection Hloop as ->. injection Hv as <-.
  apply monte_carlo_loop_length in Hmc. simpl in Hmc.
  exists lp, out. eexists. split; [done|]. split; [done|]. split; [done|].
  split; [|done].
  rewrite (foldl_score_update_weight lp out 0%float 0); [done | done | lia | lia].
Qed.

(** X7: the accumulation of [score] never rounds: the value
    [monte_carlo_pvalue] returns is the binary64 quotient of [h / 2] by
    [R], where [h] counts one for every tied trial and two for every trial
    less probable than the reference profile. *)
Theorem monte_carlo_pvalue_exact_score (ref_dd : vec) (M R seed : Z) (v : double) :
  Forall is_unsigned ref_dd → Z.of_nat (length ref_dd) < 2 ^ 32 - 1 →
  0 ≤ R < 2 ^ 32 →
  monte_carlo_pvalue lgamma log mt19937_seed uniform_int ref_dd M R seed = Returns v →
  ∃ ref_log_p out,
    calculate_log_probability lgamma log ref_dd M = Returns ref_log_p
    ∧ monte_carlo lgamma log mt19937_seed uniform_int M (num_draws_of ref_dd) R seed
      = Returns out
    ∧ let h := total_weight ref_log_p (line_log_probability <$> out) in
      0 ≤ h ≤ 2 * R
      ∧ Prim2SF v = SF64div (dyadic h (-1)) (dyadic R 0).
Proof.
  intros Hdd Hlen HR Hv.
  destruct (monte_carlo_pvalue_run ref_dd M R seed v Hdd Hlen HR Hv)
    as (lp & out & score & Href & Hout & Hlen_out & Hscore & ->).
  exists lp, out. split; [done|]. split; [done|]. cbv zeta. split.
  - pose proof (total_weight_range lp (line_log_probability <$> out)) as Hw.
    rewrite length_fmap, Hlen_out in Hw. lia.
  - by rewrite FloatAxioms.div_spec, Hscore, Prim2SF_of_unsigned by lia.
Qed.

(** X8: the two ends of the scale: when the reference profile is more
    probable than every simulated one (and not tied) the value returned is
    exactly 1, and when no trial scores it is exactly 0. *)
Theorem monte_carlo_pvalue_extremes (ref_dd : vec) (M R seed : Z) (v : double) :
  Forall is_unsigned ref_dd → Z.of_nat (length ref_dd) < 2 ^ 32 - 1 →
  1 ≤ R < 2 ^ 32 →
  monte_carlo_pvalue lgamma log mt19937_seed uniform_int ref_dd M R seed = Returns v →
  ∃ ref_log_p out,
    calculate_log_probability lgamma log ref_dd M = Returns ref_log_p
    ∧ monte_carlo lgamma log mt19937_seed uniform_int M (num_draws_of ref_dd) R seed
      = Returns out
    ∧ (Forall (λ l, trial_weight ref_log_p (line_log_probability l) = 2) out →
       v = 1%float)
    ∧ (Forall (λ l, trial_weight ref_log_p (line_log_probability l) = 0) out →
       v = 0%float).
Proof.
  intros Hdd Hlen HR Hv.
  destruct (monte_carlo_pvalue_run ref_dd M R seed v Hdd Hlen ltac:(lia) Hv)
    as (lp & out & score & Href & Hout & Hlen_out & Hscore & ->).
  exists lp, out. split; [done|]. split; [done|]. split; intros Hall.
  - apply full_score_ratio; [|done]. rewrite Hscore. f_equal.
    rewrite (total_weight_all lp _ 2) by (by apply Forall_fmap).
    rewrite length_fmap, Hlen_out. lia.
  - apply zero_score_ratio; [|done]. rewrite Hscore. f_equal.
    rewrite (total_weight_all lp _ 0) by (by apply Forall_fmap). lia.
Qed.

(** X9: a reference log-probability that is a NaN compares false with
    everything: no trial scores, and the value returned is 0. *)
Theorem monte_carlo_pvalue_of_nan (ref_dd : vec) (M R seed : Z) (ref_log_p : double) :
  uniform_contract uniform_int →
  Forall is_unsigned ref_dd → Z.of_nat (length ref_dd) < 2 ^ 32 - 1 →
  num_draws_of ref_dd ≤ 2 ^ 32 - 2 → 0 ≤ M < 2 ^ 32 → 1 ≤ R < 2 ^ 32 →
  calculate_log_probability lgamma log ref_dd M = Returns ref_log_p →
  Prim2SF ref_log_p = S754_nan →
  monte_carlo_pvalue lgamma log mt19937_seed uniform_int ref_dd M R seed
  = Returns 0%float.
Proof.
  intros Hu Hdd Hlen HN HM HR Href Hnan.
  destruct (ref_draws_loop_spec lgamma log ref_dd M ref_log_p Hdd Hlen Href)
    as (HNloop & _ & HU & _).
  assert (Forall (λ x, 0 ≤ x) ref_dd) as Hnn
    by (eapply Forall_impl; eauto; intros ? []; lia).
  pose proof (num_unique_of_nonneg ref_dd Hnn) as HU0.
  pose proof (num_draws_of_nonneg ref_dd Hdd) as HN0.
  assert (returns (monte_carlo_pvalue lgamma log mt19937_seed uniform_int
                     ref_dd M R seed)) as [v Hv].
  { unfold monte_carlo_pvalue. rewrite Href, HNloop. cbn [mbind outcome_bind].
    destruct (pvalue_loop_returns lgamma log mt19937 uniform_int (Z.to_nat R) M
                (num_draws_of ref_dd) ref_log_p (BallDrawer_new mt19937_seed M seed)
                (vec_resize [] (num_draws_of ref_dd)) 0%float Hu HM ltac:(lia))
      as [[[d1 buf1] score1] ->]; try done.
    - intros ->. apply weighted_from_zero; [done | lia].
    - by eexists. }
  rewrite Hv. f_equal.
  destruct (monte_carlo_pvalue_run ref_dd M R seed v Hdd Hlen ltac:(lia) Hv)
    as (lp & out & score & Href' & Hout & Hlen_out & Hscore & ->).
  rewrite Href in Href'. injection Href' as <-.
  apply zero_score_ratio; [|done]. rewrite Hscore. f_equal.
  rewrite (total_weight_all ref_log_p _ 0); [lia|].
  apply Forall_forall. intros sim _. by apply trial_weight_nan.
Qed.

(** X10: the only assertion [monte_carlo_pvalue] can die on is the one on
    the reference profile: it fails that way exactly when [M < U]. *)
Theorem monte_carlo_pvalue_assertion (ref_dd : vec) (M R seed : Z) :
  uniform_contract uniform_int →
  Forall is_unsigned ref_dd → Z.of_nat (length ref_dd) < 2 ^ 32 - 1 →
  num_draws_of ref_dd ≤ 2 ^ 32 - 2 → 0 ≤ M < 2 ^ 32 →
  monte_carlo_pvalue lgamma log mt19937_seed uniform_int ref_dd M R seed
  = AssertionFailed
  ↔ M < num_unique_of ref_dd.
Proof.
  intros Hu Hdd Hlen HN HM.
  assert (Forall (λ x, 0 ≤ x) ref_dd) as Hnn
    by (eapply Forall_impl; eauto; intros ? []; lia).
  pose proof (num_unique_of_nonneg ref_dd Hnn) as HU0.
  pose proof (num_draws_of_nonneg ref_dd Hdd) as HN0.
  unfold monte_carlo_pvalue.
  rewrite calculate_log_probability_spec by done.
  Zbool_true (num_draws_of ref_dd <? 2 ^ 32).
  destruct (Z.leb_spec (num_unique_of ref_dd) M) as [HU|HU]; [|done].
  cbn [mbind outcome_bind]. split; [|lia]. intros Hfail. exfalso.
  assert (calculate_log_probability lgamma log ref_dd M
          = Returns (log_probability_returned lgamma log ref_dd M)) as Href.
  { rewrite calculate_log_probability_spec by done.
    Zbool_true (num_draws_of ref_dd <? 2 ^ 32).
    by Zbool_true (num_unique_of ref_dd <=? M). }
  destruct (ref_draws_loop_spec lgamma log ref_dd M _ Hdd Hlen Href) as (HNloop & _).
  rewrite HNloop in Hfail. cbn [mbind outcome_bind] in Hfail.
  destruct (pvalue_loop_returns lgamma log mt19937 uniform_int (Z.to_nat R) M
              (num_draws_of ref_dd) (log_probability_returned lgamma log ref_dd M)
              (BallDrawer_new mt19937_seed M seed)
              (vec_resize [] (num_draws_of ref_dd)) 0%float Hu HM ltac:(lia))
    as [[[d1 buf1] score1] Hloop]; try done.
  - intros ->. apply weighted_from_zero; [done | lia].
  - by rewrite Hloop in Hfail.
Qed.

End PvalueScore.

Section LogProbabilityEdges.

Variable lgamma : double → double.
Variable log : double → double.

(** X11: the behaviour of [calculate_log_probability] is undefined
    exactly when the draw count of the profile does not fit an [unsigned],
    whatever [num_balls] is. *)
Theorem log_probability_undefined (dd : vec) (M : Z) :
  Forall is_unsigned dd → Z.of_nat (length dd) < 2 ^ 32 - 1 →
  calculate_log_probability lgamma log dd M = Undefined ↔ 2 ^ 32 ≤ num_draws_of dd.
Proof.
  intros Hdd Hlen. rewrite calculate_log_probability_spec by done.
  destruct (Z.ltb_spec (num_draws_of dd) (2 ^ 32)) as [Hlt|Hge].
  - split; [|lia]. by destruct (num_unique_of dd <=? M).
  - done.
Qed.

End LogProbabilityEdges.

(** ** Sums that are not a negative zero *)

Lemma fexp_ge d : -1074 ≤ fexp prec emax d.
Proof. unfold fexp, SpecFloat.emin, prec, emax. lia. Qed.

Lemma shr_fexp_pos m e l :
  0 < m → -1074 ≤ e →
  0 < shr_m (shr_fexp prec emax m e l).1 ∧ -1074 ≤ (shr_fexp prec emax m e l).2.
Proof.
  intros Hm He. unfold shr_fexp.
  set (n := fexp prec emax (Zdigits2 m + e) - e).
  assert (shr_m (shr_record_of_loc m l) = m) as Hrec by (by destruct l as [|[]]).
  destruct (Z.le_gt_cases n 0) as [Hn|Hn].
  - assert (shr (shr_record_of_loc m l) e n = (shr_record_of_loc m l, e)) as ->
      by (destruct n; try done; lia).
    simpl. rewrite Hrec. done.
  - destruct (shr_m_shr m l e n ltac:(lia) ltac:(lia)) as [-> ->].
    split; [|lia].
    destruct m as [|p|p]; try lia. simpl Zdigits2 in n. fold (digits p) in n.
    assert (n = digits p - 53) as Hn'.
    { unfold n, fexp, SpecFloat.emin, prec, emax in *. lia. }
    pose proof (digits_bounds p) as [Hlo _].
    replace (digits p - 1) with (52 + n) in Hlo by lia.
    rewrite Z.pow_add_r in Hlo by lia.
    assert (0 < 2 ^ n) by (apply Z.pow_pos_nonneg; lia).
    assert (2 ^ 52 ≤ Zpos p / 2 ^ n) by (apply Z.div_le_lower_bound; lia).
    lia.
Qed.

Lemma binary_round_aux_nonzero s m e l s' :
  0 < m → -1074 ≤ e → binary_round_aux prec emax s m e l ≠ S754_zero s'.
Proof.
  intros Hm He. unfold binary_round_aux.
  pose proof (shr_fexp_pos m e l Hm He) as [Hm1 He1].
  destruct (shr_fexp prec emax m e l) as [mrs' e']. simpl in Hm1, He1.
  set (m2 := round_nearest_even (shr_m mrs') (loc_of_shr_record mrs')).
  assert (0 < m2) as Hm2
    by (destruct (round_nearest_even_cases (shr_m mrs') (loc_of_shr_record mrs'));
        unfold m2; lia).
  pose proof (shr_fexp_pos m2 e' loc_Exact Hm2 He1) as [Hm3 _].
  destruct (shr_fexp prec emax m2 e' loc_Exact) as [mrs'' e'']. simpl in Hm3.
  destruct (shr_m mrs''); try lia. by destruct (_ <=? _).
Qed.

Lemma binary_round_nonzero s m e s' :
  -1074 ≤ e → binary_round prec emax s m e ≠ S754_zero s'.
Proof.
  intros He. unfold binary_round.
  pose proof (fexp_ge (Zpos (digits2_pos m) + e)) as Hf.
  set (f := fexp prec emax (Zpos (digits2_pos m) + e)) in *.
  assert (-1074 ≤ (shl_align m e f).2) as He'
    by (unfold shl_align; destruct (f - e); simpl; lia).
  destruct (shl_align m e f) as [mz ez]. simpl in He'.
  by apply binary_round_aux_nonzero.
Qed.

Lemma valid_binary_exponent s m e :
  valid_binary (S754_finite s m e) = true → -1074 ≤ e.
Proof.
  unfold valid_binary, bounded, canonical_mantissa. intros H.
  apply andb_prop in H as [H _]. apply Z.eqb_eq in H.
  pose proof (fexp_ge (Zpos (digits2_pos m) + e)). lia.
Qed.

Lemma SFadd_not_neg_zero x y :
  valid_binary x = true → valid_binary y = true →
  x ≠ S754_zero true → SFadd prec emax x y ≠ S754_zero true.
Proof.
  intros Hx Hy Hnz.
  destruct x as [[]|[]| |sx mx ex], y as [[]|[]| |sy my ey]; try done.
  apply valid_binary_exponent in Hx, Hy. cbn [SFadd].
  destruct (_ + _) as [|p|p]; cbn [binary_normalize]; [done| |];
    apply binary_round_nonzero; lia.
Qed.

Lemma add_not_neg_zero (a t : double) :
  Prim2SF a ≠ S754_zero true → Prim2SF (a + t)%float ≠ S754_zero true.
Proof.
  intros Ha. rewrite FloatAxioms.add_spec.
  apply SFadd_not_neg_zero; [apply Prim2SF_valid.. | done].
Qed.

Lemma add_pos_zero (a : double) :
  Prim2SF a ≠ S754_zero true → (a + 0)%float = a.
Proof.
  intros Ha. apply Prim2SF_inj. rewrite FloatAxioms.add_spec.
  change (Prim2SF 0) with (S754_zero false).
  by destruct (Prim2SF a) as [[]|[]| |s m e].
Qed.

Lemma zero_times_finite (L : double) :
  is_finite L = true → ∃ s, Prim2SF (0 * L)%float = S754_zero s.
Proof.
  intros HL. rewrite FloatAxioms.mul_spec. change (Prim2SF 0) with (S754_zero false).
  unfold is_finite in HL. destruct (Prim2SF L) as [s|s| |s m e]; try done;
    eexists; reflexivity.
Qed.

Lemma zero_term (a L : double) :
  a = 0%float → is_finite L = true → (a + 0 * L)%float = 0%float.
Proof.
  intros -> HL. destruct (zero_times_finite L HL) as [s Hs].
  apply Prim2SF_inj. rewrite FloatAxioms.add_spec, Hs.
  change (Prim2SF 0) with (S754_zero false). by destruct s.
Qed.

Lemma num_unique_of_replicate k : num_unique_of (replicate k 0) = 0.
Proof. induction k as [|k IH]; [done|]. simpl. exact IH. Qed.

Section TrailingZeros.

Variable lgamma : double → double.
Variable log : double → double.

Lemma log_denom_from_app m l1 l2 acc :
  log_denom_from lgamma m (l1 ++ l2) acc
  = log_denom_from lgamma (m + Z.of_nat (length l1)) l2 (log_denom_from lgamma m l1 acc).
Proof.
  revert m acc. induction l1 as [|x l1 IH]; intros m acc.
  - simpl. by rewrite Z.add_0_r.
  - cbn [app log_denom_from length]. rewrite IH. f_equal. lia.
Qed.

Lemma log_denom_from_not_neg_zero m dd acc :
  Prim2SF acc ≠ S754_zero true →
  Prim2SF (log_denom_from lgamma m dd acc) ≠ S754_zero true.
Proof.
  revert m acc. induction dd as [|x dd IH]; intros m acc Hacc; [done|].
  cbn [log_denom_from]. apply IH. by apply add_not_neg_zero.
Qed.

Lemma log_denom_from_zeros m k acc :
  lgamma 1%float = 0%float →
  0 ≤ m → m + Z.of_nat k < 2 ^ 32 →
  (∀ j, m ≤ j < m + Z.of_nat k → is_finite (lgamma (of_unsigned (1 + j))) = true) →
  Prim2SF acc ≠ S754_zero true →
  log_denom_from lgamma m (replicate k 0) acc = acc.
Proof.
  intros H1. revert m acc. induction k as [|k IH]; intros m acc Hm Hk Hfin Hacc; [done|].
  cbn [replicate log_denom_from].
  change (Z_to_double (1 + 0)) with 1%float. change (Z_to_double 0) with 0%float.
  rewrite Z_to_double_of_unsigned by lia.
  rewrite zero_term by (done || (apply Hfin; lia)).
  rewrite add_pos_zero by done.
  apply IH; [lia | lia | | done]. intros j Hj. apply Hfin. lia.
Qed.

(** X12: trailing zeros in a profile do not change what
    [calculate_log_probability] does with it, [lgamma(1)] being [+0] and
    [lgamma] finite at the integers past the profile's length. *)
Theorem log_probability_trailing_zeros (dd : vec) (k : nat) (M : Z) :
  Forall is_unsigned dd → Z.of_nat (length dd + k) < 2 ^ 32 - 1 →
  lgamma 1%float = 0%float →
  (∀ j, Z.of_nat (length dd) < j ≤ Z.of_nat (length dd + k) →
        is_finite (lgamma (of_unsigned (1 + j))) = true) →
  calculate_log_probability lgamma log (dd ++ replicate k 0) M
  = calculate_log_probability lgamma log dd M.
Proof.
  intros Hdd Hlen H1 Hfin.
  assert (Forall is_unsigned (dd ++ replicate k 0)) as Hdd'.
  { apply Forall_app. split; [done|]. apply Forall_replicate. unfold is_unsigned. lia. }
  pose proof (num_unique_of_replicate k) as HU0.
  assert (num_unique_of (dd ++ replicate k 0) = num_unique_of dd) as HU
    by (rewrite num_unique_of_app, HU0; lia).
  assert (num_draws_of (dd ++ replicate k 0) = num_draws_of dd) as HN.
  { unfold num_draws_of. rewrite weighted_from_app, (weighted_from_zero _ (replicate k 0)).
    - lia.
    - apply Forall_replicate. lia.
    - done. }
  rewrite !calculate_log_probability_spec
    by (done || (rewrite ?length_app, ?length_replicate; lia)).
  rewrite HN, HU. unfold log_probability_returned. cbv zeta. rewrite HN, HU.
  rewrite log_denom_from_app, log_denom_from_zeros; [done | done | lia | lia | |].
  - intros j Hj. apply Hfin. lia.
  - by apply log_denom_from_not_neg_zero.
Qed.

End TrailingZeros.

(** ** The profile of a collection of one item *)

Lemma binary_round_aux_exact s p m n e :
  0 ≤ n → Zpos p = Zpos m * 2 ^ n →
  fexp prec emax (digits m + (e + n)) = e + n → e + n ≤ 971 →
  binary_round_aux prec emax s (Zpos p) e loc_Exact = S754_finite s m (e + n).
Proof.
  intros Hn Hp Hf He.
  pose proof (digits_mul_pow2 p m n Hn Hp) as Hdp.
  assert (fexp prec emax (Zdigits2 (Zpos p) + e) - e = n) as Hf1.
  { simpl Zdigits2. fold (digits p). rewrite Hdp.
    replace (digits m + n + e) with (digits m + (e + n)) by lia. lia. }
  assert (fexp prec emax (Zdigits2 (Zpos m) + (e + n)) - (e + n) = 0) as Hf2.
  { simpl Zdigits2. fold (digits m). lia. }
  unfold binary_round_aux, shr_fexp. rewrite Hf1. cbn [shr_record_of_loc].
  rewrite Hp, shr_exact by lia.
  cbn [shr_m loc_of_shr_record round_nearest_even]. rewrite Hf2.
  cbn [shr shr_record_of_loc shr_m].
  replace (e + n <=? emax - prec) with true; [done|].
  symmetry. apply Z.leb_le. unfold emax, prec. lia.
Qed.

Lemma SFmul_one s m e :
  valid_binary (S754_finite s m e) = true →
  SFmul prec emax (Prim2SF 1) (S754_finite s m e) = S754_finite s m e.
Proof.
  intros Hv.
  change (Prim2SF 1) with (S754_finite false 4503599627370496 (-52)).
  cbn [SFmul xorb].
  unfold valid_binary, bounded, canonical_mantissa in Hv.
  apply andb_prop in Hv as [Hc Hb]. apply Z.eqb_eq in Hc. apply Z.leb_le in Hb.
  fold (digits m) in Hc. unfold emax, prec in Hb.
  rewrite (binary_round_aux_exact s _ m 52 (-52 + e)).
  - f_equal. lia.
  - lia.
  - rewrite Pos2Z.inj_mul. change (Z.pos 4503599627370496) with (2 ^ 52). lia.
  - replace (-52 + e + 52) with e by lia. exact Hc.
  - lia.
Qed.

Lemma single_item_value (L : double) n :
  is_finite L = true → 0 < n < 2 ^ 53 →
  (L - (0 + (0 + 1 * L)) + 0 - 0 - of_unsigned n * 0)%float = 0%float.
Proof.
  intros HL Hn. apply Prim2SF_inj.
  rewrite !FloatAxioms.sub_spec, !FloatAxioms.add_spec, !FloatAxioms.mul_spec,
    !FloatAxioms.sub_spec, !FloatAxioms.add_spec, !FloatAxioms.mul_spec.
  rewrite Prim2SF_of_unsigned by lia.
  pose proof (Prim2SF_valid L) as Hv. unfold is_finite in HL.
  change (Prim2SF 0) with (S754_zero false).
  destruct n as [|q|q]; try lia. cbn [dyadic]. unfold canon.
  destruct (Prim2SF L) as [[]|[]| |s m e] eqn:EL; try done.
  rewrite SFmul_one by done.
  unfold SF64add, SF64sub, SF64mul. cbn [SFadd]. rewrite SFsub_diag. done.
Qed.

Section SingleItem.

Variable lgamma : double → double.
Variable log : double → double.
Variable mt19937 : Type.
Variable mt19937_seed : Z → mt19937.
Variable uniform_int : Z → Z → mt19937 → Z * mt19937.

Hypothesis lgamma_1 : lgamma 1%float = 0%float.
Hypothesis lgamma_2 : lgamma 2%float = 0%float.
Hypothesis log_1 : log 1%float = 0%float.

Lemma single_item_log_probability_value N :
  1 ≤ N ≤ 2 ^ 32 - 2 →
  (∀ j, 1 ≤ j ≤ N → is_finite (lgamma (of_unsigned (1 + j))) = true) →
  calculate_log_probability lgamma log (single_item_profile N) 1 = Returns 0%float.
Proof.
  intros HN Hfin. unfold single_item_profile.
  set (k := Z.to_nat (N - 1)).
  assert (Forall is_unsigned (replicate k 0 ++ [1])) as Hdd.
  { apply Forall_app. split; [apply Forall_replicate | repeat constructor];
      unfold is_unsigned; lia. }
  rewrite calculate_log_probability_spec
    by (done || (rewrite length_app, length_replicate; simpl; lia)).
  rewrite num_draws_of_zeros, num_unique_of_zeros.
  Zbool_true (Z.of_nat k + 1 <? 2 ^ 32). change (1 <=? 1) with true. cbv iota.
  f_equal. unfold log_probability_returned. cbv zeta.
  rewrite num_draws_of_zeros, num_unique_of_zeros.
  replace (Z.of_nat k + 1) with N by lia.
  rewrite (wrap32_small (1 + N)) by lia.
  change (of_unsigned (wrap32 (1 + 1))) with 2%float.
  change (of_unsigned (wrap32 (wrap32 (1 + 1) - 1))) with 1%float.
  change (of_unsigned 1) with 1%float.
  rewrite lgamma_1, lgamma_2, log_1.
  rewrite (log_denom_from_app lgamma), length_replicate.
  rewrite (log_denom_from_zeros lgamma 1 k 0%float); [|done|lia|lia| |done].
  2:{ intros j Hj. apply Hfin. lia. }
  cbn [log_denom_from].
  change (Z_to_double (1 + 1)) with 2%float. change (Z_to_double 1) with 1%float.
  rewrite Z_to_double_of_unsigned by lia. rewrite lgamma_2.
  replace (1 + Z.of_nat k) with N by lia.
  apply single_item_value; [apply Hfin; lia | lia].
Qed.

Lemma draw_balls_single_item_from (d : BallDrawer mt19937) buf N :
  uniform_contract uniform_int →
  dist_a d = 0 → dist_b d = 0 → 1 ≤ N < 2 ^ 32 →
  ∃ d', draw_balls uniform_int d buf N = Returns (single_item_profile N, d')
        ∧ dist_a d' = 0 ∧ dist_b d' = 0.
Proof.
  intros Hu Ha Hb HN.
  destruct (draw_balls_profile mt19937 uniform_int d buf N ltac:(lia))
    as (dd & d2 & Hrun & _ & _ & _ & Ha2 & Hb2).
  unfold draw_balls in *.
  replace (Z.to_nat N) with (S (Z.to_nat (N - 1))) in * by lia.
  cbn [draw_loop] in *.
  rewrite draw_step_returns in *
    by (apply profile_ok_nil || (unfold num_draws_of; simpl; lia)).
  cbn [mbind outcome_bind] in *.
  assert (draw_step_spec [] (next_ball uniform_int d).1 = replicate 0 0 ++ [1]) as Hfirst.
  { unfold draw_step_spec. change (num_unique_of []) with 0.
    assert (0 ≤ (next_ball uniform_int d).1) as Hr
      by (unfold next_ball; destruct (uniform_int _ _ _); apply wrap32_range).
    by Zbool_true (0 <=? (next_ball uniform_int d).1). }
  rewrite Hfirst in *.
  destruct (draw_loop_single_item mt19937 uniform_int (Z.to_nat (N - 1)) 0
              (next_ball uniform_int d).2 Hu) as [d' Hrun'].
  - unfold next_ball. by destruct (uniform_int _ _ _).
  - unfold next_ball. by destruct (uniform_int _ _ _).
  - lia.
  - rewrite Hrun' in Hrun. injection Hrun as <- <-.
    exists d'. split; [done|]. by rewrite Ha2, Hb2.
Qed.

Lemma monte_carlo_loop_single_item n N (d : BallDrawer mt19937) buf out :
  uniform_contract uniform_int →
  dist_a d = 0 → dist_b d = 0 → 1 ≤ N ≤ 2 ^ 32 - 2 →
  (∀ j, 1 ≤ j ≤ N → is_finite (lgamma (of_unsigned (1 + j))) = true) →
  ∃ d' dd',
    monte_carlo_loop lgamma log uniform_int n 1 N (d, buf, out)
    = Returns (d', dd',
               out ++ replicate n (mkReportLine 1 N 0%float (single_item_profile N))).
Proof.
  intros Hu Ha Hb HN Hfin. revert d buf out Ha Hb.
  induction n as [|n IH]; intros d buf out Ha Hb.
  - exists d, buf. simpl. by rewrite app_nil_r.
  - cbn [monte_carlo_loop].
    destruct (draw_balls_single_item_from d buf N Hu Ha Hb ltac:(lia))
      as (d1 & -> & Ha1 & Hb1).
    cbn [mbind outcome_bind].
    rewrite single_item_log_probability_value by done.
    cbn [mbind outcome_bind].
    destruct (IH d1 (single_item_profile N) (out ++ [mkReportLine 1 N 0%float
                                                       (single_item_profile N)])
                Ha1 Hb1) as (d' & dd' & ->).
    exists d', dd'. by rewrite <- (assoc_L (++)).
Qed.

(** X13: the profile drawn from a collection of one item has the
    log-probability [+0] exactly (probability 1), [lgamma(1)], [lgamma(2)]
    and [log(1)] being [+0] and [lgamma] finite at the integers up to
    [N + 1]. *)
Theorem single_item_log_probability (N seed : Z) (dd0 : vec) :
  uniform_contract uniform_int → 1 ≤ N ≤ 2 ^ 32 - 2 →
  (∀ j, 1 ≤ j ≤ N → is_finite (lgamma (of_unsigned (1 + j))) = true) →
  ∃ dd d',
    draw_balls uniform_int (BallDrawer_new mt19937_seed 1 seed) dd0 N = Returns (dd, d')
    ∧ calculate_log_probability lgamma log dd 1 = Returns 0%float.
Proof.
  intros Hu HN Hfin.
  destruct (draw_balls_single_item_from (BallDrawer_new mt19937_seed 1 seed) dd0 N Hu
              eq_refl eq_refl ltac:(lia)) as (d' & Hrun & _).
  exists (single_item_profile N), d'. split; [done|].
  by apply single_item_log_probability_value.
Qed.

(** X14: with one item every simulated profile ties with the reference
    profile of [N] draws of that item: [monte_carlo_pvalue] returns exactly
    0.5. *)
Theorem single_item_pvalue (N R seed : Z) :
  uniform_contract uniform_int → 1 ≤ N ≤ 2 ^ 32 - 2 → 1 ≤ R < 2 ^ 32 →
  (∀ j, 1 ≤ j ≤ N → is_finite (lgamma (of_unsigned (1 + j))) = true) →
  monte_carlo_pvalue lgamma log mt19937_seed uniform_int
    (replicate (Z.to_nat (N - 1)) 0 ++ [1]) 1 R seed
  = Returns 0.5%float.
Proof.
  intros Hu HN HR Hfin. fold (single_item_profile N).
  assert (Forall is_unsigned (single_item_profile N)) as Hdd.
  { apply Forall_app. split; [apply Forall_replicate | repeat constructor];
      unfold is_unsigned; lia. }
  assert (Z.of_nat (length (single_item_profile N)) < 2 ^ 32 - 1) as Hlen
    by (unfold single_item_profile; rewrite length_app, length_replicate; simpl; lia).
  pose proof (single_item_log_probability_value N HN Hfin) as Href.
  destruct (ref_draws_loop_spec lgamma log _ 1 _ Hdd Hlen Href) as (HNloop & _).
  assert (num_draws_of (single_item_profile N) = N) as HNref
    by (unfold single_item_profile; rewrite num_draws_of_zeros; lia).
  unfold monte_carlo_pvalue. rewrite Href, HNloop, HNref. cbn [mbind outcome_bind].
  pose proof (pvalue_loop_monte_carlo_loop lgamma log mt19937 uniform_int
                (Z.to_nat R) 1 N 0%float (BallDrawer_new mt19937_seed 1 seed)
                (vec_resize [] N) 0%float) as Hloop.
  destruct (monte_carlo_loop_single_item (Z.to_nat R) N
              (BallDrawer_new mt19937_seed 1 seed) (vec_resize [] N) [] Hu
              eq_refl eq_refl HN Hfin) as (d' & dd' & Hmc).
  rewrite Hmc in Hloop. cbn [mbind outcome_bind snd app] in Hloop.
  destruct (pvalue_loop _ _ _ _ _ _ _ _) as [[[d1 buf1] score1]| |]; [|done..].
  cbn [mbind outcome_bind snd] in Hloop |- *. injection Hloop as ->. f_equal.
  apply tie_score_ratio; [|done].
  rewrite (foldl_score_update_weight 0%float _ 0%float 0);
    [ | done | lia | rewrite length_replicate; lia].
  f_equal. rewrite fmap_replicate.
  rewrite (total_weight_all 0%float _ 1) by (by apply Forall_replicate).
  rewrite length_replicate. lia.
Qed.

End SingleItem.

(** ** The further properties at concrete inputs *)

Lemma draw_balls_no_trailing_zero_witness :
  ∃ dd d',
    draw_balls lcg_uniform_int (BallDrawer_new lcg_seed 3 42) [] 5 = Returns (dd, d')
    ∧ Forall is_unsigned dd
    ∧ Z.of_nat (length dd) ≤ 5
    ∧ (∀ x, last dd = Some x → 1 ≤ x)
    ∧ (1 ≤ 5 → 1 ≤ num_unique_of dd).
Proof.
  apply (draw_balls_no_trailing_zero Z lcg_seed lcg_uniform_int 3 5 42 []). lia.
Defined.

Lemma draw_balls_single_item_witness :
  ∃ d', draw_balls lcg_uniform_int (BallDrawer_new lcg_seed 1 42) [] 4
        = Returns ([0; 0; 0; 1], d').
Proof.
  apply (draw_balls_single_item Z lcg_seed lcg_uniform_int 4 42 []);
    [apply lcg_uniform_int_contract | lia].
Defined.

Lemma monte_carlo_lines_witness :
  ∃ out,
    monte_carlo sample_lgamma sample_log lcg_seed lcg_uniform_int 3 4 2 0 = Returns out
    ∧ length out = 2%nat
    ∧ Forall (λ l, line_num_balls l = 3 ∧ line_num_draws l = 4
                   ∧ num_draws_of (line_dd l) = 4
                   ∧ num_unique_of (line_dd l) ≤ 3
                   ∧ calculate_log_probability sample_lgamma sample_log (line_dd l) 3
                     = Returns (line_log_probability l)
                   ∧ (3 ≤ 2 ^ 32 - 2 →
                      line_log_probability l
                      = log_probability_formula sample_lgamma sample_log (line_dd l) 3))
        out.
Proof.
  apply (monte_carlo_lines sample_lgamma sample_log Z lcg_seed lcg_uniform_int 3 4 2 0);
    [apply lcg_uniform_int_contract | lia | lia].
Defined.

Lemma monte_carlo_pvalue_of_monte_carlo_witness :
  monte_carlo_pvalue sample_lgamma sample_log lcg_seed lcg_uniform_int [1; 1] 3 2 0
  = ref_log_p ← calculate_log_probability sample_lgamma sample_log [1; 1] 3;
    out ← monte_carlo sample_lgamma sample_log lcg_seed lcg_uniform_int 3
            (num_draws_of [1; 1]) 2 0;
    Returns
      (foldl (λ score l,
                score_update score (ref_log_p - line_log_probability l)%float)
         0%float out
       / of_unsigned 2)%float.
Proof.
  apply (monte_carlo_pvalue_of_monte_carlo sample_lgamma sample_log Z lcg_seed
           lcg_uniform_int [1; 1] 3 2 0);
    [repeat constructor; lia | simpl; lia].
Defined.

Lemma monte_carlo_empty_collection_witness :
  monte_carlo sample_lgamma sample_log lcg_seed lcg_uniform_int 0 3 2 5 = AssertionFailed.
Proof.
  apply (monte_carlo_empty_collection sample_lgamma sample_log Z lcg_seed
           lcg_uniform_int 3 2 5); lia.
Defined.

Lemma monte_carlo_pvalue_exact_score_witness :
  ∃ ref_log_p out,
    calculate_log_probability sample_lgamma sample_log [2; 1] 5 = Returns ref_log_p
    ∧ monte_carlo sample_lgamma sample_log lcg_seed lcg_uniform_int 5
        (num_draws_of [2; 1]) 6 2 = Returns out
    ∧ let h := total_weight ref_log_p (line_log_probability <$> out) in
      0 ≤ h ≤ 2 * 6
      ∧ Prim2SF 0.75 = SF64div (dyadic h (-1)) (dyadic 6 0).
Proof.
  apply (monte_carlo_pvalue_exact_score sample_lgamma sample_log Z lcg_seed
           lcg_uniform_int [2; 1] 5 6 2 0.75%float);
    [repeat constructor; lia | simpl; lia | lia | vm_compute; reflexivity].
Defined.

Lemma monte_carlo_pvalue_extremes_witness :
  ∃ ref_log_p out,
    calculate_log_probability sample_lgamma sample_log [1; 1] 3 = Returns ref_log_p
    ∧ monte_carlo sample_lgamma sample_log lcg_seed lcg_uniform_int 3
        (num_draws_of [1; 1]) 5 7 = Returns out
    ∧ (Forall (λ l, trial_weight ref_log_p (line_log_probability l) = 2) out →
       1%float = 1%float)
    ∧ (Forall (λ l, trial_weight ref_log_p (line_log_probability l) = 0) out →
       1%float = 0%float).
Proof.
  apply (monte_carlo_pvalue_extremes sample_lgamma sample_log Z lcg_seed
           lcg_uniform_int [1; 1] 3 5 7 1%float);
    [repeat constructor; lia | simpl; lia | lia | vm_compute; reflexivity].
Defined.

Lemma monte_carlo_pvalue_of_nan_witness :
  monte_carlo_pvalue sample_lgamma sample_log lcg_seed lcg_uniform_int [] 0 3 0
  = Returns 0%float.
Proof.
  apply (monte_carlo_pvalue_of_nan sample_lgamma sample_log Z lcg_seed lcg_uniform_int
           [] 0 3 0 nan);
    [apply lcg_uniform_int_contract | constructor | simpl; lia
    | vm_compute; discriminate | lia | lia | reflexivity | reflexivity].
Defined.

Lemma monte_carlo_pvalue_assertion_witness :
  monte_carlo_pvalue sample_lgamma sample_log lcg_seed lcg_uniform_int [1; 1] 1 2 0
  = AssertionFailed.
Proof.
  apply (monte_carlo_pvalue_assertion sample_lgamma sample_log Z lcg_seed
           lcg_uniform_int [1; 1] 1 2 0);
    [apply lcg_uniform_int_contract | repeat constructor; lia | simpl; lia
    | vm_compute; discriminate | lia | vm_compute; reflexivity].
Defined.

Lemma log_probability_undefined_witness :
  calculate_log_probability sample_lgamma sample_log [0; 2147483648] 7 = Undefined.
Proof.
  apply (log_probability_undefined sample_lgamma sample_log [0; 2147483648] 7);
    [repeat constructor; lia | simpl; lia | vm_compute; discriminate].
Defined.

Lemma log_probability_trailing_zeros_witness :
  calculate_log_probability sample_lgamma sample_log ([1; 1] ++ replicate 2 0) 3
  = calculate_log_probability sample_lgamma sample_log [1; 1] 3.
Proof.
  apply (log_probability_trailing_zeros sample_lgamma sample_log [1; 1] 2 3).
  - repeat constructor; lia.
  - simpl; lia.
  - reflexivity.
  - intros j Hj. simpl in Hj. assert (j = 3 ∨ j = 4) as [->| ->] by lia; reflexivity.
Defined.

Lemma single_item_log_probability_witness :
  ∃ dd d',
    draw_balls lcg_uniform_int (BallDrawer_new lcg_seed 1 42) [] 3 = Returns (dd, d')
    ∧ calculate_log_probability sample_lgamma sample_log dd 1 = Returns 0%float.
Proof.
  apply (single_item_log_probability sample_lgamma sample_log Z lcg_seed lcg_uniform_int
           eq_refl eq_refl eq_refl 3 42 []).
  - apply lcg_uniform_int_contract.
  - lia.
  - intros j Hj. assert (j = 1 ∨ j = 2 ∨ j = 3) as [->|[->| ->]] by lia; reflexivity.
Defined.

Lemma single_item_pvalue_witness :
  monte_carlo_pvalue sample_lgamma sample_log lcg_seed lcg_uniform_int [0; 0; 1] 1 4 9
  = Returns 0.5%float.
Proof.
  apply (single_item_pvalue sample_lgamma sample_log Z lcg_seed lcg_uniform_int
           eq_refl eq_refl eq_refl 3 4 9).
  - apply lcg_uniform_int_contract.
  - lia.
  - lia.
  - intros j Hj. assert (j = 1 ∨ j = 2 ∨ j = 3) as [->|[->| ->]] by lia; reflexivity.
Defined.

Lemma place_ball_hits_item_witness :
  ∃ dd',
    place_ball [1; 2] 1 = Returns dd'
    ∧ Z.of_nat (length (items_of [1; 2])) = num_unique_of [1; 2]
    ∧ Z.of_nat (sum_list (items_of [1; 2])) = num_draws_of [1; 2]
    ∧ Forall (λ c, 1 ≤ c)%nat (items_of [1; 2])
    ∧ StronglySorted le (items_of [1; 2])
    ∧ (1 < num_unique_of [1; 2] →
       ∃ m, items_of [1; 2] !! Z.to_nat 1 = Some m
            ∧ items_of dd' ≡ₚ <[Z.to_nat 1 := S m]> (items_of [1; 2]))
    ∧ (num_unique_of [1; 2] ≤ 1 → items_of dd' ≡ₚ 1%nat :: items_of [1; 2]).
Proof.
  apply (place_ball_hits_item [1; 2] 1).
  - split; [repeat constructor; lia | vm_compute; discriminate].
  - vm_compute; reflexivity.
  - lia.
Defined.
